(** * fluxdb: key codec, mutation batch, KV store reads and shard injector

    A shallow embedding of [store/kv] (the [KVStore] adapter and its
    mutation [batch]) and of the shard injector of package [fluxdb],
    together with the properties the specification states about them.

    Conventions of the embedding:
    - a Go [byte] is an [ascii]; a Go [string] is a [string]; a Go [[]byte]
      used as a key is a [list ascii]; a [[]byte] used as a value is an
      [option (list ascii)], [None] being the [nil] slice and [Some []] the
      empty non-nil slice (the code tests [value == nil]);
    - [uint64] and [int] are [Z] with the wrap-around written out;
    - Go [error] values are the inductive [error]; [nil] is [None];
    - a runtime panic is the [None] of the outer [option];
    - the backend ([kv.KVStore]) and the object store ([dstore.Store]) are
      interfaces: they are records of operations over an abstract state. *)

From Stdlib Require Import ZArith Lia Ascii.
From Stdlib Require String.
From stdpp Require Import base option list gmap strings fin_maps sorting.

Local Open Scope Z_scope.

(** ** Go values *)

Definition byte := ascii.
Definition bytes := list ascii.

(** A [[]byte] value whose nil-ness is observable. *)
Definition value := option bytes.

Definition byteVal (b : byte) : Z := Z.of_N (N_of_ascii b).
Definition byteOf (z : Z) : byte := ascii_of_N (Z.to_N (z mod 256)).

(** [[]byte(s)] and [string(b)]. *)
Definition bytesOf (s : string) : bytes := String.list_ascii_of_string s.
Definition stringOf (b : bytes) : string := String.string_of_list_ascii b.

(** [uint64] and [int] arithmetic. *)
Definition maxUint64 : Z := 2 ^ 64 - 1.
Definition wrap64 (z : Z) : Z := z mod 2 ^ 64.
Definition wrapInt (z : Z) : Z := (z + 2 ^ 63) mod 2 ^ 64 - 2 ^ 63.

(** ** Errors *)

Inductive fmtArg :=
| ArgStr (s : string)
| ArgByte (b : byte)
| ArgNum (n : Z).

Inductive numErrKind := ErrSyntax | ErrRange.

Inductive error :=
| BreakScan                                   (* store.BreakScan *)
| ErrNotFound                                 (* store.ErrNotFound *)
| KvErrNotFound                               (* kv.ErrNotFound *)
| EOF                                         (* io.EOF *)
| NumError (fn : string) (num : string) (kind : numErrKind)  (* *strconv.NumError *)
| External (msg : string)                     (* a failure of a collaborator *)
| Errorf (format : string) (args : list fmtArg)          (* fmt.Errorf without %w *)
| Wrapf (format : string) (args : list fmtArg) (inner : error).
                                              (* fmt.Errorf("...%w", ..., inner) *)

(** [err == store.BreakScan], [err == kv.ErrNotFound], [err == io.EOF]:
    comparison of error values, true only on the sentinel itself. *)
Definition isBreakScan (e : error) : bool :=
  match e with BreakScan => true | _ => false end.
Definition isKvErrNotFound (e : error) : bool :=
  match e with KvErrNotFound => true | _ => false end.
Definition isEOF (e : error) : bool :=
  match e with EOF => true | _ => false end.

(** An error built by [fmt.Errorf("...: %w", ..., err)]. *)
Definition wrapsError (e : error) : Prop :=
  ∃ format args inner, e = Wrapf format args inner.

(** [errors.Unwrap]: the error wrapped with [%w], if any. *)
Definition Unwrap (e : error) : option error :=
  match e with
  | Wrapf _ _ inner => Some inner
  | _ => None
  end.

(** [n] times [errors.Unwrap]. *)
Definition UnwrapTimes (n : nat) (e : error) : option error :=
  Nat.iter n (λ o, o ≫= Unwrap) (Some e).

Module KV.

(** ** Tables *)

Definition TblPrefixRows : byte := byteOf 0.
Definition TblPrefixIndex : byte := byteOf 1.
Definition TblPrefixLast : byte := byteOf 3.

Definition TblPrefixName : gmap byte string :=
  <[TblPrefixRows := "tablet"%string]>
    (<[TblPrefixIndex := "index"%string]>
      (<[TblPrefixLast := "block"%string]> ∅)).

(** [TblPrefixName[t]]: a missing key reads as the zero value. *)
Definition tblName (t : byte) : string := default ""%string (TblPrefixName !! t).

(** ** Key codec *)

Definition packKey (table : byte) (key : string) : bytes :=
  [table] ++ bytesOf key.

(** [key[0]] panics on an empty slice. *)
Definition unpackKey (key : bytes) : option (byte * string) :=
  match key with
  | [] => None
  | k0 :: _ => Some (k0, stringOf key)
  end.

(** ** The backend contract ([kv.KVStore])

    An iterator is consumed front to back: [Next] is true once per item,
    then false, after which [Err] reports [itErr]. *)

Record KVItem := { Key : bytes; Value : value }.
Record Iterator := { itItems : list KVItem; itErr : option error }.

Record Backend := {
  dbState : Type;
  dbGet : dbState → bytes → value * option error;
  dbPut : dbState → bytes → value → dbState * option error;
  dbFlushPuts : dbState → dbState * option error;
  dbBatchGet : dbState → list bytes → Iterator;
  dbScan : dbState → bytes → bytes → Z → Iterator;
  dbPrefix : dbState → bytes → Z → Iterator }.

(** [kv.Unlimited] *)
Definition Unlimited : Z := 0.

(** The mutating calls a [KVStore] has issued to its backend, oldest first. *)
Inductive dbCall :=
| CallPut (k : bytes) (v : value)
| CallFlushPuts.

(** [type KVStore struct { db kv.KVStore }], with the log of its writes. *)
Record KVStore (B : Backend) := mkStore { db : dbState B; calls : list dbCall }.
Arguments mkStore {B} _ _.
Arguments db {B} _.
Arguments calls {B} _.

(** What one mutating call does to the backend, and what a sequence of
    calls leaves of it when every call succeeds. *)
Definition doCall (B : Backend) (d : dbState B) (c : dbCall)
  : dbState B * option error :=
  match c with
  | CallPut k v => dbPut B d k v
  | CallFlushPuts => dbFlushPuts B d
  end.

Fixpoint applyCalls (B : Backend) (d : dbState B) (cs : list dbCall)
  : option (dbState B) :=
  match cs with
  | [] => Some d
  | c :: rest =>
      match doCall B d c with
      | (d', None) => applyCalls B d' rest
      | (_, Some _) => None
      end
  end.

(** The order in which [for key, value := range muts] visits a map: not
    specified by Go, which picks one each time the statement runs, but
    every entry is visited once. [Flush] runs the statement once for each
    table of its loop, so the choices of one [Flush] are one order per
    table: two buckets with the same entries may be visited differently. *)
Record RangeOrder := {
  rangeOf : byte → gmap string value → list (string * value);
  rangeOf_perm : ∀ tblName m, rangeOf tblName m ≡ₚ map_to_list m }.

Definition mapOrder : RangeOrder :=
  {| rangeOf := λ _, map_to_list; rangeOf_perm := λ _ m, reflexivity _ |}.

(** Each bucket in the reverse of [mapOrder], but for the rows. *)
Definition mixedOrder : RangeOrder :=
  {| rangeOf := λ tblName m,
       if decide (tblName = TblPrefixRows) then map_to_list m
       else reverse (map_to_list m);
     rangeOf_perm := λ tblName m,
       match decide (tblName = TblPrefixRows) as c
         return ((if c then map_to_list m else reverse (map_to_list m))
                   ≡ₚ map_to_list m) with
       | left _ => reflexivity _
       | right _ => reverse_Permutation _
       end |}.

(** ** Mutation batch *)

Record batch := mkBatch {
  count : Z;
  tableMutations : gmap byte (gmap string value) }.

Definition emptyTables : gmap byte (gmap string value) :=
  <[TblPrefixRows := ∅]> (<[TblPrefixIndex := ∅]> (<[TblPrefixLast := ∅]> ∅)).

Definition Reset (b : batch) : batch :=
  {| count := 0; tableMutations := emptyTables |}.

Definition newBatch : batch := Reset {| count := 0; tableMutations := ∅ |}.

Definition maxMutationCount : Z := 100.

(** [b.tableMutations[table][key] = value] panics when the table has no
    bucket (assignment to an entry of a nil map). *)
Definition setTable (b : batch) (table : byte) (key : string) (v : value)
  : option batch :=
  muts ← tableMutations b !! table;
  Some {| count := wrapInt (count b + 1);
          tableMutations := <[table := <[key := v]> muts]> (tableMutations b) |}.

Definition SetRow (b : batch) key v := setTable b TblPrefixRows key v.
Definition SetLast (b : batch) key v := setTable b TblPrefixLast key v.
Definition SetIndex (b : batch) key tableSnapshot :=
  setTable b TblPrefixIndex key tableSnapshot.

Definition tableNames : list byte :=
  [TblPrefixRows; TblPrefixIndex; TblPrefixLast].

(** [b.tableMutations[tblName]]: a missing bucket reads as the nil map. *)
Definition mutsOf (b : batch) (tblName : byte) : gmap string value :=
  default ∅ (tableMutations b !! tblName).

(** *** Notions the properties of the batch are stated with *)

(** The writes of a batch, in order: table, key, value. *)
Fixpoint setAll (ws : list (byte * string * value)) (b : batch) : option batch :=
  match ws with
  | [] => Some b
  | (t, k, v) :: rest => b' ← setTable b t k v; setAll rest b'
  end.

(** The number of mutations the three buckets hold, same-key writes
    collapsed. *)
Definition buffered (b : batch) : Z :=
  Z.of_nat (size (mutsOf b TblPrefixRows) + size (mutsOf b TblPrefixIndex)
            + size (mutsOf b TblPrefixLast)).

(** The backend calls [Flush] makes for one table. *)
Definition putsOf (order : RangeOrder) (b : batch) (tblName : byte) : list dbCall :=
  (λ kv, CallPut (packKey tblName kv.1) kv.2) <$> rangeOf order tblName (mutsOf b tblName).

(** The batch has its three buckets. *)
Definition hasBuckets (b : batch) : Prop :=
  ∀ t, t ∈ tableNames → is_Some (tableMutations b !! t).

(** The sequence of backend calls of a [Flush] that succeeds. *)
Definition flushCalls (order : RangeOrder) (b : batch) : list dbCall :=
  putsOf order b TblPrefixRows ++ putsOf order b TblPrefixIndex
    ++ putsOf order b TblPrefixLast ++ [CallFlushPuts].

Section Store.
Context {B : Backend}.
Variable order : RangeOrder.

Definition Put (s : KVStore B) (k : bytes) (v : value) : KVStore B * option error :=
  let '(d, err) := dbPut B (db s) k v in
  (mkStore d (calls s ++ [CallPut k v]), err).

Definition FlushPuts (s : KVStore B) : KVStore B * option error :=
  let '(d, err) := dbFlushPuts B (db s) in
  (mkStore d (calls s ++ [CallFlushPuts]), err).

(** The inner loop of [Flush]: one [Put] per buffered mutation. *)
Fixpoint putMutations (tblName : byte) (kvs : list (string * value))
  (s : KVStore B) : KVStore B * option error :=
  match kvs with
  | [] => (s, None)
  | (key, v) :: rest =>
      match Put s (packKey tblName key) v with
      | (s', Some err) =>
          (s', Some (Wrapf "unable to add table %q key %q to tx: %w"
                       [ArgByte tblName; ArgStr key] err))
      | (s', None) => putMutations tblName rest s'
      end
  end.

(** The outer loop of [Flush] over [tableNames]. *)
Fixpoint flushTables (b : batch) (tbls : list byte) (s : KVStore B)
  : KVStore B * option error :=
  match tbls with
  | [] => (s, None)
  | tblName :: rest =>
      let muts := mutsOf b tblName in
      if decide (Z.of_nat (size muts) ≤ 0) then flushTables b rest s
      else
        match putMutations tblName (rangeOf order tblName muts) s with
        | (s', Some err) => (s', Some err)
        | (s', None) => flushTables b rest s'
        end
  end.

Definition Flush (b : batch) (s : KVStore B) : batch * KVStore B * option error :=
  match flushTables b tableNames s with
  | (s', Some err) => (b, s', Some err)
  | (s', None) =>
      match FlushPuts s' with
      | (s'', Some err) => (b, s'', Some (Wrapf "apply bulk: %w" [] err))
      | (s'', None) => (Reset b, s'', None)
      end
  end.

Definition FlushIfFull (b : batch) (s : KVStore B)
  : batch * KVStore B * option error :=
  if decide (count b ≤ maxMutationCount) then (b, s, None)
  else
    match Flush b s with
    | (b', s', Some err) => (b', s', Some (Wrapf "flushing batch set: %w" [] err))
    | (b', s', None) => (b', s', None)
    end.

End Store.

(** ** Reads

    A row callback is a Go closure: [A] is the state it captures and
    updates, threaded through the scan. *)

Definition OnRow (A : Type) : Type := A → string → value → A * option error.

(** How a [for itr.Next()] loop is left: by running out of items, or by a
    [return] from its body. *)
Inductive loopExit (A : Type) :=
| Exhausted (a : A)
| Returned (a : A) (err : option error).
Arguments Exhausted {A} _.
Arguments Returned {A} _ _.

(** [bstream.BlockRef], kept as the block id it is built from. *)
Definition BlockRef := string.
Definition BlockRefFromID (v : value) : BlockRef := stringOf (default [] v).

(** The end key [scanRange] computes: the packed [keyEnd], or without one
    the end of the table, one byte more than the table prefix. *)
Definition scanEndKey (table : byte) (keyEnd : string) : bytes :=
  if decide (keyEnd ≠ ""%string) then packKey table keyEnd
  else [byteOf (byteVal table + 1)].

(** *** Notions the properties of the reads are stated with *)

(** A callback that also records the rows it is called with. *)
Definition recording {A} (onRow : OnRow A) : OnRow (A * list (string * value)) :=
  λ st key v,
    let '(a', err) := onRow st.1 key v in ((a', st.2 ++ [(key, v)]), err).

(** The callback is run over the items, none of which makes it return an
    error: the state it ends in. *)
Fixpoint visitAll {A} (onRow : OnRow A) (items : list KVItem) (a : A) : option A :=
  match items with
  | [] => Some a
  | item :: rest =>
      '(_, key) ← unpackKey (Key item);
      match onRow a key (Value item) with
      | (a', None) => visitAll onRow rest a'
      | (_, Some _) => None
      end
  end.

(** The same over the items of a [BatchGet], those without a value being
    passed over. *)
Fixpoint visitFetched {A} (onRow : OnRow A) (items : list KVItem) (a : A) : option A :=
  match items with
  | [] => Some a
  | item :: rest =>
      match Value item with
      | None => visitFetched onRow rest a
      | Some _ =>
          '(_, key) ← unpackKey (Key item);
          match onRow a key (Value item) with
          | (a', None) => visitFetched onRow rest a'
          | (_, Some _) => None
          end
      end
  end.

Definition nonEmptyKeys (items : list KVItem) : Prop :=
  Forall (λ item, Key item ≠ []) items.

(** The rows [fetchKeys] has a value for, as its callback sees them. *)
Definition foundRows (items : list KVItem) : list (string * value) :=
  omap (λ item, match Value item with
                | Some _ => Some (stringOf (Key item), Value item)
                | None => None
                end) items.

(** [nil], or an error built by wrapping another. *)
Definition nilOrWrapped (err : option error) : Prop :=
  err = None ∨ ∃ e, err = Some e ∧ wrapsError e.

Section Reads.
Context {B : Backend}.

(** Every key the backend hands out on a scan is non-empty. *)
Definition wellKeyed (s : KVStore B) : Prop :=
  (∀ start exclusiveEnd limit,
      nonEmptyKeys (itItems (dbScan B (db s) start exclusiveEnd limit))) ∧
  (∀ p limit, nonEmptyKeys (itItems (dbPrefix B (db s) p limit))).

Definition fetchKey (s : KVStore B) (table : byte) (key : string)
  : value * option error :=
  let kvKey := packKey table key in
  match dbGet B (db s) kvKey with
  | (out, Some err) =>
      if isKvErrNotFound err then (None, Some ErrNotFound)
      else (None, Some (Wrapf "unable to fetch table %q key %q: %w"
                          [ArgStr (tblName table); ArgStr key] err))
  | (out, None) => (out, None)
  end.

Fixpoint fetchKeysLoop {A} (onTabletRow : OnRow A) (items : list KVItem) (a : A)
  : option (loopExit A) :=
  match items with
  | [] => Some (Exhausted a)
  | item :: rest =>
      match Value item with
      | None => fetchKeysLoop onTabletRow rest a
      | Some _ =>
          '(_, key) ← unpackKey (Key item);
          match onTabletRow a key (Value item) with
          | (a', Some err) =>
              if isBreakScan err then Some (Returned a' None)
              else Some (Returned a' (Some (Wrapf "on tablet row for key %q failed: %w"
                                              [ArgStr key] err)))
          | (a', None) => fetchKeysLoop onTabletRow rest a'
          end
      end
  end.

Definition fetchKeys {A} (s : KVStore B) (table : byte) (keys : list string)
  (onTabletRow : OnRow A) (a : A) : option (A * option error) :=
  let kvKeys := packKey table <$> keys in
  let itr := dbBatchGet B (db s) kvKeys in
  r ← fetchKeysLoop onTabletRow (itItems itr) a;
  match r with
  | Returned a' err => Some (a', err)
  | Exhausted a' =>
      match itErr itr with
      | Some err =>
          Some (a', Some (Wrapf "unable to fetch table %q keys (%d): %w"
                            [ArgStr (tblName table); ArgNum (Z.of_nat (length keys))] err))
      | None => Some (a', None)
      end
  end.

Fixpoint scanPrefixLoop {A} (onRow : OnRow A) (items : list KVItem) (a : A)
  : option (loopExit A) :=
  match items with
  | [] => Some (Exhausted a)
  | item :: rest =>
      '(t, key) ← unpackKey (Key item);
      match onRow a key (Value item) with
      | (a', Some err) =>
          if isBreakScan err then Some (Returned a' None)
          else Some (Returned a' (Some
                 (Wrapf "scan prefix: unable to process for table %q with key %q: %w"
                    [ArgStr (tblName t); ArgStr key] err)))
      | (a', None) => scanPrefixLoop onRow rest a'
      end
  end.

Definition scanPrefix {A} (s : KVStore B) (table : byte) (prefixKey : string)
  (limit : Z) (onRow : OnRow A) (a : A) : option (A * option error) :=
  let kvPrefix := packKey table prefixKey in
  let itr := dbPrefix B (db s) kvPrefix limit in
  r ← scanPrefixLoop onRow (itItems itr) a;
  match r with
  | Returned a' err => Some (a', err)
  | Exhausted a' =>
      match itErr itr with
      | Some err =>
          Some (a', Some (Wrapf "unable to scan table %q keys with prefix %q: %w"
                            [ArgStr (tblName table); ArgStr prefixKey] err))
      | None => Some (a', None)
      end
  end.

Fixpoint scanRangeLoop {A} (onRow : OnRow A) (items : list KVItem) (a : A)
  : option (loopExit A) :=
  match items with
  | [] => Some (Exhausted a)
  | item :: rest =>
      '(t, key) ← unpackKey (Key item);
      match onRow a key (Value item) with
      | (a', Some err) =>
          if isBreakScan err then Some (Returned a' None)
          else Some (Returned a' (Some
                 (Wrapf "scan range: unable to process for table %q with key %q: %w"
                    [ArgStr (tblName t); ArgStr key] err)))
      | (a', None) => scanRangeLoop onRow rest a'
      end
  end.

Definition scanRange {A} (s : KVStore B) (table : byte) (keyStart keyEnd : string)
  (limit : Z) (onRow : OnRow A) (a : A) : option (A * option error) :=
  let startKey := packKey table keyStart in
  let endKey := scanEndKey table keyEnd in
  let itr := dbScan B (db s) startKey endKey limit in
  r ← scanRangeLoop onRow (itItems itr) a;
  match r with
  | Returned a' err => Some (a', err)
  | Exhausted a' =>
      match itErr itr with
      | Some err =>
          Some (a', Some (Wrapf
                  "unable to scan table %q keys with start key %q and end key %q: %w"
                  [ArgStr (tblName table); ArgStr keyStart; ArgStr keyEnd] err))
      | None => Some (a', None)
      end
  end.

Definition scanInfiniteRange {A} (s : KVStore B) (table : byte) (keyStart : string)
  (limit : Z) (onRow : OnRow A) (a : A) : option (A * option error) :=
  scanRange s table keyStart "" limit onRow a.

(** [err != nil && err != store.BreakScan] *)
Definition isFailure (err : option error) : option error :=
  match err with
  | Some e => if isBreakScan e then None else Some e
  | None => None
  end.

Definition FetchSingletEntry (s : KVStore B) (keyStart keyEnd : string)
  : option (string * value * option error) :=
  '((key, v), err) ← scanRange s TblPrefixRows keyStart keyEnd 1
       (λ _ rowKey rowValue, ((rowKey, rowValue), Some BreakScan))
       (""%string, None);
  match isFailure err with
  | Some e =>
      Some (""%string, None,
            Some (Wrapf "unable to fetch single tablet row (range [%s, %s[): %w"
                    [ArgStr keyStart; ArgStr keyEnd] e))
  | None => Some (key, v, None)
  end.

Definition FetchIndex (s : KVStore B) (tableKey prefixKey keyStart : string)
  : option (string * value * option error) :=
  '((rowKey, rawIndex), err) ← scanInfiniteRange s TblPrefixIndex keyStart 1
       (λ st key v,
          if negb (String.prefix prefixKey key) then (st, Some BreakScan)
          else ((key, v), Some BreakScan))
       (""%string, None);
  match isFailure err with
  | Some e =>
      Some (""%string, None,
            Some (Wrapf "unable to fetch index for key prefix %q: %w"
                    [ArgStr prefixKey] e))
  | None =>
      match rawIndex with
      | None => Some (""%string, None, Some ErrNotFound)
      | Some _ => Some (rowKey, rawIndex, None)
      end
  end.

Definition HasTabletRow (s : KVStore B) (tabletKey : string)
  : option (bool * option error) :=
  '(exists_, err) ← scanPrefix s TblPrefixRows tabletKey 1
       (λ _ _ _, (true, Some BreakScan)) false;
  match isFailure err with
  | Some e =>
      Some (false, Some (Wrapf "scan prefix %q for table %q: %w"
                           [ArgStr tabletKey; ArgStr (tblName TblPrefixRows)] e))
  | None => Some (exists_, None)
  end.

Definition FetchTabletRow (s : KVStore B) (key : string) : value * option error :=
  fetchKey s TblPrefixRows key.

Definition FetchTabletRows {A} (s : KVStore B) (keys : list string)
  (onTabletRow : OnRow A) (a : A) : option (A * option error) :=
  fetchKeys s TblPrefixRows keys onTabletRow a.

Definition ScanTabletRows {A} (s : KVStore B) (keyStart keyEnd : string)
  (onTabletRow : OnRow A) (a : A) : option (A * option error) :=
  '(a', err) ← scanRange s TblPrefixRows keyStart keyEnd Unlimited
       (λ st key v,
          match onTabletRow st key v with
          | (st', Some e) =>
              if isBreakScan e then (st', Some BreakScan)
              else (st', Some (Wrapf "on tablet row for key %q failed: %w"
                                 [ArgStr key] e))
          | (st', None) => (st', None)
          end) a;
  match isFailure err with
  | Some e =>
      Some (a', Some (Wrapf "unable to scan tablet rows [%q, %q[: %w"
                        [ArgStr keyStart; ArgStr keyEnd] e))
  | None => Some (a', None)
  end.

Definition FetchLastWrittenBlock (s : KVStore B) (key : string)
  : option BlockRef * option error :=
  match fetchKey s TblPrefixLast key with
  | (_, Some err) => (None, Some err)
  | (v, None) => (Some (BlockRefFromID v), None)
  end.

Definition ScanLastShardsWrittenBlock {A} (s : KVStore B) (keyPrefix : string)
  (onBlockRef : A → string → BlockRef → A * option error) (a : A)
  : option (A * option error) :=
  '(a', err) ← scanPrefix s TblPrefixLast keyPrefix Unlimited
       (λ st key v,
          match onBlockRef st key (BlockRefFromID v) with
          | (st', Some e) =>
              if isBreakScan e then (st', Some BreakScan)
              else (st', Some (Wrapf "on block ref for table %q key %q failed: %w"
                                 [ArgByte TblPrefixRows; ArgStr key] e))
          | (st', None) => (st', None)
          end) a;
  match isFailure err with
  | Some e =>
      Some (a', Some (Wrapf "unable to determine if table %q has key prefix %q: %w"
                        [ArgByte TblPrefixLast; ArgStr keyPrefix] e))
  | None => Some (a', None)
  end.

(** What the properties say of a read that answers [(t, err)]: it does
    answer when the backend's keys are well formed, and [err] is never the
    sentinel. *)
Definition answers {T} (s : KVStore B) (ok : option error → Prop)
  (r : option (T * option error)) : Prop :=
  (wellKeyed s → is_Some r) ∧
  (∀ t err, r = Some (t, err) → err ≠ Some BreakScan ∧ ok err).

End Reads.

End KV.

(** ** An in-memory ordered backend

    The reference implementation of the backend contract used to run the
    store: keys are kept in ascending [bytes.Compare] order, [Put] stages a
    write and [FlushPuts] commits the staged writes in the order they were
    made. Values are stored as given, an absent value becoming the empty
    one (empty values are supported and distinct from absence). *)

Module MemKV.

Fixpoint bytesCompare (a b : bytes) : comparison :=
  match a, b with
  | [], [] => Eq
  | [], _ :: _ => Lt
  | _ :: _, [] => Gt
  | x :: a', y :: b' =>
      match byteVal x ?= byteVal y with
      | Eq => bytesCompare a' b'
      | c => c
      end
  end.

Definition bytesLe (a b : bytes) : bool :=
  match bytesCompare a b with Gt => false | _ => true end.
Definition bytesLt (a b : bytes) : bool :=
  match bytesCompare a b with Lt => true | _ => false end.

Fixpoint hasPrefix (p k : bytes) : bool :=
  match p, k with
  | [], _ => true
  | _ :: _, [] => false
  | x :: p', y :: k' => if decide (x = y) then hasPrefix p' k' else false
  end.

Record state := mkState {
  committed : list (bytes * bytes);
  staged : list (bytes * bytes) }.

Definition empty : state := {| committed := []; staged := [] |}.

Fixpoint insert (k v : bytes) (l : list (bytes * bytes)) : list (bytes * bytes) :=
  match l with
  | [] => [(k, v)]
  | (k', v') :: rest =>
      match bytesCompare k k' with
      | Lt => (k, v) :: l
      | Eq => (k, v) :: rest
      | Gt => (k', v') :: insert k v rest
      end
  end.

Fixpoint find (k : bytes) (l : list (bytes * bytes)) : option bytes :=
  match l with
  | [] => None
  | (k', v') :: rest =>
      match bytesCompare k k' with
      | Eq => Some v'
      | _ => find k rest
      end
  end.

Definition limited {A} (limit : Z) (l : list A) : list A :=
  if decide (limit ≤ 0) then l else take (Z.to_nat limit) l.

Definition toItem (kv : bytes * bytes) : KV.KVItem :=
  {| KV.Key := kv.1; KV.Value := Some kv.2 |}.

Definition get (s : state) (k : bytes) : value * option error :=
  match find k (committed s) with
  | Some v => (Some v, None)
  | None => (None, Some KvErrNotFound)
  end.

Definition put (s : state) (k : bytes) (v : value) : state * option error :=
  ({| committed := committed s; staged := staged s ++ [(k, default [] v)] |}, None).

Definition flushPuts (s : state) : state * option error :=
  ({| committed := foldl (λ l kv, insert kv.1 kv.2 l) (committed s) (staged s);
      staged := [] |}, None).

Definition batchGet (s : state) (keys : list bytes) : KV.Iterator :=
  {| KV.itItems := (λ k, {| KV.Key := k; KV.Value := find k (committed s) |}) <$> keys;
     KV.itErr := None |}.

Definition scan (s : state) (start exclusiveEnd : bytes) (limit : Z) : KV.Iterator :=
  {| KV.itItems :=
       toItem <$> limited limit
         (filter (λ kv, bytesLe start kv.1 && bytesLt kv.1 exclusiveEnd = true)
                 (committed s));
     KV.itErr := None |}.

Definition prefix (s : state) (p : bytes) (limit : Z) : KV.Iterator :=
  {| KV.itItems :=
       toItem <$> limited limit
         (filter (λ kv, hasPrefix p kv.1 = true) (committed s));
     KV.itErr := None |}.

Definition backend : KV.Backend :=
  {| KV.dbState := state;
     KV.dbGet := get;
     KV.dbPut := put;
     KV.dbFlushPuts := flushPuts;
     KV.dbBatchGet := batchGet;
     KV.dbScan := scan;
     KV.dbPrefix := prefix |}.

Definition newStore : KV.KVStore backend := KV.mkStore (empty : KV.dbState backend) [].

(** The pairs a [Flush] of the batch stages, in the order of its puts. *)
Definition stagedBy (order : KV.RangeOrder) (b : KV.batch) : list (bytes * bytes) :=
  concat ((λ tbl, (λ kv, (KV.packKey tbl kv.1, default [] kv.2))
                    <$> KV.rangeOf order tbl (KV.mutsOf b tbl)) <$> KV.tableNames).

(** The committed pairs are in strictly ascending key order. *)
Definition ordered (l : list (bytes * bytes)) : Prop :=
  StronglySorted (λ kv1 kv2, bytesCompare kv1.1 kv2.1 = Lt) l.

End MemKV.

(** ** Standard library functions used by the injector *)

Module Go.

(** [strings.Split(s, sep)] for a one-byte separator: the substrings
    between the occurrences of [sep], one more than there are occurrences. *)
Fixpoint Split (s : string) (sep : byte) : list string :=
  match s with
  | EmptyString => [EmptyString]
  | String c rest =>
      if decide (c = sep) then EmptyString :: Split rest sep
      else
        match Split rest sep with
        | h :: t => String c h :: t
        | [] => [String c EmptyString]
        end
  end.

(** [lower(c)] of package strconv: [c | ('x' - 'X')]. *)
Definition lower (c : Z) : Z := Z.lor c 32.

(** The digit value [ParseUint] gives a byte, before the comparison with
    the base; [None] is the [default] branch of its [switch]. *)
Definition digitVal (c : byte) : option Z :=
  let n := byteVal c in
  if decide (48 ≤ n ∧ n ≤ 57) then Some (n - 48)
  else if decide (97 ≤ lower n ∧ lower n ≤ 122) then Some (lower n - 97 + 10)
  else None.

Definition syntaxError (fn s : string) : error := NumError fn s ErrSyntax.
Definition rangeError (fn s : string) : error := NumError fn s ErrRange.

(** The digit loop of [strconv.ParseUint]. *)
Fixpoint parseUintLoop (s0 : string) (base cutoff maxVal : Z) (cs : list byte) (n : Z)
  : Z * option error :=
  match cs with
  | [] => (n, None)
  | c :: rest =>
      match digitVal c with
      | None => (0, Some (syntaxError "ParseUint" s0))
      | Some d =>
          if decide (base ≤ d) then (0, Some (syntaxError "ParseUint" s0))
          else if decide (cutoff ≤ n) then (maxVal, Some (rangeError "ParseUint" s0))
          else
            let n' := wrap64 (n * base) in
            let n1 := wrap64 (n' + d) in
            if decide (n1 < n' ∨ n1 > maxVal)
            then (maxVal, Some (rangeError "ParseUint" s0))
            else parseUintLoop s0 base cutoff maxVal rest n1
      end
  end.

(** [strconv.ParseUint(s, base, bitSize)] for an explicit base in 2..36 and
    a bit size in 1..64, which is how this package calls it; the literal
    syntax of base 0 (prefixes and underscores) is not reached. *)
Definition ParseUint (s : string) (base bitSize : Z) : Z * option error :=
  if decide (s = EmptyString) then (0, Some (syntaxError "ParseUint" s))
  else
    let cutoff := maxUint64 / base + 1 in
    let maxVal := wrap64 (Z.shiftl 1 bitSize - 1) in
    parseUintLoop s base cutoff maxVal (bytesOf s) 0.

(** *** Notions the properties of the parser are stated with *)

Definition isDigit (c : byte) : bool := bool_decide (48 ≤ byteVal c ∧ byteVal c ≤ 57).

(** The number a string of decimal digits denotes, read after [acc]. *)
Fixpoint decimalFrom (acc : Z) (cs : list byte) : option Z :=
  match cs with
  | [] => Some acc
  | c :: rest =>
      if isDigit c then decimalFrom (acc * 10 + (byteVal c - 48)) rest else None
  end.

(** A non-negative decimal number: one digit or more, nothing else. *)
Definition decimal (s : string) : option Z :=
  if decide (s = EmptyString) then None else decimalFrom 0 (bytesOf s).

(** The separator does not occur in the string. *)
Fixpoint noSep (sep : byte) (s : string) : Prop :=
  match s with
  | EmptyString => True
  | String c rest => c ≠ sep ∧ noSep sep rest
  end.

End Go.

(** ** Shard injector (package fluxdb) *)

Module FluxDB.

(** [bstream.BlockRef]: a block id and the number it carries. *)
Record BlockRef := { ID : string; Num : Z }.

(** Modelled from the spec: the record types [SingletEntry], [TabletRow] and
    [WriteRequest] are declared elsewhere in the package; section 3 of the
    specification gives their fields. *)
Record SingletEntry := {
  singletKey : string;
  entryHeight : Z;
  entryPayload : bytes;
  entryIsDeletion : bool }.

Record TabletRow := {
  tabletKey : string;
  rowKey : string;
  rowHeight : Z;
  rowPayload : bytes;
  rowIsDeletion : bool }.

Record WriteRequest := {
  Height : Z;
  BlockRef_ : BlockRef;
  SingletEntries : list SingletEntry;
  TabletRows : list TabletRow }.

Definition parseFileName (filename : string) : Z * Z * option error :=
  let vals := Go.Split filename "-"%char in
  if decide (length vals ≠ 2%nat)
  then (0, 0, Some (Errorf "cannot parse filename: %s" [ArgStr filename]))
  else
    match Go.ParseUint (nth 0 vals EmptyString) 10 32 with
    | (_, Some err) => (0, 0, Some err)
    | (first64, None) =>
        match Go.ParseUint (nth 1 vals EmptyString) 10 32 with
        | (_, Some err) => (0, 0, Some err)
        | (last64, None) => (wrap64 first64, wrap64 last64, None)
        end
    end.

(** What a [gob.Decoder] reads from an opened object: the records it
    decodes, then the error of the first [Decode] that fails ([io.EOF] at a
    clean end of stream). *)
Record gobStream := { records : list WriteRequest; ending : error }.

(** The loop of [readWriteRequestsForBatch], [requests] being the slice
    built so far. *)
Fixpoint readLoop (recs : list WriteRequest) (ending : error) (startAfter : Z)
  (requests : list WriteRequest) : list WriteRequest * option error :=
  match recs with
  | [] =>
      if isEOF ending then (requests, None)
      else ([], Some (Wrapf "unable to read WriteRequest: %w" [] ending))
  | req :: rest =>
      if decide (Height req ≤ startAfter) then readLoop rest ending startAfter requests
      else readLoop rest ending startAfter (requests ++ [req])
  end.

Definition readWriteRequestsForBatch (reader : gobStream) (startAfter : Z)
  : list WriteRequest * option error :=
  readLoop (records reader) (ending reader) startAfter [].

(** The object store holding one shard's staged objects ([dstore.Store]):
    [Walk] visits [objNames] in order and stops at the first error of its
    callback, reporting [objWalkErr] if the listing itself fails at the end. *)
Record ObjectStore := {
  objNames : list string;
  objWalkErr : option error;
  OpenObject : string → gobStream + error }.

(** The methods of [*FluxDB] the injector calls; they are defined elsewhere
    in the package and are taken as parameters over the database
    state [D]. *)
Record FluxDBOps (D : Type) := {
  FetchLastWrittenBlock : D → BlockRef * option error;
  WriteBatch : D → list WriteRequest → D * option error }.
Arguments FetchLastWrittenBlock {D} _ _.
Arguments WriteBatch {D} _ _ _.

(** What the injector has done so far: the database, the objects it has
    opened and the batches it has written, oldest first, and the variable
    [startAfterNum] captured by the [Walk] callback. *)
Record injector (D : Type) := mkInjector {
  fdb : D;
  opened : list string;
  written : list (list WriteRequest);
  startAfterNum : Z }.
Arguments mkInjector {D} _ _ _ _.
Arguments fdb {D} _.
Arguments opened {D} _.
Arguments written {D} _.
Arguments startAfterNum {D} _.

(** The error [Run] reports for a hole in the block range files. *)
Definition gapError (startAfter : BlockRef) (filename : string) (fileFirst : Z) : error :=
  Errorf
    "file %s starts at block %d, we were expecting to start right after %d, there is a hole in your block range files"
    [ArgStr filename; ArgNum fileFirst; ArgStr (ID startAfter)].

Section Injector.
Context {D : Type}.
Variable ops : FluxDBOps D.
Variable shardsStore : ObjectStore.

(** The callback [Run] hands to [Walk]; [startAfter] is the block fetched
    at the start of the run. *)
Definition onShardFile (startAfter : BlockRef) (st : injector D) (filename : string)
  : injector D * option error :=
  match parseFileName filename with
  | (_, _, Some err) => (st, Some err)
  | (fileFirst, fileLast, None) =>
      if decide (fileFirst > wrap64 (startAfterNum st + 1))
      then (st, Some (gapError startAfter filename fileFirst))
      else if decide (fileLast ≤ startAfterNum st) then (st, None)
      else
        let st1 := mkInjector (fdb st) (opened st ++ [filename]) (written st)
                     (startAfterNum st) in
        match OpenObject shardsStore filename with
        | inr err =>
            (st1, Some (Wrapf "opening object from shards store %q: %w"
                          [ArgStr filename] err))
        | inl reader =>
            match readWriteRequestsForBatch reader (startAfterNum st) with
            | (_, Some err) =>
                (st1, Some (Wrapf "unable to read all write requests in batch %q: %w"
                              [ArgStr filename] err))
            | (requests, None) =>
                let st2 := λ d, mkInjector d (opened st1) (written st1 ++ [requests]) in
                match WriteBatch ops (fdb st) requests with
                | (d, Some err) =>
                    (st2 d (startAfterNum st),
                     Some (Wrapf "write batch %q: %w" [ArgStr filename] err))
                | (d, None) => (st2 d fileLast, None)
                end
            end
        end
  end.

(** [dstore.Store.Walk] over the names still to visit. *)
Fixpoint walkNames (f : injector D → string → injector D * option error)
  (names : list string) (st : injector D) : injector D * option error :=
  match names with
  | [] => (st, objWalkErr shardsStore)
  | name :: rest =>
      match f st name with
      | (st', Some err) => (st', Some err)
      | (st', None) => walkNames f rest st'
      end
  end.

(** What [Run] keeps true of the injector from the watermark [w0] it
    starts at. *)
Definition aboveWatermark (w0 : Z) (st : injector D) : Prop :=
  w0 ≤ startAfterNum st ∧
  Forall (Forall (λ r, w0 < Height r)) (written st).

(** The names are visited without an error: the state reached. *)
Fixpoint visitNames (f : injector D → string → injector D * option error)
  (names : list string) (st : injector D) : option (injector D) :=
  match names with
  | [] => Some st
  | name :: rest =>
      match f st name with
      | (_, Some _) => None
      | (st', None) => visitNames f rest st'
      end
  end.

Definition Walk (f : injector D → string → injector D * option error)
  (st : injector D) : injector D * option error :=
  walkNames f (objNames shardsStore) st.

Definition Run (d : D) : injector D * option error :=
  match FetchLastWrittenBlock ops d with
  | (_, Some err) => (mkInjector d [] [] 0, Some err)
  | (startAfter, None) =>
      let st := mkInjector d [] [] (wrap64 (Num startAfter)) in
      match Walk (onShardFile startAfter) st with
      | (st', Some err) => (st', Some (Wrapf "walking shards store: %w" [] err))
      | (st', None) => (st', None)
      end
  end.

End Injector.

End FluxDB.

(** ** Temporal store: the singlet read path

    Modelled from the spec: [ReadSingletEntryAt], the writing of a singlet
    entry by [WriteBatch], the encoding of an entity key and a height into a
    physical key and the stored form of an entry are defined elsewhere in
    the package. Sections 3, 4.1, 4.2 and 4.3 of the specification give
    them: an entry is written as one [ROWS] mutation of a batch that is
    then flushed; a [ROWS] key holds the entity key and the
    height, the height in a fixed-width encoding of [MAX_HEIGHT - height],
    so that a forward scan from the encoded query height meets the versions
    of the entity most recent first; the read takes the first hit of that
    scan (through [FetchSingletEntry]) as the persisted candidate, lets the
    most recent speculative entry at or below the query height win over it,
    and answers absent when the winner is a tombstone.

    The specification fixes neither how the entity key is set apart from
    the height nor how a tombstone is told from a live entry in the stored
    value. The forms taken here lose nothing, whatever the entity key and
    the payload: the entity key is written in hexadecimal, followed by a
    separator that is no hexadecimal digit, and the stored value is the
    payload behind one byte that tells a tombstone from a live entry. *)

Module Temporal.
Import FluxDB.

Definition MAX_HEIGHT : Z := maxUint64.

Definition hexDigit (d : Z) : byte :=
  if decide (d < 10) then byteOf (48 + d) else byteOf (87 + d).

Definition hexVal (c : byte) : Z :=
  if decide (byteVal c ≤ 57) then byteVal c - 48 else byteVal c - 87.

(** [width] hexadecimal digits of [n], most significant first. *)
Fixpoint fixedHex (width : nat) (n : Z) : bytes :=
  match width with
  | O => []
  | S w => hexDigit (n / 16 ^ Z.of_nat w) :: fixedHex w (n mod 16 ^ Z.of_nat w)
  end.

Definition parseHex (b : bytes) : Z := foldl (λ acc c, acc * 16 + hexVal c) 0 b.

Definition heightWidth : nat := 16.

Definition HexRevHeight (height : Z) : bytes := fixedHex heightWidth (MAX_HEIGHT - height).

(** The bytes of an entity key in hexadecimal, two digits each. *)
Fixpoint hexOfBytes (b : bytes) : bytes :=
  match b with
  | [] => []
  | c :: rest =>
      hexDigit (byteVal c / 16) :: hexDigit (byteVal c mod 16) :: hexOfBytes rest
  end.

Definition hexKey (singlet : string) : string := stringOf (hexOfBytes (bytesOf singlet)).

(** The entity key, a separator, the reversed height. *)
Definition KeyAt (singlet : string) (height : Z) : string :=
  hexKey singlet +:+ "/" +:+ stringOf (HexRevHeight height).

(** The first key past every version of the singlet: the separator's
    successor follows the entity key. *)
Definition KeyEnd (singlet : string) : string := hexKey singlet +:+ "0".

(** The height a physical key carries in its last [heightWidth] bytes. *)
Definition heightOfKey (key : string) : Z :=
  let b := bytesOf key in
  MAX_HEIGHT - parseHex (drop (length b - heightWidth) b).

Definition liveMark : byte := "0"%char.
Definition tombstoneMark : byte := "1"%char.

Definition entryValue (e : SingletEntry) : bytes :=
  (if entryIsDeletion e then tombstoneMark else liveMark) :: entryPayload e.

Definition entryOfRow (singlet key : string) (v : value) : SingletEntry :=
  {| singletKey := singlet;
     entryHeight := heightOfKey key;
     entryPayload := tail (default [] v);
     entryIsDeletion := bool_decide (head (default [] v) = Some tombstoneMark) |}.

(** The most recent speculative entry of the singlet at or below [height];
    the list is in reverse chronological order. *)
Fixpoint speculativeEntry (singlet : string) (height : Z)
  (speculativeWrites : list WriteRequest) : option SingletEntry :=
  match speculativeWrites with
  | [] => None
  | w :: rest =>
      if decide (Height w ≤ height) then
        match List.find (λ e, bool_decide (singletKey e = singlet)) (SingletEntries w) with
        | Some e => Some e
        | None => speculativeEntry singlet height rest
        end
      else speculativeEntry singlet height rest
  end.

Section Read.
Context {B : KV.Backend}.

Definition ReadSingletEntryAt (s : KV.KVStore B) (singlet : string) (height : Z)
  (speculativeWrites : list WriteRequest)
  : option (option SingletEntry * option error) :=
  '(key, v, err) ← KV.FetchSingletEntry s (KeyAt singlet height) (KeyEnd singlet);
  match err with
  | Some e => Some (None, Some e)
  | None =>
      let persisted :=
        if decide (key = EmptyString) then None else Some (entryOfRow singlet key v) in
      let winner :=
        match speculativeEntry singlet height speculativeWrites with
        | Some e => Some e
        | None => persisted
        end in
      match winner with
      | Some e => if entryIsDeletion e then Some (None, None) else Some (Some e, None)
      | None => Some (None, None)
      end
  end.

End Read.

(** Modelled from the spec: writing one version of a singlet, as
    [WriteBatch] does for a request that holds one entry: the row is set in
    a new batch, which is flushed. *)
Definition writeEntry (order : KV.RangeOrder) {B : KV.Backend} (s : KV.KVStore B)
  (e : SingletEntry) : option (KV.KVStore B * option error) :=
  b ← KV.SetRow KV.newBatch (KeyAt (singletKey e) (entryHeight e)) (Some (entryValue e));
  let '(_, s', err) := KV.Flush order b s in
  Some (s', err).

Fixpoint writeEntries (order : KV.RangeOrder) {B : KV.Backend} (s : KV.KVStore B)
  (es : list SingletEntry) : option (KV.KVStore B * option error) :=
  match es with
  | [] => Some (s, None)
  | e :: rest =>
      '(s', err) ← writeEntry order s e;
      match err with
      | Some _ => Some (s', err)
      | None => writeEntries order s' rest
      end
  end.

(** *** Notions the properties of the read are stated with *)

(** The physical key and the stored value of a version. *)
Definition keyOf (e : SingletEntry) : bytes :=
  KV.packKey KV.TblPrefixRows (KeyAt (singletKey e) (entryHeight e)).

Definition rowOf (e : SingletEntry) : bytes * bytes := (keyOf e, entryValue e).

(** What a read answers for a version: absent for a tombstone. *)
Definition visible (e : SingletEntry) : option SingletEntry :=
  if entryIsDeletion e then None else Some e.

(** The versions of one singlet among the entries written, oldest first:
    all the entries of that singlet, at strictly increasing heights. *)
Definition versionsOf (singlet : string) (written versions : list SingletEntry) : Prop :=
  filter (λ e, singletKey e = singlet) written ≡ₚ versions ∧
  StronglySorted (λ e1 e2, entryHeight e1 < entryHeight e2) versions.

(** Entries of one singlet, at strictly increasing heights within
    [uint64]. *)
Definition ascending (singlet : string) (versions : list SingletEntry) : Prop :=
  Forall (λ e, singletKey e = singlet ∧ 0 ≤ entryHeight e < 2 ^ 64) versions ∧
  StronglySorted (λ e1 e2, entryHeight e1 < entryHeight e2) versions.

(** The rows a scan for [singlet] at [h] selects. *)
Definition inScan (singlet : string) (h : Z) (kv : bytes * bytes) : Prop :=
  MemKV.bytesLe (KV.packKey KV.TblPrefixRows (KeyAt singlet h)) kv.1
  && MemKV.bytesLt kv.1 (KV.packKey KV.TblPrefixRows (KeyEnd singlet)) = true.

#[global] Instance inScan_dec singlet h kv : Decision (inScan singlet h kv).
Proof. unfold inScan. apply _. Defined.

(** The rows the store holds for the singlet are exactly its versions. *)
Definition holdsVersions (d : MemKV.state) (singlet : string)
  (versions : list SingletEntry) : Prop :=
  MemKV.ordered (MemKV.committed d) ∧
  Forall (λ e, rowOf e ∈ MemKV.committed d) versions ∧
  Forall (λ kv, kv ∈ rowOf <$> versions)
    (filter (λ kv, MemKV.hasPrefix
                     (KV.packKey KV.TblPrefixRows (hexKey singlet +:+ "/")) kv.1 = true)
       (MemKV.committed d)).

End Temporal.

(** ** Sample inputs *)

Module Sample.
Import KV.

(** Two rows, one index snapshot and the watermark, one row written twice. *)
Definition writes : list (byte * string * value) :=
  [(TblPrefixLast, "last", Some (bytesOf "00000005aa"));
   (TblPrefixRows, "r1", Some (bytesOf "x"));
   (TblPrefixIndex, "i1", Some (bytesOf "snapshot"));
   (TblPrefixRows, "r2", Some (bytesOf "z"));
   (TblPrefixRows, "r1", Some (bytesOf "y"))]%string.

Definition someBatch : batch := default newBatch (setAll writes newBatch).

(** A batch whose rows and index buckets hold the same two entries. *)
Definition twinBatch : batch :=
  default newBatch
    (setAll [(TblPrefixRows, "a", Some (bytesOf "1"));
             (TblPrefixRows, "b", Some (bytesOf "2"));
             (TblPrefixIndex, "a", Some (bytesOf "1"));
             (TblPrefixIndex, "b", Some (bytesOf "2"))]%string newBatch).

(** The store after that batch is flushed. *)
Definition flushedStore : KVStore MemKV.backend :=
  (Flush mapOrder someBatch MemKV.newStore).1.2.

(** A callback that counts its calls and stops at the first row. *)
Definition stopAtFirst : OnRow nat := λ n _ _, (S n, Some BreakScan).

(** A callback that counts its calls and never stops. *)
Definition countRows : OnRow nat := λ n _ _, (S n, None).

(** A store whose only row has an empty value. *)
Definition emptyValueStore : KVStore MemKV.backend :=
  (Flush mapOrder (default newBatch (SetRow newBatch "a" (Some []))) MemKV.newStore).1.2.

(** A backend that accepts a given number of puts and then fails, and
    whose iterators deliver one row and then fail. *)
Definition lostRow : KVItem :=
  {| Key := packKey TblPrefixRows "r1"; Value := Some (bytesOf "y") |}.

Definition flaky : Backend :=
  {| dbState := nat;
     dbGet := λ _ _, (None, Some (External "connection lost"));
     dbPut := λ n _ _,
       match n with
       | O => (O, Some (External "disk full"))
       | S m => (m, None)
       end;
     dbFlushPuts := λ n, (n, None);
     dbBatchGet := λ _ _,
       {| itItems := [lostRow]; itErr := Some (External "connection lost") |};
     dbScan := λ _ _ _ _,
       {| itItems := [lostRow]; itErr := Some (External "connection lost") |};
     dbPrefix := λ _ _ _,
       {| itItems := []; itErr := Some (External "connection lost") |} |}.

(** The flaky backend with room for two puts. *)
Definition flakyStore : KVStore flaky := mkStore (2%nat : dbState flaky) [].

(** A callback that counts its calls and fails on every row. *)
Definition failRows : OnRow nat := λ n _ _, (S n, Some (External "bad row")).

(** The same row written 101 times. *)
Definition overwritten : batch :=
  default newBatch
    (setAll (replicate 101 (TblPrefixRows, "k"%string, Some (bytesOf "v"))) newBatch).

(** The singlet of the read tests, written at heights 3 and 5. *)
Definition version (h : Z) (payload : string) : FluxDB.SingletEntry :=
  {| FluxDB.singletKey := "test";
     FluxDB.entryHeight := h;
     FluxDB.entryPayload := bytesOf payload;
     FluxDB.entryIsDeletion := false |}.

(** A deletion of that singlet, and an entry of a singlet whose key
    continues its key. *)
Definition tombstone (h : Z) : FluxDB.SingletEntry :=
  {| FluxDB.singletKey := "test";
     FluxDB.entryHeight := h;
     FluxDB.entryPayload := [];
     FluxDB.entryIsDeletion := true |}.

Definition neighbour (h : Z) (payload : string) : FluxDB.SingletEntry :=
  {| FluxDB.singletKey := "test/z";
     FluxDB.entryHeight := h;
     FluxDB.entryPayload := bytesOf payload;
     FluxDB.entryIsDeletion := false |}.

(** The entries written, and those of the singlet: written at 3 and 5,
    deleted at 7, written with an empty payload at 9. *)
Definition history : list FluxDB.SingletEntry :=
  [version 3 "3"; neighbour 4 "zz"; version 5 "5"; tombstone 7; neighbour 8 "";
   version 9 ""].

Definition versions : list FluxDB.SingletEntry :=
  [version 3 "3"; version 5 "5"; tombstone 7; version 9 ""].

Definition singletStore : KVStore MemKV.backend :=
  (default (MemKV.newStore, None)
     (Temporal.writeEntries mapOrder MemKV.newStore history)).1.

(** A database that keeps the requests written to it, last written block 5. *)
Definition request (h : Z) : FluxDB.WriteRequest :=
  {| FluxDB.Height := h;
     FluxDB.BlockRef_ := {| FluxDB.ID := ""; FluxDB.Num := h |};
     FluxDB.SingletEntries := [];
     FluxDB.TabletRows := [] |}.

Definition block5 : FluxDB.BlockRef := {| FluxDB.ID := "00000005aa"; FluxDB.Num := 5 |}.

Definition listOps : FluxDB.FluxDBOps (list FluxDB.WriteRequest) :=
  {| FluxDB.FetchLastWrittenBlock := λ _, (block5, None);
     FluxDB.WriteBatch := λ d requests, (d ++ requests, None) |}.

(** Staged objects [1-3] and [4-9], each holding one request per block. *)
Definition contiguous : FluxDB.ObjectStore :=
  {| FluxDB.objNames := ["1-3"; "4-9"]%string;
     FluxDB.objWalkErr := None;
     FluxDB.OpenObject := λ name,
       if String.eqb name "1-3" then
         inl {| FluxDB.records := request <$> [1; 2; 3]; FluxDB.ending := EOF |}
       else if String.eqb name "4-9" then
         inl {| FluxDB.records := request <$> [4; 5; 6; 7; 8; 9]; FluxDB.ending := EOF |}
       else inr (External "no such object") |}.

(** Staged objects [1-3] and [7-9]: blocks 4 to 6 are missing. *)
Definition holed : FluxDB.ObjectStore :=
  {| FluxDB.objNames := ["1-3"; "7-9"]%string;
     FluxDB.objWalkErr := None;
     FluxDB.OpenObject := λ name,
       if String.eqb name "1-3" then
         inl {| FluxDB.records := request <$> [1; 2; 3]; FluxDB.ending := EOF |}
       else if String.eqb name "7-9" then
         inl {| FluxDB.records := request <$> [7; 8; 9]; FluxDB.ending := EOF |}
       else inr (External "no such object") |}.

(** A staged object whose last block does not fit 32 bits. *)
Definition oversized : FluxDB.ObjectStore :=
  {| FluxDB.objNames := ["6-4294967296"]%string;
     FluxDB.objWalkErr := None;
     FluxDB.OpenObject := λ _,
       inl {| FluxDB.records := [request 6]; FluxDB.ending := EOF |} |}.

(** Staged objects [1-3] and [4-5], both applied already at watermark 5. *)
Definition applied : FluxDB.ObjectStore :=
  {| FluxDB.objNames := ["1-3"; "4-5"]%string;
     FluxDB.objWalkErr := None;
     FluxDB.OpenObject := λ _, inr (External "no such object") |}.

(** A staged object [6-9] that is cut short after two requests. *)
Definition truncated : FluxDB.ObjectStore :=
  {| FluxDB.objNames := ["6-9"]%string;
     FluxDB.objWalkErr := None;
     FluxDB.OpenObject := λ _,
       inl {| FluxDB.records := request <$> [6; 7];
              FluxDB.ending := External "unexpected EOF" |} |}.

(** The injector at the last [uint64] watermark. *)
Definition atLastBlock : FluxDB.injector (list FluxDB.WriteRequest) :=
  FluxDB.mkInjector [] [] [] maxUint64.

(** The injector at watermark 5, nothing opened or written yet. *)
Definition atBlock5 : FluxDB.injector (list FluxDB.WriteRequest) :=
  FluxDB.mkInjector [] [] [] 5.

End Sample.

(** * Properties *)

(** ** Go values *)

Lemma stringOf_bytesOf (s : string) : stringOf (bytesOf s) = s.
Proof. apply String.string_of_list_ascii_of_string. Qed.

Lemma bytesOf_stringOf (b : bytes) : bytesOf (stringOf b) = b.
Proof. apply String.list_ascii_of_string_of_list_ascii. Qed.

Lemma bytesOf_inj (s1 s2 : string) : bytesOf s1 = bytesOf s2 → s1 = s2.
Proof.
  intros H. rewrite <- (stringOf_bytesOf s1), <- (stringOf_bytesOf s2). by rewrite H.
Qed.

Lemma bytesOf_app (s1 s2 : string) : bytesOf (s1 +:+ s2) = bytesOf s1 ++ bytesOf s2.
Proof. induction s1 as [|c s1 IH]; simpl; [done | by rewrite IH]. Qed.

Lemma byteVal_range (b : byte) : 0 ≤ byteVal b < 256.
Proof.
  unfold byteVal. pose proof (N_ascii_bounded b) as H.
  split; [apply N2Z.is_nonneg | lia].
Qed.

Lemma byteVal_byteOf (z : Z) : 0 ≤ z < 256 → byteVal (byteOf z) = z.
Proof.
  intros Hz. unfold byteVal, byteOf.
  rewrite N_ascii_embedding; rewrite Z.mod_small by lia; lia.
Qed.

Lemma byteVal_inj (a b : byte) : byteVal a = byteVal b → a = b.
Proof.
  unfold byteVal. intros H. apply N2Z.inj in H.
  rewrite <- (ascii_N_embedding a), <- (ascii_N_embedding b). by rewrite H.
Qed.

Lemma string_cons_neq (c : byte) (s : string) : String c s ≠ s.
Proof.
  intros H. apply (f_equal String.length) in H. simpl in H. lia.
Qed.

Lemma wrapInt_small (z : Z) : - 2 ^ 63 ≤ z < 2 ^ 63 → wrapInt z = z.
Proof. intros Hz. unfold wrapInt. rewrite Z.mod_small; lia. Qed.

Lemma wrap64_small (z : Z) : 0 ≤ z < 2 ^ 64 → wrap64 z = z.
Proof. intros Hz. unfold wrap64. by rewrite Z.mod_small. Qed.

Lemma wrap64_range (z : Z) : 0 ≤ wrap64 z < 2 ^ 64.
Proof. unfold wrap64. apply Z.mod_pos_bound. lia. Qed.

Lemma wrapsError_not_BreakScan (e : error) : wrapsError e → e ≠ BreakScan.
Proof. intros (f & a & i & ->). discriminate. Qed.

(** ** Key codec *)

Section KeyCodec.
Import KV.

(** C1 (what the code does): decoding an encoded key gives back the table
    prefix, but the key it returns is the whole physical key, table byte
    included, and never the entity key that was encoded: [unpackKey]
    converts [key] where the entity key is [key[1:]]. *)
Theorem unpackKey_packKey_keeps_table_byte (t : byte) (k : string) :
  unpackKey (packKey t k) = Some (t, String t k) ∧
  unpackKey (packKey t k) ≠ Some (t, k).
Proof.
  assert (unpackKey (packKey t k) = Some (t, String t k)) as E.
  { unfold unpackKey, packKey. simpl. by rewrite stringOf_bytesOf. }
  split; [done |]. rewrite E. intros [= H]. by apply string_cons_neq in H.
Qed.

Example unpackKey_packKey_rows_a :
  unpackKey (packKey TblPrefixRows "a") = Some (TblPrefixRows, String TblPrefixRows "a").
Proof. reflexivity. Qed.

(** What follows for [FetchIndex]: the key it tests with [strings.HasPrefix]
    starts with the table byte, so a stored index row is not found under
    its own prefix. *)
Example FetchIndex_misses_stored_index :
  FetchTabletRow Sample.flushedStore "r1" = (Some (bytesOf "y"), None) ∧
  fetchKey Sample.flushedStore TblPrefixIndex "i1" = (Some (bytesOf "snapshot"), None) ∧
  FetchIndex Sample.flushedStore "" "i" "i" = Some (""%string, None, Some ErrNotFound).
Proof. repeat split; vm_compute; reflexivity. Qed.

End KeyCodec.

(** ** Mutation batch *)

Section BatchProperties.
Import KV.

Lemma rangeOf_empty (order : RangeOrder) (t : byte) : rangeOf order t ∅ = [].
Proof.
  apply Permutation_nil_r. rewrite (rangeOf_perm order t ∅). by rewrite map_to_list_empty.
Qed.

Lemma setTable_count (b b' : batch) t k v :
  setTable b t k v = Some b' → count b' = wrapInt (count b + 1).
Proof.
  unfold setTable. destruct (tableMutations b !! t); simpl; [|done].
  by intros [= <-].
Qed.

Lemma setAll_count (ws : list (byte * string * value)) (b b' : batch) :
  setAll ws b = Some b' →
  0 ≤ count b →
  count b + Z.of_nat (length ws) < 2 ^ 63 →
  count b' = count b + Z.of_nat (length ws).
Proof.
  revert b. induction ws as [|[[t k] v] ws IH]; intros b H H0 Hlt; simpl in *.
  - injection H as <-. lia.
  - destruct (setTable b t k v) as [b1|] eqn:E; simpl in H; [|done].
    apply setTable_count in E. rewrite wrapInt_small in E by lia.
    rewrite (IH b1 H) by lia. lia.
Qed.

Section WithBackend.
Context {B : Backend}.
Variable order : RangeOrder.

Lemma putMutations_calls tblName kvs (s s' : KVStore B) :
  putMutations tblName kvs s = (s', None) →
  calls s' = calls s ++ ((λ kv, CallPut (packKey tblName kv.1) kv.2) <$> kvs).
Proof.
  revert s. induction kvs as [|[k v] kvs IH]; intros s H; simpl in *.
  - injection H as <-. by rewrite app_nil_r.
  - unfold Put in H. destruct (dbPut B (db s) (packKey tblName k) v) as [d [e|]]; [done|].
    apply IH in H. simpl in H. rewrite H. by rewrite <- app_assoc.
Qed.

Lemma flushTables_calls (b : batch) tbls (s s' : KVStore B) :
  flushTables order b tbls s = (s', None) →
  calls s' = calls s ++ concat (putsOf order b <$> tbls).
Proof.
  revert s. induction tbls as [|t tbls IH]; intros s H; simpl in *.
  - injection H as <-. by rewrite app_nil_r.
  - destruct (decide (Z.of_nat (size (mutsOf b t)) ≤ 0)) as [Hz|Hz].
    + assert (mutsOf b t = ∅) as E by (apply map_size_empty_inv; lia).
      apply IH in H. rewrite H. unfold putsOf at 2. rewrite E, rangeOf_empty. done.
    + destruct (putMutations t (rangeOf order t (mutsOf b t)) s) as [s1 [e|]] eqn:E; [done|].
      apply putMutations_calls in E. apply IH in H. rewrite H, E.
      by rewrite <- app_assoc.
Qed.

Lemma applyCalls_app (d : dbState B) (cs1 cs2 : list dbCall) :
  applyCalls B d (cs1 ++ cs2) = applyCalls B d cs1 ≫= λ d', applyCalls B d' cs2.
Proof.
  revert d. induction cs1 as [|c cs1 IH]; intros d; simpl; [done|].
  destruct (doCall B d c) as [d' [e|]]; [done | apply IH].
Qed.

Lemma putMutations_db tblName kvs (s s' : KVStore B) :
  putMutations tblName kvs s = (s', None) →
  applyCalls B (db s) ((λ kv, CallPut (packKey tblName kv.1) kv.2) <$> kvs)
    = Some (db s').
Proof.
  revert s. induction kvs as [|[k v] kvs IH]; intros s H; simpl in *.
  - by injection H as <-.
  - unfold Put in H. destruct (dbPut B (db s) (packKey tblName k) v) as [d [e|]]; [done|].
    by apply IH in H.
Qed.

Lemma flushTables_db (b : batch) tbls (s s' : KVStore B) :
  flushTables order b tbls s = (s', None) →
  applyCalls B (db s) (concat (putsOf order b <$> tbls)) = Some (db s').
Proof.
  revert s. induction tbls as [|t tbls IH]; intros s H; simpl in H.
  - by injection H as <-.
  - change (concat (putsOf order b <$> t :: tbls))
      with (putsOf order b t ++ concat (putsOf order b <$> tbls)).
    rewrite applyCalls_app.
    destruct (decide (Z.of_nat (size (mutsOf b t)) ≤ 0)) as [Hz|Hz].
    + assert (mutsOf b t = ∅) as E by (apply map_size_empty_inv; lia).
      change (putsOf order b t)
        with ((λ kv, CallPut (packKey t kv.1) kv.2) <$> rangeOf order t (mutsOf b t)).
      rewrite E, rangeOf_empty. simpl. by apply IH.
    + destruct (putMutations t (rangeOf order t (mutsOf b t)) s) as [s1 [e|]] eqn:E; [done|].
      apply putMutations_db in E.
      change (putsOf order b t)
        with ((λ kv, CallPut (packKey t kv.1) kv.2) <$> rangeOf order t (mutsOf b t)).
      rewrite E. simpl. by apply IH.
Qed.

End WithBackend.

End BatchProperties.

Section BatchTheorems.
Import KV.

(** C4: every successful [Flush] applies to the backend the buffered
    mutations of ROWS, then those of INDEX, then those of LAST (each
    bucket's entries once each, in whatever order Go ranges over the
    bucket), then exactly one [FlushPuts]: these are the calls it makes, in
    this order, each of them succeeds, and the backend it leaves is the one
    these calls make of the backend it found. It leaves the batch reset: the
    three buckets empty and the count zero. *)
Theorem Flush_order_and_reset {B : Backend} (order : RangeOrder)
  (b b' : batch) (s s' : KVStore B) :
  Flush order b s = (b', s', None) →
  calls s' = calls s ++ putsOf order b TblPrefixRows
                     ++ putsOf order b TblPrefixIndex
                     ++ putsOf order b TblPrefixLast
                     ++ [CallFlushPuts]
  ∧ applyCalls B (db s)
      (putsOf order b TblPrefixRows ++ putsOf order b TblPrefixIndex
         ++ putsOf order b TblPrefixLast ++ [CallFlushPuts]) = Some (db s')
  ∧ (∀ t, putsOf order b t ≡ₚ
            (λ kv, CallPut (packKey t kv.1) kv.2) <$> map_to_list (mutsOf b t))
  ∧ b' = Reset b
  ∧ mutsOf b' TblPrefixRows = ∅ ∧ mutsOf b' TblPrefixIndex = ∅
  ∧ mutsOf b' TblPrefixLast = ∅ ∧ count b' = 0.
Proof.
  intros H. unfold Flush in H.
  destruct (flushTables order b tableNames s) as [s1 [e|]] eqn:E; [done|].
  pose proof (flushTables_db order b tableNames s s1 E) as Edb.
  apply flushTables_calls in E. unfold FlushPuts in H.
  destruct (dbFlushPuts B (db s1)) as [d [e|]] eqn:Ecommit; [done|].
  injection H as <- <-. simpl.
  unfold tableNames in E, Edb. simpl in E, Edb. rewrite app_nil_r in E, Edb.
  split; [|split].
  - rewrite E. by rewrite <- !app_assoc.
  - rewrite !app_assoc, applyCalls_app. rewrite <- !app_assoc, Edb. simpl.
    by rewrite Ecommit.
  - split; [|done]. intros t. unfold putsOf. by rewrite rangeOf_perm.
Qed.

Lemma Flush_order_and_reset_witness :
  calls (Flush mapOrder Sample.someBatch MemKV.newStore).1.2 =
    [CallPut (packKey TblPrefixRows "r1") (Some (bytesOf "y"));
     CallPut (packKey TblPrefixRows "r2") (Some (bytesOf "z"));
     CallPut (packKey TblPrefixIndex "i1") (Some (bytesOf "snapshot"));
     CallPut (packKey TblPrefixLast "last") (Some (bytesOf "00000005aa"));
     CallFlushPuts]
  ∧ db (Flush mapOrder Sample.someBatch MemKV.newStore).1.2 =
      MemKV.mkState
        [(packKey TblPrefixRows "r1", bytesOf "y");
         (packKey TblPrefixRows "r2", bytesOf "z");
         (packKey TblPrefixIndex "i1", bytesOf "snapshot");
         (packKey TblPrefixLast "last", bytesOf "00000005aa")] []
  ∧ (Flush mapOrder Sample.someBatch MemKV.newStore).1.1 = newBatch
  ∧ calls (Flush mixedOrder Sample.twinBatch MemKV.newStore).1.2 =
      [CallPut (packKey TblPrefixRows "a") (Some (bytesOf "1"));
       CallPut (packKey TblPrefixRows "b") (Some (bytesOf "2"));
       CallPut (packKey TblPrefixIndex "b") (Some (bytesOf "2"));
       CallPut (packKey TblPrefixIndex "a") (Some (bytesOf "1"));
       CallFlushPuts].
Proof.
  destruct (Flush mapOrder Sample.someBatch MemKV.newStore) as [[b' s'] e] eqn:E.
  assert (e = None) as ->.
  { change e with (b', s', e).2. rewrite <- E. vm_compute. reflexivity. }
  destruct (Flush_order_and_reset mapOrder Sample.someBatch b' MemKV.newStore s' E)
    as (Hcalls & Hdb & _ & Hreset & _).
  destruct (Flush mixedOrder Sample.twinBatch MemKV.newStore) as [[b2 s2] e2] eqn:E2.
  assert (e2 = None) as ->.
  { change e2 with (b2, s2, e2).2. rewrite <- E2. vm_compute. reflexivity. }
  destruct (Flush_order_and_reset mixedOrder Sample.twinBatch b2 MemKV.newStore s2 E2)
    as (Hcalls2 & _).
  simpl. split; [rewrite Hcalls; vm_compute; reflexivity|].
  split; [|split; [exact Hreset | rewrite Hcalls2; vm_compute; reflexivity]].
  assert (applyCalls MemKV.backend (db MemKV.newStore)
            (putsOf mapOrder Sample.someBatch TblPrefixRows
               ++ putsOf mapOrder Sample.someBatch TblPrefixIndex
               ++ putsOf mapOrder Sample.someBatch TblPrefixLast ++ [CallFlushPuts])
          = Some (MemKV.mkState
                    [(packKey TblPrefixRows "r1", bytesOf "y");
                     (packKey TblPrefixRows "r2", bytesOf "z");
                     (packKey TblPrefixIndex "i1", bytesOf "snapshot");
                     (packKey TblPrefixLast "last", bytesOf "00000005aa")] []))
    as Hrun by (vm_compute; reflexivity).
  rewrite Hrun in Hdb. by injection Hdb as <-.
Defined.

(** C7: two writes of the same key to the same table of a batch leave the
    buffer exactly as the second write alone would: the key holds the
    second value and nothing else differs. *)
Theorem setTable_same_key_collapses (b : batch) (t : byte) (k : string)
  (v1 v2 : value) (muts : gmap string value) :
  tableMutations b !! t = Some muts →
  ∃ b1 b12 b2,
    setTable b t k v1 = Some b1 ∧ setTable b1 t k v2 = Some b12 ∧
    setTable b t k v2 = Some b2 ∧
    tableMutations b12 = tableMutations b2 ∧
    mutsOf b12 t !! k = Some v2 ∧
    mutsOf b12 t = <[k := v2]> muts.
Proof.
  intros Hm. unfold setTable. rewrite Hm. simpl.
  eexists _, _, _. split; [reflexivity|]. simpl.
  rewrite lookup_insert_eq. simpl. split; [reflexivity|].
  split; [reflexivity|]. simpl.
  rewrite !insert_insert_eq. split; [done|].
  unfold mutsOf. simpl. rewrite lookup_insert_eq. simpl.
  by rewrite lookup_insert_eq.
Qed.

Lemma setTable_same_key_collapses_witness :
  ∃ b1 b12 b2,
    SetRow newBatch "k" (Some (bytesOf "v1")) = Some b1 ∧
    SetRow b1 "k" (Some (bytesOf "v2")) = Some b12 ∧
    SetRow newBatch "k" (Some (bytesOf "v2")) = Some b2 ∧
    tableMutations b12 = tableMutations b2 ∧
    mutsOf b12 TblPrefixRows !! "k"%string = Some (Some (bytesOf "v2")) ∧
    mutsOf b12 TblPrefixRows = <["k"%string := Some (bytesOf "v2")]> ∅.
Proof.
  apply (setTable_same_key_collapses newBatch TblPrefixRows "k"
           (Some (bytesOf "v1")) (Some (bytesOf "v2")) ∅).
  vm_compute. reflexivity.
Defined.

(** C5, as stated, fails: after 101 writes of one row the buckets hold a
    single mutation, which is at most 100, and [FlushIfFull] flushes all
    the same instead of leaving the batch unchanged. *)
Lemma FlushIfFull_flushes_one_collapsed_mutation :
  buffered Sample.overwritten = 1 ∧
  buffered Sample.overwritten ≤ maxMutationCount ∧
  FlushIfFull mapOrder Sample.overwritten MemKV.newStore
    ≠ (Sample.overwritten, MemKV.newStore, None) ∧
  calls (FlushIfFull mapOrder Sample.overwritten MemKV.newStore).1.2 =
    [CallPut (packKey TblPrefixRows "k") (Some (bytesOf "v")); CallFlushPuts].
Proof.
  split; [vm_compute; reflexivity|].
  split; [vm_compute; discriminate|].
  split; [|vm_compute; reflexivity].
  intros H. apply (f_equal (λ r, calls r.1.2)) in H. vm_compute in H. discriminate.
Qed.

(** C5, amended: [FlushIfFull] flushes exactly when the batch's count
    exceeds 100, and otherwise does nothing and leaves the batch as it is;
    the count is the number of writes since the last reset, a write to a key
    already buffered counted like any other. *)
Theorem FlushIfFull_threshold {B : Backend} (order : RangeOrder)
  (b : batch) (s : KVStore B) :
  (count b ≤ 100 → FlushIfFull order b s = (b, s, None)) ∧
  (100 < count b →
     FlushIfFull order b s =
       match Flush order b s with
       | (b', s', err) => (b', s', Wrapf "flushing batch set: %w" [] <$> err)
       end) ∧
  (∀ ws b', setAll ws (Reset b) = Some b' →
            Z.of_nat (length ws) < 2 ^ 63 →
            count b' = Z.of_nat (length ws)).
Proof.
  unfold FlushIfFull, maxMutationCount. split; [|split].
  - intros H. by rewrite decide_True.
  - intros H. rewrite decide_False by lia.
    by destruct (Flush order b s) as [[b' s'] [e|]].
  - intros ws b' H Hlen. apply setAll_count in H; simpl in *; lia.
Qed.

Lemma FlushIfFull_threshold_witness :
  FlushIfFull mapOrder Sample.someBatch MemKV.newStore
    = (Sample.someBatch, MemKV.newStore, None)
  ∧ (FlushIfFull mapOrder Sample.overwritten MemKV.newStore).1.1 = newBatch
  ∧ calls (FlushIfFull mapOrder Sample.overwritten MemKV.newStore).1.2
    = [CallPut (packKey TblPrefixRows "k") (Some (bytesOf "v")); CallFlushPuts]
  ∧ count Sample.overwritten = 101.
Proof.
  destruct (FlushIfFull_threshold mapOrder Sample.someBatch MemKV.newStore)
    as (Hle & _ & _).
  destruct (FlushIfFull_threshold mapOrder Sample.overwritten MemKV.newStore)
    as (_ & Hgt & Hcount).
  split; [apply Hle; vm_compute; discriminate|].
  rewrite Hgt by (vm_compute; reflexivity).
  split; [vm_compute; reflexivity|].
  split; vm_compute; reflexivity.
Defined.

End BatchTheorems.

(** ** Reads *)

Section ReadProperties.
Import KV.
Context {B : Backend}.

Lemma nilOrWrapped_not_BreakScan (err : option error) :
  nilOrWrapped err → err ≠ Some BreakScan.
Proof.
  intros [-> | (e & -> & He)]; [done|].
  intros [= ->]. by apply wrapsError_not_BreakScan in He.
Qed.

Lemma nilOrWrapped_Wrapf format args inner :
  nilOrWrapped (Some (Wrapf format args inner)).
Proof. right. eexists. split; [done|]. by eexists _, _, _. Qed.

Lemma unpackKey_nonempty (key : bytes) :
  key ≠ [] → unpackKey key = Some (hd "000"%char key, stringOf key).
Proof. by destruct key. Qed.

Lemma scanRangeLoop_returns {A} (onRow : OnRow A) items (a : A) :
  nonEmptyKeys items → is_Some (scanRangeLoop onRow items a).
Proof.
  intros H. revert a. induction H as [|item items Hk _ IH]; intros a; simpl; [eauto|].
  rewrite (unpackKey_nonempty _ Hk). simpl.
  destruct (onRow a _ _) as [a' [e|]]; [destruct (isBreakScan e); eauto | apply IH].
Qed.

Lemma scanPrefixLoop_returns {A} (onRow : OnRow A) items (a : A) :
  nonEmptyKeys items → is_Some (scanPrefixLoop onRow items a).
Proof.
  intros H. revert a. induction H as [|item items Hk _ IH]; intros a; simpl; [eauto|].
  rewrite (unpackKey_nonempty _ Hk). simpl.
  destruct (onRow a _ _) as [a' [e|]]; [destruct (isBreakScan e); eauto | apply IH].
Qed.

Lemma scanRange_returns {A} (s : KVStore B) table keyStart keyEnd limit
  (onRow : OnRow A) (a : A) :
  wellKeyed s → is_Some (scanRange s table keyStart keyEnd limit onRow a).
Proof.
  intros [Hs _]. unfold scanRange.
  destruct (scanRangeLoop_returns onRow _ a
              (Hs (packKey table keyStart) (scanEndKey table keyEnd) limit))
    as [r ->].
  simpl. destruct r; [destruct (itErr _)|]; eauto.
Qed.

Lemma scanPrefix_returns {A} (s : KVStore B) table prefixKey limit
  (onRow : OnRow A) (a : A) :
  wellKeyed s → is_Some (scanPrefix s table prefixKey limit onRow a).
Proof.
  intros [_ Hs]. unfold scanPrefix.
  destruct (scanPrefixLoop_returns onRow _ a (Hs (packKey table prefixKey) limit))
    as [r ->].
  simpl. destruct r; [destruct (itErr _)|]; eauto.
Qed.

(** The two scans themselves turn the sentinel of their callback into a
    nil error. *)
Lemma scanRangeLoop_clean {A} (onRow : OnRow A) items (a a' : A) err :
  scanRangeLoop onRow items a = Some (Returned a' err) → nilOrWrapped err.
Proof.
  revert a. induction items as [|item items IH]; intros a; simpl; [done|].
  destruct (unpackKey (Key item)) as [[t key]|]; simpl; [|done].
  destruct (onRow a key (Value item)) as [a1 [e|]]; [|apply IH].
  destruct (isBreakScan e); intros [= <- <-]; [by left | apply nilOrWrapped_Wrapf].
Qed.

Lemma scanPrefixLoop_clean {A} (onRow : OnRow A) items (a a' : A) err :
  scanPrefixLoop onRow items a = Some (Returned a' err) → nilOrWrapped err.
Proof.
  revert a. induction items as [|item items IH]; intros a; simpl; [done|].
  destruct (unpackKey (Key item)) as [[t key]|]; simpl; [|done].
  destruct (onRow a key (Value item)) as [a1 [e|]]; [|apply IH].
  destruct (isBreakScan e); intros [= <- <-]; [by left | apply nilOrWrapped_Wrapf].
Qed.

Lemma scanRange_clean {A} (s : KVStore B) table keyStart keyEnd limit
  (onRow : OnRow A) (a a' : A) err :
  scanRange s table keyStart keyEnd limit onRow a = Some (a', err) →
  nilOrWrapped err.
Proof.
  unfold scanRange.
  destruct (scanRangeLoop onRow _ a) as [[a1|a1 e1]|] eqn:E; simpl; [| |done].
  - destruct (itErr _); intros [= <- <-]; [apply nilOrWrapped_Wrapf | by left].
  - intros [= <- <-]. by apply scanRangeLoop_clean in E.
Qed.

Lemma scanPrefix_clean {A} (s : KVStore B) table prefixKey limit
  (onRow : OnRow A) (a a' : A) err :
  scanPrefix s table prefixKey limit onRow a = Some (a', err) →
  nilOrWrapped err.
Proof.
  unfold scanPrefix.
  destruct (scanPrefixLoop onRow _ a) as [[a1|a1 e1]|] eqn:E; simpl; [| |done].
  - destruct (itErr _); intros [= <- <-]; [apply nilOrWrapped_Wrapf | by left].
  - intros [= <- <-]. by apply scanPrefixLoop_clean in E.
Qed.

Lemma isFailure_clean (err : option error) : nilOrWrapped err → isFailure err = err.
Proof.
  intros [-> | (e & -> & (f & ar & i & ->))]; reflexivity.
Qed.

(** A callback that answers with the sentinel ends the loop with a nil
    error, in the state it left. *)
Lemma scanRangeLoop_break {A} (onRow : OnRow A) pre item post (a a1 a2 : A) t key :
  visitAll onRow pre a = Some a1 →
  unpackKey (Key item) = Some (t, key) →
  onRow a1 key (Value item) = (a2, Some BreakScan) →
  scanRangeLoop onRow (pre ++ item :: post) a = Some (Returned a2 None).
Proof.
  revert a. induction pre as [|x pre IH]; intros a; simpl.
  - intros [= ->] -> . simpl. by intros ->.
  - destruct (unpackKey (Key x)) as [[t' key']|]; simpl; [|done].
    destruct (onRow a key' (Value x)) as [a' [e|]]; [done|]. apply IH.
Qed.

Lemma scanPrefixLoop_break {A} (onRow : OnRow A) pre item post (a a1 a2 : A) t key :
  visitAll onRow pre a = Some a1 →
  unpackKey (Key item) = Some (t, key) →
  onRow a1 key (Value item) = (a2, Some BreakScan) →
  scanPrefixLoop onRow (pre ++ item :: post) a = Some (Returned a2 None).
Proof.
  revert a. induction pre as [|x pre IH]; intros a; simpl.
  - intros [= ->] -> . simpl. by intros ->.
  - destruct (unpackKey (Key x)) as [[t' key']|]; simpl; [|done].
    destruct (onRow a key' (Value x)) as [a' [e|]]; [done|]. apply IH.
Qed.

(** C8, as stated, fails for [FetchIndex]: with no index row to find it
    returns the bare [store.ErrNotFound], which is neither a successful
    result nor a wrapped error. *)
Lemma FetchIndex_returns_bare_ErrNotFound :
  FetchIndex MemKV.newStore "tablet" "tablet/" "tablet/ffff"
    = Some (""%string, None, Some ErrNotFound)
  ∧ ¬ nilOrWrapped (Some ErrNotFound).
Proof.
  split; [vm_compute; reflexivity|].
  intros [H | (e & [= <-] & (f & ar & i & H))]; discriminate.
Qed.

(** C8, amended: the scan-stop sentinel never leaves the store's public
    reads. [FetchSingletEntry], [HasTabletRow], [ScanTabletRows] and
    [ScanLastShardsWrittenBlock] answer with a nil error or with an error
    that wraps another; [FetchIndex] does the same or answers the bare
    [store.ErrNotFound] when it finds no index row; none of them answers
    [store.BreakScan]. A callback of [ScanTabletRows] or
    [ScanLastShardsWrittenBlock] that returns the sentinel ends the scan at
    that row with a nil error. *)
Theorem BreakScan_never_leaks (s : KVStore B) :
  (∀ keyStart keyEnd,
      answers s nilOrWrapped (FetchSingletEntry s keyStart keyEnd)) ∧
  (∀ tableKey prefixKey keyStart,
      answers s (λ err, nilOrWrapped err ∨ err = Some ErrNotFound)
        (FetchIndex s tableKey prefixKey keyStart)) ∧
  (∀ tabletKey, answers s nilOrWrapped (HasTabletRow s tabletKey)) ∧
  (∀ A (onTabletRow : OnRow A) (a : A) keyStart keyEnd,
      answers s nilOrWrapped (ScanTabletRows s keyStart keyEnd onTabletRow a) ∧
      ∀ pre item post a1 a2 t key,
        itItems (dbScan B (db s) (packKey TblPrefixRows keyStart)
                   (scanEndKey TblPrefixRows keyEnd) Unlimited)
          = pre ++ item :: post →
        visitAll onTabletRow pre a = Some a1 →
        unpackKey (Key item) = Some (t, key) →
        onTabletRow a1 key (Value item) = (a2, Some BreakScan) →
        ScanTabletRows s keyStart keyEnd onTabletRow a = Some (a2, None)) ∧
  (∀ A (onBlockRef : A → string → BlockRef → A * option error) (a : A) keyPrefix,
      answers s nilOrWrapped (ScanLastShardsWrittenBlock s keyPrefix onBlockRef a) ∧
      ∀ pre item post a1 a2 t key,
        itItems (dbPrefix B (db s) (packKey TblPrefixLast keyPrefix) Unlimited)
          = pre ++ item :: post →
        visitAll (λ st k v, onBlockRef st k (BlockRefFromID v)) pre a = Some a1 →
        unpackKey (Key item) = Some (t, key) →
        onBlockRef a1 key (BlockRefFromID (Value item)) = (a2, Some BreakScan) →
        ScanLastShardsWrittenBlock s keyPrefix onBlockRef a = Some (a2, None)).
Proof.
  assert (∀ f ar i, Some (Wrapf f ar i) ≠ Some BreakScan) as Hw by (intros; discriminate).
  split; [|split; [|split; [|split]]].
  - intros keyStart keyEnd. unfold FetchSingletEntry. split.
    + intros Hs.
      destruct (scanRange_returns s TblPrefixRows keyStart keyEnd 1
                  (λ _ rowKey rowValue, ((rowKey, rowValue), Some BreakScan))
                  (""%string, None) Hs) as [[[k v] e] ->].
      simpl. destruct (isFailure e); eauto.
    + intros t err. destruct (scanRange _ _ _ _ _ _ _) as [[[k v] e]|]; simpl; [|done].
      destruct (isFailure e); intros [= <- <-];
        split; try done; [apply nilOrWrapped_Wrapf | by left].
  - intros tableKey prefixKey keyStart. unfold FetchIndex, scanInfiniteRange. split.
    + intros Hs.
      match goal with |- is_Some (mbind _ (scanRange ?s ?t ?k ?e ?l ?f ?a)) =>
        destruct (scanRange_returns s t k e l f a Hs) as [[[k' v] e'] ->] end.
      simpl. destruct (isFailure e'); [|destruct v]; eauto.
    + intros t err. destruct (scanRange _ _ _ _ _ _ _) as [[[k v] e]|]; simpl; [|done].
      destruct (isFailure e); [|destruct v]; intros [= <- <-]; split; try done.
      * left. apply nilOrWrapped_Wrapf.
      * left. by left.
      * by right.
  - intros tabletKey. unfold HasTabletRow. split.
    + intros Hs.
      destruct (scanPrefix_returns s TblPrefixRows tabletKey 1
                  (λ _ _ _, (true, Some BreakScan)) false Hs) as [[x e] ->].
      simpl. destruct (isFailure e); eauto.
    + intros t err. destruct (scanPrefix _ _ _ _ _ _) as [[x e]|]; simpl; [|done].
      destruct (isFailure e); intros [= <- <-];
        split; try done; [apply nilOrWrapped_Wrapf | by left].
  - intros A onTabletRow a keyStart keyEnd. unfold ScanTabletRows.
    set (W := λ (st : A) (key : string) (v : value),
                match onTabletRow st key v with
                | (st', Some e) =>
                    if isBreakScan e then (st', Some BreakScan)
                    else (st', Some (Wrapf "on tablet row for key %q failed: %w"
                                       [ArgStr key] e))
                | (st', None) => (st', None)
                end).
    split; [split|].
    + intros Hs.
      destruct (scanRange_returns s TblPrefixRows keyStart keyEnd Unlimited W a Hs)
        as [[x e] ->].
      simpl. destruct (isFailure e); eauto.
    + intros t err. destruct (scanRange _ _ _ _ _ _ _) as [[x e]|]; simpl; [|done].
      destruct (isFailure e); intros [= <- <-];
        split; try done; [apply nilOrWrapped_Wrapf | by left].
    + intros pre item post a1 a2 t key Hitems Hpre Hkey Hstop.
      assert (∀ l x y, visitAll onTabletRow l x = Some y → visitAll W l x = Some y) as HW.
      { induction l as [|i l IH]; intros x y; simpl; [done|].
        destruct (unpackKey (Key i)) as [[t' k']|]; simpl; [|done].
        unfold W at 1. destruct (onTabletRow x k' (Value i)) as [x' [e|]]; [done|].
        apply IH. }
      unfold scanRange. rewrite Hitems.
      rewrite (scanRangeLoop_break W pre item post a a1 a2 t key); simpl; auto.
      unfold W. by rewrite Hstop.
  - intros A onBlockRef a keyPrefix. unfold ScanLastShardsWrittenBlock.
    set (W := λ (st : A) (key : string) (v : value),
                match onBlockRef st key (BlockRefFromID v) with
                | (st', Some e) =>
                    if isBreakScan e then (st', Some BreakScan)
                    else (st', Some (Wrapf "on block ref for table %q key %q failed: %w"
                                       [ArgByte TblPrefixRows; ArgStr key] e))
                | (st', None) => (st', None)
                end).
    split; [split|].
    + intros Hs.
      destruct (scanPrefix_returns s TblPrefixLast keyPrefix Unlimited W a Hs)
        as [[x e] ->].
      simpl. destruct (isFailure e); eauto.
    + intros t err. destruct (scanPrefix _ _ _ _ _ _) as [[x e]|]; simpl; [|done].
      destruct (isFailure e); intros [= <- <-];
        split; try done; [apply nilOrWrapped_Wrapf | by left].
    + intros pre item post a1 a2 t key Hitems Hpre Hkey Hstop.
      assert (∀ l x y,
                visitAll (λ st k v, onBlockRef st k (BlockRefFromID v)) l x = Some y →
                visitAll W l x = Some y) as HW.
      { induction l as [|i l IH]; intros x y; simpl; [done|].
        destruct (unpackKey (Key i)) as [[t' k']|]; simpl; [|done].
        unfold W at 1.
        destruct (onBlockRef x k' (BlockRefFromID (Value i))) as [x' [e|]]; [done|].
        apply IH. }
      unfold scanPrefix. rewrite Hitems.
      rewrite (scanPrefixLoop_break W pre item post a a1 a2 t key); simpl; auto.
      unfold W. by rewrite Hstop.
Qed.

End ReadProperties.

Lemma BreakScan_never_leaks_witness :
  KV.ScanTabletRows Sample.flushedStore "r" "" Sample.stopAtFirst 0%nat
    = Some (1%nat, None)
  ∧ KV.FetchSingletEntry Sample.flushedStore "r" "" ≠ None.
Proof.
  destruct (BreakScan_never_leaks Sample.flushedStore) as (Hsinglet & _ & _ & H & _).
  destruct (H nat Sample.stopAtFirst 0%nat "r"%string ""%string) as [_ Hbreak].
  split.
  - apply (Hbreak []
             {| KV.Key := KV.packKey KV.TblPrefixRows "r1";
                KV.Value := Some (bytesOf "y") |}
             [{| KV.Key := KV.packKey KV.TblPrefixRows "r2";
                 KV.Value := Some (bytesOf "z") |}]
             0%nat 1%nat KV.TblPrefixRows (String KV.TblPrefixRows "r1"));
      vm_compute; reflexivity.
  - destruct (Hsinglet "r"%string ""%string) as [_ Hclean].
    destruct (KV.FetchSingletEntry Sample.flushedStore "r" "") as [[[k v] e]|] eqn:E.
    + discriminate.
    + vm_compute in E. discriminate.
Defined.

Section FetchKeysProperties.
Import KV.
Context {B : Backend}.

Lemma foundRows_values (items : list KVItem) key v :
  (key, v) ∈ foundRows items → v ≠ None.
Proof.
  unfold foundRows. rewrite list_elem_of_omap. intros (item & _ & H).
  destruct (Value item) eqn:E; [|done]. by injection H as <- <-.
Qed.

Lemma fetchKeysLoop_recorded {A} (onTabletRow : OnRow A) items (a : A) log r :
  fetchKeysLoop (recording onTabletRow) items (a, log) = Some r →
  ∃ visited,
    match r with
    | Exhausted st => st.2 = log ++ visited ∧ visited = foundRows items
    | Returned st err =>
        st.2 = log ++ visited ∧ visited `prefix_of` foundRows items ∧
        ∃ x key v, (onTabletRow x key v).2 ≠ None
    end.
Proof.
  revert a log r. induction items as [|item items IH]; intros a log r; simpl.
  - intros [= <-]. exists []. simpl. by rewrite app_nil_r.
  - destruct (Value item) as [v|] eqn:Ev; [|apply IH].
    destruct (Key item) as [|k0 ks] eqn:Ek; [done|].
    change (unpackKey (k0 :: ks)) with (Some (k0, stringOf (k0 :: ks))).
    generalize (stringOf (k0 :: ks)). intros key. simpl.
    unfold recording at 1. simpl.
    destruct (onTabletRow a key (Some v)) as [a1 [e|]] eqn:Ecb.
    + assert (∃ x k w, (onTabletRow x k w).2 ≠ None) as Hfail.
      { exists a, key, (Some v). by rewrite Ecb. }
      destruct (isBreakScan e); intros [= <-]; simpl;
        exists [(key, Some v)];
        (split; [done|]); (split; [|done]); by eexists.
    + intros H. apply IH in H as [visited H].
      exists ((key, Some v) :: visited).
      destruct r as [st|st err].
      * destruct H as [-> ->]. by rewrite <- app_assoc.
      * destruct H as (-> & Hp & Hf). rewrite <- app_assoc.
        split; [done|]. split; [by apply prefix_cons | done].
Qed.

Lemma fetchKeysLoop_returns {A} (onTabletRow : OnRow A) items (a : A) :
  nonEmptyKeys items → is_Some (fetchKeysLoop onTabletRow items a).
Proof.
  intros H. revert a. induction H as [|item items Hk _ IH]; intros a; simpl; [eauto|].
  destruct (Value item); [|apply IH].
  rewrite (unpackKey_nonempty _ Hk). simpl.
  destruct (onTabletRow a _ _) as [a' [e|]]; [destruct (isBreakScan e); eauto | apply IH].
Qed.

(** C9: [FetchTabletRows] calls its callback on the fetched items in order
    and only on those whose value is not nil: a missing key is passed over,
    an item with an empty value is handed to the callback like any other,
    and unless the callback stops the walk every item with a value is
    visited. *)
Theorem FetchTabletRows_skips_only_nil_values {A} (s : KVStore B)
  (keys : list string) (onTabletRow : OnRow A) (a : A) :
  let items := itItems (dbBatchGet B (db s) (packKey TblPrefixRows <$> keys)) in
  (nonEmptyKeys items →
     is_Some (FetchTabletRows s keys (recording onTabletRow) (a, []))) ∧
  ∀ a' log err,
    FetchTabletRows s keys (recording onTabletRow) (a, []) = Some ((a', log), err) →
    log `prefix_of` foundRows items ∧
    (∀ key v, (key, v) ∈ log → v ≠ None) ∧
    ((∀ x key v, (onTabletRow x key v).2 = None) →
       log = foundRows items ∧
       ∀ item, item ∈ items → Value item = Some [] →
               (stringOf (Key item), Some []) ∈ log).
Proof.
  intros items. unfold FetchTabletRows, fetchKeys. fold items. split.
  - intros Hk.
    destruct (fetchKeysLoop_returns (recording onTabletRow) items (a, []) Hk) as [r ->].
    simpl. destruct r; [destruct (itErr _)|]; eauto.
  - intros a' log err.
    destruct (fetchKeysLoop (recording onTabletRow) items (a, [])) as [r|] eqn:E;
      simpl; [|done].
    apply fetchKeysLoop_recorded in E as [visited E]. intros H.
    assert (log `prefix_of` foundRows items ∧
            ((∀ x key v, (onTabletRow x key v).2 = None) → log = foundRows items))
      as [Hp Hall].
    { destruct r as [st|st e].
      - destruct E as [E ->].
        assert (st = (a', log)) as ->.
        { destruct (itErr (dbBatchGet B (db s) (packKey TblPrefixRows <$> keys)));
            by injection H as -> _. }
        simpl in E. by subst log.
      - destruct E as (E & Hp & (x & key & v & Hf)).
        injection H as -> _. simpl in E. subst log.
        split; [done|]. intros Hnone. by rewrite Hnone in Hf. }
    split; [done|]. split.
    + intros key v Hin. apply (foundRows_values items key).
      destruct Hp as [rest ->]. apply elem_of_app. by left.
    + intros Hnone. split; [by apply Hall|].
      intros item Hin Hv. rewrite (Hall Hnone). unfold foundRows.
      apply list_elem_of_omap. exists item. split; [done|]. by rewrite Hv.
Qed.

End FetchKeysProperties.

Lemma FetchTabletRows_skips_only_nil_values_witness :
  KV.FetchTabletRows Sample.emptyValueStore ["a"; "b"]%string
    (KV.recording Sample.countRows) (0%nat, [])
  = Some ((1%nat, [(String KV.TblPrefixRows "a", Some [])]), None).
Proof.
  pose proof (FetchTabletRows_skips_only_nil_values Sample.emptyValueStore
                ["a"; "b"]%string Sample.countRows 0%nat) as [Hret H].
  destruct (KV.FetchTabletRows Sample.emptyValueStore ["a"; "b"]%string
              (KV.recording Sample.countRows) (0%nat, [])) as [[[n log] err]|] eqn:E.
  - destruct (H n log err eq_refl) as (_ & _ & Hall).
    destruct Hall as [Hlog _]; [done|].
    vm_compute in E. injection E as <- <- <-. reflexivity.
  - exfalso. assert (is_Some (@None (nat * list (string * value) * option error))) as [? ?].
    { apply Hret. vm_compute. repeat constructor; discriminate. }
    discriminate.
Defined.

(** ** File names *)

Section ParseProperties.
Import Go FluxDB.

Lemma Split_noSep sep s : noSep sep s → Split s sep = [s].
Proof.
  induction s as [|c s IH]; simpl; [done|]. intros [Hc Hs].
  rewrite decide_False by done. by rewrite IH.
Qed.

Lemma Split_sep sep a b :
  noSep sep a → Split (a +:+ String sep b) sep = a :: Split b sep.
Proof.
  induction a as [|c a IH]; simpl.
  - intros _. by rewrite decide_True.
  - intros [Hc Ha]. rewrite decide_False by done. by rewrite IH.
Qed.

Lemma Split_single sep s x : Split s sep = [x] → s = x.
Proof.
  revert x. induction s as [|c s IH]; intros x; simpl.
  - by intros [= <-].
  - destruct (decide (c = sep)).
    + intros [= _ H]. by destruct s; simpl in H; [|destruct (decide _), (Split s sep)].
    + destruct (Split s sep) as [|h t] eqn:E.
      * intros [= <-]. destruct s; simpl in E; [done|].
        by destruct (decide _), (Split s sep).
      * intros [= <- ->]. by rewrite (IH h).
Qed.

Lemma Split_pair sep s a b : Split s sep = [a; b] → s = a +:+ String sep b.
Proof.
  revert a. induction s as [|c s IH]; intros a; simpl; [done|].
  destruct (decide (c = sep)) as [->|Hc].
  - intros [= <- H]. apply Split_single in H. by subst.
  - destruct (Split s sep) as [|h t] eqn:E; [done|].
    intros [= <- ->]. by rewrite (IH h).
Qed.

Lemma decimalFrom_noSep acc cs n :
  decimalFrom acc cs = Some n → noSep "-"%char (stringOf cs).
Proof.
  revert acc. induction cs as [|c cs IH]; intros acc; simpl; [done|].
  destruct (isDigit c) eqn:E; [|done]. intros H. split; [|by eapply IH].
  intros ->. vm_compute in E. discriminate.
Qed.

Lemma decimal_noSep s n : decimal s = Some n → noSep "-"%char s.
Proof.
  unfold decimal. destruct (decide _); [done|]. intros H.
  apply decimalFrom_noSep in H. by rewrite stringOf_bytesOf in H.
Qed.

Lemma decimalFrom_ge acc cs n : 0 ≤ acc → decimalFrom acc cs = Some n → acc ≤ n.
Proof.
  revert acc. induction cs as [|c cs IH]; intros acc Hacc; simpl.
  - intros [= <-]. lia.
  - destruct (isDigit c) eqn:E; [|done]. apply bool_decide_eq_true in E.
    intros H. apply IH in H; lia.
Qed.

Lemma digitVal_digit c : isDigit c = true → digitVal c = Some (byteVal c - 48).
Proof.
  unfold isDigit, digitVal. intros H. apply bool_decide_eq_true in H.
  by rewrite decide_True.
Qed.

Lemma lower_ge (n : Z) : 0 ≤ n → 32 ≤ lower n.
Proof.
  intros Hn. unfold lower.
  assert (Z.testbit (Z.lor n 32) 5 = true) as Hbit.
  { rewrite Z.lor_spec. apply orb_true_r. }
  destruct (Z.lt_ge_cases (Z.lor n 32) (2 ^ 5)) as [Hlt|Hge]; [|lia].
  assert (0 ≤ Z.lor n 32) by (apply Z.lor_nonneg; lia).
  rewrite (Z.bits_above_log2 (Z.lor n 32) 5) in Hbit; [done | lia |].
  destruct (Z.eq_dec (Z.lor n 32) 0) as [E|E]; [rewrite E; simpl; lia|].
  apply Z.log2_lt_pow2; lia.
Qed.

Lemma digitVal_other c d :
  isDigit c = false → digitVal c = Some d → 10 ≤ d.
Proof.
  unfold isDigit, digitVal. intros H. apply bool_decide_eq_false in H.
  rewrite decide_False by done.
  destruct (decide _) as [Hl|]; [|done]. intros [= <-]. lia.
Qed.

(** The digit loop of [ParseUint], base 10 and 32 bits: from an
    accumulator within range it succeeds exactly on digit strings whose
    value stays within range. *)
Lemma parseUintLoop_decimal s0 cs n m :
  0 ≤ n ≤ 4294967295 →
  parseUintLoop s0 10 (maxUint64 / 10 + 1) 4294967295 cs n = (m, None) ↔
  decimalFrom n cs = Some m ∧ m ≤ 4294967295.
Proof.
  change (maxUint64 / 10 + 1) with 1844674407370955162.
  revert n. induction cs as [|c cs IH]; intros n Hn; simpl.
  - split; [intros [= <-]; split; [done | lia] | by intros [[= <-] _]].
  - destruct (isDigit c) eqn:Ed.
    + rewrite (digitVal_digit c Ed).
      pose proof Ed as Ed'. apply bool_decide_eq_true in Ed'.
      rewrite decide_False by lia.
      rewrite decide_False by lia.
      rewrite !wrap64_small by (rewrite ?wrap64_small; lia).
      destruct (decide _) as [Hov|Hok].
      * split; [done|]. intros [H Hm]. apply decimalFrom_ge in H; lia.
      * apply IH. lia.
    + destruct (digitVal c) as [d|] eqn:Edv.
      * apply (digitVal_other c d Ed) in Edv. rewrite decide_True by lia.
        split; [done | by intros [? _]].
      * split; [done | by intros [? _]].
Qed.

Lemma ParseUint_decimal s m :
  ParseUint s 10 32 = (m, None) ↔ decimal s = Some m ∧ m ≤ 4294967295.
Proof.
  unfold ParseUint, decimal. destruct (decide (s = EmptyString)).
  - split; [done | by intros [? _]].
  - change (wrap64 (Z.shiftl 1 32 - 1)) with 4294967295.
    apply parseUintLoop_decimal. lia.
Qed.

Lemma ParseUint_range s m : ParseUint s 10 32 = (m, None) → 0 ≤ m ≤ 4294967295.
Proof.
  intros H. apply ParseUint_decimal in H as [H Hm]. split; [|done].
  unfold decimal in H. destruct (decide _); [done|]. apply decimalFrom_ge in H; lia.
Qed.

Lemma parseFileName_pair a b :
  noSep "-"%char a → noSep "-"%char b →
  parseFileName (a +:+ "-" +:+ b) =
    match ParseUint a 10 32 with
    | (_, Some err) => (0, 0, Some err)
    | (first64, None) =>
        match ParseUint b 10 32 with
        | (_, Some err) => (0, 0, Some err)
        | (last64, None) => (wrap64 first64, wrap64 last64, None)
        end
    end.
Proof.
  intros Ha Hb. unfold parseFileName.
  change (a +:+ "-" +:+ b) with (a +:+ String "-"%char b).
  rewrite (Split_sep _ a b Ha), (Split_noSep _ b Hb). reflexivity.
Qed.

Lemma parseFileName_range name first last :
  parseFileName name = (first, last, None) →
  0 ≤ first ≤ 4294967295 ∧ 0 ≤ last ≤ 4294967295.
Proof.
  unfold parseFileName. destruct (decide _); [done|].
  destruct (ParseUint (nth 0 _ _) 10 32) as [f [e|]] eqn:Ef; [done|].
  destruct (ParseUint (nth 1 _ _) 10 32) as [l [e|]] eqn:El; [done|].
  apply ParseUint_range in Ef, El. intros [= <- <-].
  rewrite !wrap64_small by lia. lia.
Qed.

End ParseProperties.

(** ** Shard injector *)

Section InjectorProperties.
Import Go FluxDB.
Context {D : Type}.
Variable ops : FluxDBOps D.
Variable shardsStore : ObjectStore.

Lemma readLoop_filter recs startAfter requests :
  readLoop recs EOF startAfter requests
    = (requests ++ filter (λ r, startAfter < Height r) recs, None).
Proof.
  revert requests. induction recs as [|r recs IH]; intros requests; simpl.
  - by rewrite app_nil_r.
  - rewrite filter_cons. destruct (decide (Height r ≤ startAfter)).
    + rewrite decide_False by lia. apply IH.
    + rewrite decide_True by lia. rewrite IH. by rewrite <- app_assoc.
Qed.

Lemma readWriteRequestsForBatch_filter reader startAfter :
  ending reader = EOF →
  readWriteRequestsForBatch reader startAfter
    = (filter (λ r, startAfter < Height r) (records reader), None).
Proof.
  intros H. unfold readWriteRequestsForBatch. rewrite H. apply readLoop_filter.
Qed.

Lemma onShardFile_unparsable startAfter (st : injector D) name :
  (parseFileName name).2 ≠ None →
  ∃ err, onShardFile ops shardsStore startAfter st name = (st, Some err).
Proof.
  unfold onShardFile. destruct (parseFileName name) as [[f l] [e|]]; [eauto | done].
Qed.

Lemma walkNames_unparsable f names (st : injector D) name :
  (∀ st', ∃ err, f st' name = (st', Some err)) →
  name ∈ names → (walkNames shardsStore f names st).2 ≠ None.
Proof.
  intros Hf Hin. revert st. induction names as [|n names IH]; intros st; simpl.
  - by apply elem_of_nil in Hin.
  - destruct (f st n) as [st' [e|]] eqn:E; [done|].
    apply elem_of_cons in Hin as [->|Hin]; [|by apply IH].
    destruct (Hf st) as [err Herr]. congruence.
Qed.

Lemma walkNames_visited f pre rest (st0 st : injector D) :
  visitNames f pre st0 = Some st →
  walkNames shardsStore f (pre ++ rest) st0 = walkNames shardsStore f rest st.
Proof.
  revert st0. induction pre as [|n pre IH]; intros st0; simpl.
  - by intros [= ->].
  - destruct (f st0 n) as [st' [e|]]; [done | apply IH].
Qed.

(** The tracker stays a [uint64]. *)
Lemma onShardFile_tracker startAfter (st st' : injector D) name err :
  onShardFile ops shardsStore startAfter st name = (st', err) →
  0 ≤ startAfterNum st < 2 ^ 64 → 0 ≤ startAfterNum st' < 2 ^ 64.
Proof.
  unfold onShardFile. destruct (parseFileName name) as [[f l] [e|]] eqn:Ep.
  { by intros [= <- _]. }
  apply parseFileName_range in Ep.
  destruct (decide _); [by intros [= <- _]|].
  destruct (decide _); [by intros [= <- _]|].
  destruct (OpenObject shardsStore name) as [reader|e]; [|by intros [= <- _]].
  destruct (readWriteRequestsForBatch _ _) as [reqs [e|]]; [by intros [= <- _]|].
  destruct (WriteBatch ops (fdb st) reqs) as [d [e|]]; intros [= <- _]; simpl; lia.
Qed.

Lemma visitNames_tracker startAfter names (st0 st : injector D) :
  visitNames (onShardFile ops shardsStore startAfter) names st0 = Some st →
  0 ≤ startAfterNum st0 < 2 ^ 64 → 0 ≤ startAfterNum st < 2 ^ 64.
Proof.
  revert st0. induction names as [|n names IH]; intros st0; simpl.
  - by intros [= ->].
  - destruct (onShardFile _ _ _ st0 n) as [st' [e|]] eqn:E; [done|].
    intros H Hr. apply (IH st' H). by eapply onShardFile_tracker.
Qed.

(** C3: an object whose first block number exceeds the watermark plus one
    makes [Run] fail with the gap error, and nothing of that object is
    applied: the database, the objects opened, the batches written and
    the watermark tracker are as they were when the walk reached it. *)
Theorem Run_gap_is_fatal (d : D) (startAfter : BlockRef)
  (pre post : list string) (name : string) (st : injector D) (first last : Z) :
  FetchLastWrittenBlock ops d = (startAfter, None) →
  objNames shardsStore = pre ++ name :: post →
  visitNames (onShardFile ops shardsStore startAfter) pre
    (mkInjector d [] [] (wrap64 (Num startAfter))) = Some st →
  parseFileName name = (first, last, None) →
  startAfterNum st + 1 < first →
  onShardFile ops shardsStore startAfter st name
    = (st, Some (gapError startAfter name first)) ∧
  Run ops shardsStore d
    = (st, Some (Wrapf "walking shards store: %w" [] (gapError startAfter name first))).
Proof.
  intros Hfetch Hnames Hpre Hparse Hgap.
  assert (0 ≤ startAfterNum st < 2 ^ 64) as Hr.
  { apply (visitNames_tracker _ _ _ _ Hpre). simpl. apply wrap64_range. }
  pose proof (parseFileName_range _ _ _ Hparse) as [Hf _].
  assert (onShardFile ops shardsStore startAfter st name
          = (st, Some (gapError startAfter name first))) as Hstep.
  { unfold onShardFile. rewrite Hparse.
    rewrite wrap64_small by lia. by rewrite decide_True by lia. }
  split; [done|].
  unfold Run, Walk. rewrite Hfetch, Hnames.
  rewrite (walkNames_visited _ pre (name :: post) _ st Hpre). simpl.
  by rewrite Hstep.
Qed.

(** C2, as stated, fails: an object whose last block number is past the
    watermark is not applied when its first block number leaves a gap. With
    the watermark at 5, the object [7-9] is refused: nothing is opened or
    written and the tracker stays at 5. *)
Lemma onShardFile_gap_object_not_applied :
  parseFileName "7-9" = (7, 9, None) ∧
  ¬ (9 ≤ startAfterNum Sample.atBlock5) ∧
  onShardFile Sample.listOps Sample.holed Sample.block5 Sample.atBlock5 "7-9"
    = (Sample.atBlock5, Some (FluxDB.gapError Sample.block5 "7-9" 7)).
Proof.
  split; [vm_compute; reflexivity|]. split; [simpl; lia|].
  vm_compute. reflexivity.
Qed.

(** C2, amended: for an object that passes the gap check as the code
    makes it, with the watermark at [w]: its first block number is at most
    [w + 1], the sum taken in [uint64] (it is [w + 1] for every [w] below
    [2^64 - 1] and wraps to [0] at [w = 2^64 - 1]). If the object's last
    block number is at most [w], the object is skipped, nothing being
    opened, decoded or written and the tracker staying at [w]; otherwise,
    when the object opens, decodes to its end and the write succeeds, the
    requests of height at most [w] are dropped, the others are written, in
    order, by one [WriteBatch] call, and the tracker moves to the object's
    last block number. *)
Theorem onShardFile_skips_or_applies (startAfter : BlockRef) (st : injector D)
  (name : string) (first last : Z) :
  parseFileName name = (first, last, None) →
  first ≤ wrap64 (startAfterNum st + 1) →
  (0 ≤ startAfterNum st < 2 ^ 64 - 1 →
     wrap64 (startAfterNum st + 1) = startAfterNum st + 1) ∧
  (startAfterNum st = 2 ^ 64 - 1 → wrap64 (startAfterNum st + 1) = 0) ∧
  (last ≤ startAfterNum st →
     onShardFile ops shardsStore startAfter st name = (st, None)) ∧
  (startAfterNum st < last →
     ∀ reader d',
       OpenObject shardsStore name = inl reader →
       ending reader = EOF →
       WriteBatch ops (fdb st)
         (filter (λ r, startAfterNum st < Height r) (records reader)) = (d', None) →
       onShardFile ops shardsStore startAfter st name
         = (mkInjector d' (opened st ++ [name])
              (written st ++ [filter (λ r, startAfterNum st < Height r) (records reader)])
              last, None)).
Proof.
  intros Hparse Hgap.
  split; [intros Hw; apply wrap64_small; lia|].
  split; [by intros ->|].
  unfold onShardFile. rewrite Hparse.
  rewrite decide_False by lia. split.
  - intros Hlast. by rewrite decide_True.
  - intros Hlast reader d' Hopen Heof Hwrite.
    rewrite decide_False by lia. rewrite Hopen.
    rewrite (readWriteRequestsForBatch_filter _ _ Heof). simpl.
    by rewrite Hwrite.
Qed.

End InjectorProperties.

(** The gap check adds in [uint64]: at the last watermark the sum is 0 and
    the object [1-3] is refused, its first block number being above 0. *)
Example onShardFile_gap_check_wraps :
  FluxDB.onShardFile Sample.listOps Sample.contiguous Sample.block5 Sample.atLastBlock
    "1-3"
    = (Sample.atLastBlock, Some (FluxDB.gapError Sample.block5 "1-3" 1)).
Proof. vm_compute. reflexivity. Qed.

Lemma Run_gap_is_fatal_witness :
  FluxDB.Run Sample.listOps Sample.holed []
    = (Sample.atBlock5,
       Some (Wrapf "walking shards store: %w" [] (FluxDB.gapError Sample.block5 "7-9" 7))).
Proof.
  apply (Run_gap_is_fatal Sample.listOps Sample.holed [] Sample.block5
           ["1-3"%string] [] "7-9" Sample.atBlock5 7 9);
    vm_compute; reflexivity.
Defined.

Lemma onShardFile_skips_or_applies_witness :
  FluxDB.onShardFile Sample.listOps Sample.contiguous Sample.block5 Sample.atBlock5 "1-3"
    = (Sample.atBlock5, None) ∧
  FluxDB.onShardFile Sample.listOps Sample.contiguous Sample.block5 Sample.atBlock5 "4-9"
    = (FluxDB.mkInjector (Sample.request <$> [6; 7; 8; 9]) ["4-9"%string]
         [Sample.request <$> [6; 7; 8; 9]] 9, None).
Proof.
  split.
  - apply (proj1 (proj2 (proj2 (onShardFile_skips_or_applies Sample.listOps
             Sample.contiguous Sample.block5 Sample.atBlock5 "1-3" 1 3
             ltac:(vm_compute; reflexivity) ltac:(vm_compute; discriminate)))));
      vm_compute; discriminate.
  - refine (proj2 (proj2 (proj2 (onShardFile_skips_or_applies Sample.listOps
             Sample.contiguous Sample.block5 Sample.atBlock5 "4-9" 4 9 _ _))) _
             {| FluxDB.records := Sample.request <$> [4; 5; 6; 7; 8; 9];
                FluxDB.ending := EOF |}
             (Sample.request <$> [6; 7; 8; 9]) _ _ _);
      vm_compute; first [reflexivity | discriminate].
Defined.

(** C10: [parseFileName] succeeds exactly on two non-negative decimal
    numbers, each at most 4294967295, separated by one dash, and then
    returns the two numbers; a name whose first or last number is larger is
    refused, and a name that is refused makes [Run] fail whatever else the
    store holds. *)
Theorem parseFileName_accepts_uint32_pairs (name : string) :
  (∀ first last,
     FluxDB.parseFileName name = (first, last, None) ↔
     ∃ a b, name = a +:+ "-" +:+ b ∧
            Go.decimal a = Some first ∧ Go.decimal b = Some last ∧
            first ≤ 4294967295 ∧ last ≤ 4294967295) ∧
  (∀ a b x y,
     name = a +:+ "-" +:+ b → Go.decimal a = Some x → Go.decimal b = Some y →
     4294967295 < x ∨ 4294967295 < y →
     ∃ err, FluxDB.parseFileName name = (0, 0, Some err)) ∧
  (∀ D (ops : FluxDB.FluxDBOps D) (shardsStore : FluxDB.ObjectStore) (d : D),
     (FluxDB.parseFileName name).2 ≠ None →
     name ∈ FluxDB.objNames shardsStore →
     (FluxDB.Run ops shardsStore d).2 ≠ None).
Proof.
  split; [|split].
  - intros first last. split.
    + intros H. pose proof H as Hp. unfold FluxDB.parseFileName in H.
      destruct (Go.Split name "-"%char) as [|a [|b [|c vals]]] eqn:Es;
        simpl in H; try done.
      apply Split_pair in Es.
      destruct (Go.ParseUint a 10 32) as [f [e|]] eqn:Ef; [done|].
      destruct (Go.ParseUint b 10 32) as [l [e|]] eqn:El; [done|].
      pose proof (ParseUint_range _ _ Ef). pose proof (ParseUint_range _ _ El).
      apply ParseUint_decimal in Ef as [Ef ?], El as [El ?].
      rewrite !wrap64_small in H by lia. injection H as <- <-.
      by exists a, b.
    + intros (a & b & -> & Ha & Hb & Hf & Hl).
      rewrite parseFileName_pair by (by eapply decimal_noSep).
      assert (0 ≤ first ∧ 0 ≤ last) as [? ?].
      { unfold Go.decimal in Ha, Hb. destruct (decide _), (decide _); try done.
        apply decimalFrom_ge in Ha, Hb; lia. }
      rewrite (proj2 (ParseUint_decimal a first)) by done.
      rewrite (proj2 (ParseUint_decimal b last)) by done.
      by rewrite !wrap64_small by lia.
  - intros a b x y -> Ha Hb Hbig.
    rewrite parseFileName_pair by (by eapply decimal_noSep).
    destruct (Go.ParseUint a 10 32) as [f [e|]] eqn:Ef; [eauto|].
    destruct (Go.ParseUint b 10 32) as [l [e|]] eqn:El; [eauto|].
    apply ParseUint_decimal in Ef as [Ef ?], El as [El ?].
    rewrite Ha in Ef. rewrite Hb in El. injection Ef as ->. injection El as ->. lia.
  - intros D ops shardsStore d Hbad Hin. unfold FluxDB.Run.
    destruct (FluxDB.FetchLastWrittenBlock ops d) as [startAfter [e|]]; [done|].
    pose proof (walkNames_unparsable shardsStore
                  (FluxDB.onShardFile ops shardsStore startAfter)
                  (FluxDB.objNames shardsStore)
                  (FluxDB.mkInjector d [] [] (wrap64 (FluxDB.Num startAfter))) name
                  (λ st', onShardFile_unparsable ops shardsStore startAfter st' name Hbad)
                  Hin) as Hw.
    unfold FluxDB.Walk.
    by destruct (FluxDB.walkNames _ _ _ _) as [st' [e|]].
Qed.

Lemma parseFileName_accepts_uint32_pairs_witness :
  FluxDB.parseFileName "0000000001-4294967295" = (1, 4294967295, None) ∧
  (∃ err, FluxDB.parseFileName "6-4294967296" = (0, 0, Some err)) ∧
  (FluxDB.Run Sample.listOps Sample.oversized []).2 ≠ None.
Proof.
  split; [|split].
  - apply (proj1 (parseFileName_accepts_uint32_pairs "0000000001-4294967295")).
    exists "0000000001"%string, "4294967295"%string.
    repeat split; vm_compute; first [reflexivity | discriminate].
  - apply (proj1 (proj2 (parseFileName_accepts_uint32_pairs "6-4294967296"))
             "6"%string "4294967296"%string 6 4294967296);
      [reflexivity | vm_compute; reflexivity | vm_compute; reflexivity | right; lia].
  - apply (proj2 (proj2 (parseFileName_accepts_uint32_pairs "6-4294967296"))).
    + vm_compute. discriminate.
    + vm_compute. left.
Defined.

(** ** Key order *)

Section KeyOrder.
Import MemKV.
Local Arguments byteVal : simpl never.

Lemma bytesCompare_refl (a : bytes) : bytesCompare a a = Eq.
Proof. induction a as [|x a IH]; simpl; [done|]. by rewrite Z.compare_refl. Qed.

Lemma bytesCompare_antisym (a b : bytes) :
  bytesCompare b a = CompOpp (bytesCompare a b).
Proof.
  revert b. induction a as [|x a IH]; intros [|y b]; simpl; try done.
  rewrite (Z.compare_antisym (byteVal x) (byteVal y)).
  destruct (byteVal x ?= byteVal y); simpl; [apply IH | done | done].
Qed.

Lemma bytesCompare_app (p x y : bytes) :
  bytesCompare (p ++ x) (p ++ y) = bytesCompare x y.
Proof. induction p as [|c p IH]; simpl; [done|]. by rewrite Z.compare_refl. Qed.

Lemma bytesCompare_eq (a b : bytes) : bytesCompare a b = Eq → a = b.
Proof.
  revert b. induction a as [|x a IH]; intros [|y b]; simpl; try done.
  destruct (byteVal x ?= byteVal y) eqn:E; try done.
  apply Z.compare_eq in E. apply byteVal_inj in E. intros H. f_equal; auto.
Qed.

Lemma hasPrefix_app (p k : bytes) : hasPrefix p (p ++ k) = true.
Proof. induction p as [|c p IH]; simpl; [done|]. by rewrite decide_True. Qed.

(** A key between [p ++ c :: x] and [p ++ [c']], [c'] the byte after [c],
    starts with [p ++ [c]]. *)
Lemma range_hasPrefix (p x k : bytes) (c c' : byte) :
  byteVal c' = byteVal c + 1 →
  bytesLe (p ++ c :: x) k = true →
  bytesLt k (p ++ [c']) = true →
  hasPrefix (p ++ [c]) k = true.
Proof.
  intros Hc. unfold bytesLe, bytesLt. revert k.
  induction p as [|a p IH]; intros [|b k]; simpl; try done.
  - destruct (byteVal c ?= byteVal b) eqn:E1; try done.
    + intros _ _. apply Z.compare_eq in E1. apply byteVal_inj in E1.
      by rewrite decide_True.
    + destruct (byteVal b ?= byteVal c') eqn:E2.
      * intros _. by destruct k.
      * rewrite Z.compare_lt_iff in E1, E2. lia.
      * done.
  - rewrite (Z.compare_antisym (byteVal a) (byteVal b)).
    destruct (byteVal a ?= byteVal b) eqn:E; simpl; try done.
    apply Z.compare_eq in E. apply byteVal_inj in E.
    rewrite decide_True by done. apply IH.
Qed.

Lemma bytesCompare_lt_trans (a b c : bytes) :
  bytesCompare a b = Lt → bytesCompare b c = Lt → bytesCompare a c = Lt.
Proof.
  revert b c. induction a as [|x a IH]; intros [|y b] [|z c]; simpl; try done.
  destruct (Z.compare_spec (byteVal x) (byteVal y)) as [Exy|Hxy|Hxy]; [| |done];
    destruct (Z.compare_spec (byteVal y) (byteVal z)) as [Eyz|Hyz|Hyz]; try done.
  - rewrite Exy, Eyz, Z.compare_refl. apply IH.
  - intros _ _. rewrite Exy. by apply Z.compare_lt_iff in Hyz as ->.
  - intros _ _. rewrite <- Eyz. by apply Z.compare_lt_iff in Hxy as ->.
  - intros _ _. assert (byteVal x < byteVal z) as H by lia.
    by apply Z.compare_lt_iff in H as ->.
Qed.

Lemma elem_of_insert k v (l : list (bytes * bytes)) kv :
  kv ∈ insert k v l → kv = (k, v) ∨ kv ∈ l.
Proof.
  induction l as [|[k' v'] l IH]; simpl.
  - intros Hin. apply list_elem_of_singleton in Hin. by left.
  - destruct (bytesCompare k k').
    + intros Hin. apply elem_of_cons in Hin as [->|Hin]; [by left|].
      right. by right.
    + intros Hin. apply elem_of_cons in Hin as [->|Hin]; [by left | by right].
    + intros Hin. apply elem_of_cons in Hin as [->|Hin]; [right; by left|].
      destruct (IH Hin) as [->|Hl]; [by left | right; by right].
Qed.

(** The backend keeps its committed pairs in key order. *)
Lemma insert_ordered k v (l : list (bytes * bytes)) :
  ordered l → ordered (insert k v l).
Proof.
  unfold ordered. intros Hl.
  induction Hl as [|[k' v'] l Hl IH Hall]; simpl.
  - repeat constructor.
  - destruct (bytesCompare k k') eqn:E.
    + apply bytesCompare_eq in E as ->. by constructor.
    + constructor; [by constructor|]. constructor; [done|].
      eapply Forall_impl; [exact Hall|]. intros kv Hkv. simpl in *.
      by eapply bytesCompare_lt_trans.
    + constructor; [done|]. apply Forall_forall. intros kv Hin.
      apply elem_of_insert in Hin as [->|Hin].
      * simpl. by rewrite bytesCompare_antisym, E.
      * rewrite Forall_forall in Hall. by apply Hall.
Qed.

Lemma flushPuts_ordered (d : state) :
  ordered (committed d) → ordered (committed (flushPuts d).1).
Proof.
  unfold flushPuts. simpl. generalize (committed d).
  induction (staged d) as [|[k v] puts IH]; intros l Hl; simpl; [done|].
  apply IH. by apply insert_ordered.
Qed.

End KeyOrder.

Section HeightCodec.
Import MemKV Temporal.
Local Arguments byteVal : simpl never.

Lemma byteVal_hexDigit (d : Z) :
  0 ≤ d < 16 → byteVal (hexDigit d) = if decide (d < 10) then 48 + d else 87 + d.
Proof.
  intros Hd. unfold hexDigit. destruct (decide (d < 10)); apply byteVal_byteOf; lia.
Qed.

Lemma hexVal_hexDigit (d : Z) : 0 ≤ d < 16 → hexVal (hexDigit d) = d.
Proof.
  intros Hd. unfold hexVal. rewrite byteVal_hexDigit by done.
  destruct (decide (d < 10)); [rewrite decide_True by lia | rewrite decide_False by lia]; lia.
Qed.

Lemma hexDigit_compare (a b : Z) :
  0 ≤ a < 16 → 0 ≤ b < 16 →
  (byteVal (hexDigit a) ?= byteVal (hexDigit b)) = (a ?= b).
Proof.
  intros Ha Hb. rewrite !byteVal_hexDigit by done.
  destruct (Z.compare_spec a b) as [->|H|H].
  - apply Z.compare_refl.
  - apply Z.compare_lt_iff. repeat destruct (decide _); lia.
  - apply Z.compare_gt_iff. repeat destruct (decide _); lia.
Qed.

Lemma length_fixedHex (w : nat) (n : Z) : length (fixedHex w n) = w.
Proof. revert n. induction w as [|w IH]; intros n; simpl; [done | by rewrite IH]. Qed.

Lemma pow16_S (w : nat) : 16 ^ Z.of_nat (S w) = 16 * 16 ^ Z.of_nat w.
Proof. rewrite Nat2Z.inj_succ, Z.pow_succ_r; lia. Qed.

Lemma fixedHex_compare (w : nat) (a b : Z) :
  0 ≤ a < 16 ^ Z.of_nat w → 0 ≤ b < 16 ^ Z.of_nat w →
  bytesCompare (fixedHex w a) (fixedHex w b) = (a ?= b).
Proof.
  revert a b. induction w as [|w IH]; intros a b Ha Hb.
  - simpl in *. assert (a = 0) as -> by lia. by assert (b = 0) as -> by lia.
  - rewrite pow16_S in Ha, Hb. simpl fixedHex. simpl bytesCompare.
    set (q := 16 ^ Z.of_nat w) in *.
    assert (0 < q) as Hq by (apply Z.pow_pos_nonneg; lia).
    pose proof (Z.div_mod a q ltac:(lia)) as Ea.
    pose proof (Z.div_mod b q ltac:(lia)) as Eb.
    pose proof (Z.mod_pos_bound a q Hq) as Ma.
    pose proof (Z.mod_pos_bound b q Hq) as Mb.
    assert (0 ≤ a / q < 16) as Da by (split; [apply Z.div_pos; lia | apply Z.div_lt_upper_bound; lia]).
    assert (0 ≤ b / q < 16) as Db by (split; [apply Z.div_pos; lia | apply Z.div_lt_upper_bound; lia]).
    rewrite hexDigit_compare by done.
    destruct (Z.compare_spec (a / q) (b / q)) as [E|E|E].
    + rewrite IH by done.
      destruct (Z.compare_spec (a mod q) (b mod q)) as [E'|E'|E'].
      * symmetry. apply Z.compare_eq_iff. lia.
      * symmetry. apply Z.compare_lt_iff. lia.
      * symmetry. apply Z.compare_gt_iff. lia.
    + symmetry. apply Z.compare_lt_iff. nia.
    + symmetry. apply Z.compare_gt_iff. nia.
Qed.

Lemma parseHex_fixedHex_from (w : nat) (acc n : Z) :
  0 ≤ n < 16 ^ Z.of_nat w →
  foldl (λ a c, a * 16 + hexVal c) acc (fixedHex w n) = acc * 16 ^ Z.of_nat w + n.
Proof.
  revert acc n. induction w as [|w IH]; intros acc n Hn.
  - simpl in *. lia.
  - rewrite pow16_S in *. simpl fixedHex. simpl foldl.
    set (q := 16 ^ Z.of_nat w) in *.
    assert (0 < q) as Hq by (apply Z.pow_pos_nonneg; lia).
    pose proof (Z.div_mod n q ltac:(lia)) as En.
    pose proof (Z.mod_pos_bound n q Hq) as Mn.
    assert (0 ≤ n / q < 16) as Dn by (split; [apply Z.div_pos; lia | apply Z.div_lt_upper_bound; lia]).
    rewrite hexVal_hexDigit by done. rewrite IH by done. fold q. lia.
Qed.

Lemma parseHex_fixedHex (w : nat) (n : Z) :
  0 ≤ n < 16 ^ Z.of_nat w → parseHex (fixedHex w n) = n.
Proof. intros Hn. unfold parseHex. rewrite parseHex_fixedHex_from by done. lia. Qed.

End HeightCodec.

(** ** Writes over the in-memory backend *)

Section MemWrites.
Import KV MemKV.

Lemma find_insert_eq k v (l : list (bytes * bytes)) : find k (insert k v l) = Some v.
Proof.
  induction l as [|[k' v'] l IH]; simpl.
  - by rewrite bytesCompare_refl.
  - destruct (bytesCompare k k') eqn:E; simpl.
    + by rewrite bytesCompare_refl.
    + by rewrite bytesCompare_refl.
    + by rewrite E.
Qed.

Lemma find_insert_ne k k' v (l : list (bytes * bytes)) :
  k ≠ k' → find k' (insert k v l) = find k' l.
Proof.
  intros Hne. assert (bytesCompare k' k ≠ Eq) as Hc.
  { intros H. apply bytesCompare_eq in H. by subst. }
  induction l as [|[k1 v1] l IH]; simpl.
  - by destruct (bytesCompare k' k).
  - destruct (bytesCompare k k1) eqn:E; simpl.
    + apply bytesCompare_eq in E as <-. by destruct (bytesCompare k' k).
    + by destruct (bytesCompare k' k).
    + by rewrite IH.
Qed.

Lemma find_foldl_insert_in k v (puts l : list (bytes * bytes)) :
  (k, v) ∈ puts → (∀ v', (k, v') ∈ puts → v' = v) →
  find k (foldl (λ l kv, insert kv.1 kv.2 l) l puts) = Some v.
Proof.
  revert l. induction puts as [|[k1 v1] puts IH] using rev_ind; intros l Hin Hall.
  - by apply elem_of_nil in Hin.
  - rewrite foldl_app. simpl. destruct (decide (k1 = k)) as [->|Hne].
    + rewrite (Hall v1) by (apply elem_of_app; right; by left).
      apply find_insert_eq.
    + rewrite find_insert_ne by done. apply IH.
      * apply elem_of_app in Hin as [Hin|Hin]; [done|].
        apply list_elem_of_singleton in Hin. congruence.
      * intros v' Hv'. apply Hall, elem_of_app. by left.
Qed.

Lemma find_foldl_insert_notin k (puts l : list (bytes * bytes)) :
  (∀ v, (k, v) ∉ puts) →
  find k (foldl (λ l kv, insert kv.1 kv.2 l) l puts) = find k l.
Proof.
  revert l. induction puts as [|[k1 v1] puts IH]; intros l Hno; simpl; [done|].
  rewrite IH by (intros v Hv; apply (Hno v); by right).
  apply find_insert_ne. intros ->. apply (Hno v1). by left.
Qed.

Lemma putMutations_mem tblName kvs (s : KVStore backend) :
  putMutations tblName kvs s
    = (mkStore ({| committed := committed (db s);
                   staged := staged (db s)
                     ++ ((λ kv, (packKey tblName kv.1, default [] kv.2)) <$> kvs) |}
                  : dbState backend)
         (calls s ++ ((λ kv, CallPut (packKey tblName kv.1) kv.2) <$> kvs)),
       None).
Proof.
  revert s. induction kvs as [|[k v] kvs IH]; intros [[c st] cl]; simpl.
  - by rewrite !app_nil_r.
  - unfold Put. simpl. rewrite IH. simpl. by rewrite <- !app_assoc.
Qed.

Lemma flushTables_mem order (b : batch) tbls (s : KVStore backend) :
  flushTables order b tbls s
    = (mkStore ({| committed := committed (db s);
                   staged := staged (db s)
                     ++ concat ((λ tbl, (λ kv, (packKey tbl kv.1, default [] kv.2))
                                          <$> rangeOf order tbl (mutsOf b tbl)) <$> tbls) |}
                  : dbState backend)
         (calls s ++ concat (putsOf order b <$> tbls)),
       None).
Proof.
  revert s. induction tbls as [|t tbls IH]; intros [[c st] cl]; simpl.
  - by rewrite !app_nil_r.
  - destruct (decide (Z.of_nat (size (mutsOf b t)) ≤ 0)) as [Hz|Hz].
    + assert (mutsOf b t = ∅) as E by (apply map_size_empty_inv; lia).
      rewrite IH. simpl. unfold putsOf at 2. by rewrite E, rangeOf_empty.
    + rewrite putMutations_mem. simpl. rewrite IH. simpl.
      by rewrite <- !app_assoc.
Qed.

Lemma Flush_mem order (b : batch) (s : KVStore backend) :
  Flush order b s
    = (Reset b,
       mkStore ({| committed := foldl (λ l kv, insert kv.1 kv.2 l) (committed (db s))
                                  (staged (db s) ++ stagedBy order b);
                   staged := [] |} : dbState backend)
         (calls s ++ flushCalls order b),
       None).
Proof.
  unfold Flush. rewrite flushTables_mem. unfold FlushPuts. simpl.
  unfold flushCalls, stagedBy, tableNames. simpl.
  by rewrite !app_nil_r, <- !app_assoc.
Qed.

Lemma elem_of_concat {A} (x : A) (ls : list (list A)) :
  x ∈ concat ls ↔ ∃ l, x ∈ l ∧ l ∈ ls.
Proof.
  induction ls as [|l ls IH]; simpl.
  - split; [by intros ?%elem_of_nil | by intros (? & _ & ?%elem_of_nil)].
  - rewrite elem_of_app, IH. split.
    + intros [H | (l' & H1 & H2)]; [exists l; split; [done | by left]|].
      exists l'. split; [done | by right].
    + intros (l' & H1 & H2). apply elem_of_cons in H2 as [->|H2]; [by left|].
      right. by exists l'.
Qed.

Lemma elem_of_stagedBy order (b : batch) key v :
  (key, v) ∈ stagedBy order b ↔
  ∃ t k w, t ∈ tableNames ∧ mutsOf b t !! k = Some w ∧
           key = packKey t k ∧ v = default [] w.
Proof.
  unfold stagedBy. rewrite elem_of_concat. split.
  - intros (l & Hin & Hl). apply list_elem_of_fmap in Hl as (t & -> & Ht).
    apply list_elem_of_fmap in Hin as ([k w] & [= -> ->] & Hkw).
    rewrite rangeOf_perm in Hkw. apply elem_of_map_to_list in Hkw.
    by exists t, k, w.
  - intros (t & k & w & Ht & Hkw & -> & ->).
    exists ((λ kv, (packKey t kv.1, default [] kv.2)) <$> rangeOf order t (mutsOf b t)).
    split.
    + apply list_elem_of_fmap. exists (k, w). split; [done|].
      rewrite rangeOf_perm. by apply elem_of_map_to_list.
    + apply list_elem_of_fmap. by exists t.
Qed.

End MemWrites.

(** ** The singlet read path *)

Section SingletRead.
Import KV MemKV FluxDB Temporal.
Local Arguments byteVal : simpl never.
Local Arguments HexRevHeight : simpl never.

Lemma bytesOf_KeyAt (singlet : string) (h : Z) :
  bytesOf (KeyAt singlet h) = hexOfBytes (bytesOf singlet) ++ "/"%char :: HexRevHeight h.
Proof.
  unfold KeyAt, hexKey. rewrite !bytesOf_app. by rewrite !bytesOf_stringOf.
Qed.

Lemma packKey_KeyAt (singlet : string) (h : Z) :
  packKey TblPrefixRows (KeyAt singlet h)
    = (TblPrefixRows :: hexOfBytes (bytesOf singlet)) ++ "/"%char :: HexRevHeight h.
Proof. unfold packKey. by rewrite bytesOf_KeyAt. Qed.

Lemma packKey_KeyEnd (singlet : string) :
  packKey TblPrefixRows (KeyEnd singlet)
    = (TblPrefixRows :: hexOfBytes (bytesOf singlet)) ++ ["0"%char].
Proof. unfold packKey, KeyEnd, hexKey. by rewrite bytesOf_app, bytesOf_stringOf. Qed.

Lemma packKey_slash (singlet : string) :
  packKey TblPrefixRows (hexKey singlet +:+ "/")
    = (TblPrefixRows :: hexOfBytes (bytesOf singlet)) ++ ["/"%char].
Proof. unfold packKey, hexKey. by rewrite bytesOf_app, bytesOf_stringOf. Qed.

Lemma HexRevHeight_compare (h1 h2 : Z) :
  0 ≤ h1 < 2 ^ 64 → 0 ≤ h2 < 2 ^ 64 →
  bytesCompare (HexRevHeight h1) (HexRevHeight h2) = (h2 ?= h1).
Proof.
  intros H1 H2. unfold HexRevHeight.
  rewrite fixedHex_compare.
  - unfold MAX_HEIGHT, maxUint64.
    destruct (Z.compare_spec h2 h1) as [->|H|H].
    + apply Z.compare_refl.
    + apply Z.compare_lt_iff. lia.
    + apply Z.compare_gt_iff. lia.
  - change (16 ^ Z.of_nat heightWidth) with (2 ^ 64). unfold MAX_HEIGHT, maxUint64. lia.
  - change (16 ^ Z.of_nat heightWidth) with (2 ^ 64). unfold MAX_HEIGHT, maxUint64. lia.
Qed.

Local Opaque HexRevHeight.

Lemma KeyAt_compare (singlet : string) (h1 h2 : Z) :
  0 ≤ h1 < 2 ^ 64 → 0 ≤ h2 < 2 ^ 64 →
  bytesCompare (packKey TblPrefixRows (KeyAt singlet h1))
               (packKey TblPrefixRows (KeyAt singlet h2)) = (h2 ?= h1).
Proof.
  intros H1 H2. rewrite !packKey_KeyAt, bytesCompare_app.
  etrans; [apply (bytesCompare_app ["/"%char]) | by apply HexRevHeight_compare].
Qed.

Lemma KeyAt_before_KeyEnd (singlet : string) (h : Z) :
  bytesLt (packKey TblPrefixRows (KeyAt singlet h))
          (packKey TblPrefixRows (KeyEnd singlet)) = true.
Proof.
  unfold bytesLt. by rewrite packKey_KeyAt, packKey_KeyEnd, bytesCompare_app.
Qed.

Lemma inScan_hasPrefix singlet h kv :
  inScan singlet h kv →
  hasPrefix (packKey TblPrefixRows (hexKey singlet +:+ "/")) kv.1 = true.
Proof.
  unfold inScan. intros H. apply andb_true_iff in H as [H1 H2].
  rewrite packKey_slash. rewrite packKey_KeyAt in H1. rewrite packKey_KeyEnd in H2.
  by apply (range_hasPrefix _ (HexRevHeight h) _ "/"%char "0"%char).
Qed.

Lemma inScan_rowOf singlet h e :
  singletKey e = singlet → 0 ≤ entryHeight e < 2 ^ 64 → 0 ≤ h < 2 ^ 64 →
  inScan singlet h (rowOf e) ↔ entryHeight e ≤ h.
Proof.
  intros <- He Hh. unfold inScan, rowOf, keyOf. simpl.
  rewrite KeyAt_before_KeyEnd, andb_true_r. unfold bytesLe.
  rewrite KeyAt_compare by done.
  destruct (Z.compare_spec (entryHeight e) h); split; (done || lia).
Qed.

(** *** Entity keys do not run into one another *)

Lemma hexDigit_not_separator (d : Z) : 0 ≤ d < 16 → hexDigit d ≠ "/"%char.
Proof.
  intros Hd E. apply (f_equal byteVal) in E. rewrite byteVal_hexDigit in E by done.
  change (byteVal "/"%char) with 47 in E. destruct (decide (d < 10)); lia.
Qed.

Lemma byte_digits (c : byte) :
  0 ≤ byteVal c / 16 < 16 ∧ 0 ≤ byteVal c mod 16 < 16.
Proof.
  pose proof (byteVal_range c) as Hc. split.
  - split; [apply Z.div_pos; lia | apply Z.div_lt_upper_bound; lia].
  - apply Z.mod_pos_bound. lia.
Qed.

Lemma hexOfBytes_no_separator (b : bytes) : "/"%char ∉ hexOfBytes b.
Proof.
  induction b as [|c b IH]; simpl; [by intros ?%elem_of_nil|].
  destruct (byte_digits c) as [Hq Hr].
  intros Hin. apply elem_of_cons in Hin as [E|Hin].
  { by apply (hexDigit_not_separator _ Hq). }
  apply elem_of_cons in Hin as [E|Hin]; [|done].
  by apply (hexDigit_not_separator _ Hr).
Qed.

Lemma hexDigit_inj (a b : Z) :
  0 ≤ a < 16 → 0 ≤ b < 16 → hexDigit a = hexDigit b → a = b.
Proof.
  intros Ha Hb E. apply (f_equal hexVal) in E. by rewrite !hexVal_hexDigit in E.
Qed.

Lemma hexOfBytes_inj (a b : bytes) : hexOfBytes a = hexOfBytes b → a = b.
Proof.
  revert b. induction a as [|x a IH]; intros [|y b]; simpl; try done.
  intros [= Eq Er E].
  destruct (byte_digits x) as [Hxq Hxr]. destruct (byte_digits y) as [Hyq Hyr].
  apply hexDigit_inj in Eq; [|done..]. apply hexDigit_inj in Er; [|done..].
  f_equal; [|by apply IH]. apply byteVal_inj.
  rewrite (Z.div_mod (byteVal x) 16), (Z.div_mod (byteVal y) 16) by lia. lia.
Qed.

(** Two keys cut at their first separator: when one is a prefix of the
    other up to its separator, they have the same part before it. *)
Lemma separator_prefix (sep : byte) (p q y : bytes) :
  sep ∉ p → sep ∉ q →
  hasPrefix (p ++ [sep]) (q ++ sep :: y) = true → p = q.
Proof.
  revert q. induction p as [|a p IH]; intros [|b q] Hp Hq; simpl; try done.
  - case_decide; [subst|discriminate].
    intros _. exfalso. apply Hq. by left.
  - case_decide; [subst|discriminate].
    intros _. exfalso. apply Hp. by left.
  - case_decide; [subst|discriminate].
    intros H. f_equal. apply IH; [| |done].
    + intros Hin. apply Hp. by right.
    + intros Hin. apply Hq. by right.
Qed.

Lemma hasPrefix_keyOf (singlet : string) (e : SingletEntry) :
  hasPrefix (packKey TblPrefixRows (hexKey singlet +:+ "/")) (keyOf e) = true →
  singletKey e = singlet.
Proof.
  unfold keyOf. rewrite packKey_slash, packKey_KeyAt.
  rewrite <- !app_comm_cons. cbn [hasPrefix]. rewrite decide_True by done. intros H.
  apply separator_prefix in H; [|apply hexOfBytes_no_separator..].
  apply hexOfBytes_inj, bytesOf_inj in H. done.
Qed.

Lemma keyOf_inj (e e' : SingletEntry) :
  0 ≤ entryHeight e < 2 ^ 64 → 0 ≤ entryHeight e' < 2 ^ 64 →
  keyOf e = keyOf e' → singletKey e = singletKey e' ∧ entryHeight e = entryHeight e'.
Proof.
  intros He He' E.
  assert (singletKey e' = singletKey e) as Hk.
  { apply hasPrefix_keyOf. rewrite <- E. unfold keyOf.
    rewrite packKey_slash, packKey_KeyAt.
    rewrite (cons_middle "/"%char _ (HexRevHeight (entryHeight e))).
    rewrite app_assoc. apply hasPrefix_app. }
  split; [done|].
  pose proof (KeyAt_compare (singletKey e) (entryHeight e) (entryHeight e') He He') as Hc.
  unfold keyOf in E. rewrite Hk in E. rewrite E, bytesCompare_refl in Hc.
  symmetry in Hc. apply Z.compare_eq in Hc. done.
Qed.

(** *** First hit of the scan *)

(** In a list in strict order, the first element a filter keeps is the one
    that is below every other element kept. *)
Lemma head_filter_ordered (P : bytes * bytes → Prop) `{!∀ kv, Decision (P kv)}
  (l : list (bytes * bytes)) (x : bytes * bytes) :
  ordered l → x ∈ l → P x →
  (∀ y, y ∈ l → P y → y = x ∨ bytesCompare x.1 y.1 = Lt) →
  head (filter P l) = Some x.
Proof.
  intros Hl. induction Hl as [|y l Hl IH Hy]; intros Hx HP Hmin.
  - by apply elem_of_nil in Hx.
  - rewrite filter_cons. apply elem_of_cons in Hx as [->|Hx].
    + by rewrite decide_True.
    + destruct (decide (P y)) as [HPy|HPy].
      * simpl. destruct (Hmin y) as [->|Hlt]; [by left | done | done |].
        rewrite Forall_forall in Hy. specialize (Hy x Hx).
        rewrite (bytesCompare_antisym y.1 x.1), Hy in Hlt. done.
      * apply IH; [done | done |]. intros z Hz. apply Hmin. by right.
Qed.

Lemma filter_none (P : bytes * bytes → Prop) `{!∀ kv, Decision (P kv)}
  (l : list (bytes * bytes)) :
  (∀ y, y ∈ l → ¬ P y) → filter P l = [].
Proof.
  induction l as [|y l IH]; intros Hnone; [done|].
  rewrite filter_cons, decide_False by (apply Hnone; by left).
  apply IH. intros z Hz. apply Hnone. by right.
Qed.

(** What [FetchSingletEntry] answers over the in-memory backend: the first
    row of the forward scan, or nothing. *)
Lemma FetchSingletEntry_first_hit (s : KVStore backend) (keyStart keyEnd : string) :
  keyEnd ≠ EmptyString →
  FetchSingletEntry s keyStart keyEnd =
    match head (itItems (scan (db s) (packKey TblPrefixRows keyStart)
                           (packKey TblPrefixRows keyEnd) Unlimited)) with
    | Some item => Some (stringOf (Key item), Value item, None)
    | None => Some (EmptyString, None, None)
    end.
Proof.
  intros Hend. unfold FetchSingletEntry, scanRange, scanEndKey.
  rewrite decide_True by done.
  change (dbScan backend) with scan. unfold scan. cbn [itItems itErr].
  set (hits := filter _ (committed (db s))).
  assert (∀ kv, kv ∈ hits → kv.1 ≠ []) as Hk.
  { intros kv Hin. apply list_elem_of_filter in Hin as [Hin _].
    apply andb_true_iff in Hin as [Hin _]. unfold bytesLe, packKey in Hin.
    destruct kv as [[|k0 k] v]; [simpl in Hin; discriminate | done]. }
  destruct hits as [|[k v] rest]; [reflexivity|].
  destruct k as [|k0 k]; [|reflexivity].
  exfalso. apply (Hk ([], v)); [by left | done].
Qed.

End SingletRead.

Section SingletWrite.
Import KV MemKV FluxDB Temporal.

Lemma rangeOf_singleton (order : RangeOrder) (t : byte) (k : string) (v : value) :
  rangeOf order t {[k := v]} = [(k, v)].
Proof.
  apply Permutation_singleton_r. rewrite rangeOf_perm. by rewrite map_to_list_singleton.
Qed.

(** One written entry is one row put and committed. *)
Lemma writeEntry_mem (order : RangeOrder) (s : KVStore backend) (e : SingletEntry) :
  ∃ s', writeEntry order s e = Some (s', None) ∧
        committed (db s') = foldl (λ l kv, insert kv.1 kv.2 l) (committed (db s))
                              (staged (db s) ++ [rowOf e]) ∧
        staged (db s') = [].
Proof.
  unfold writeEntry, SetRow, setTable.
  change (tableMutations newBatch !! TblPrefixRows) with (Some (∅ : gmap string value)).
  cbn [mbind option_bind]. rewrite Flush_mem. eexists. split; [reflexivity|].
  cbn [db committed staged]. split; [|done]. f_equal. f_equal.
  unfold stagedBy, tableNames, mutsOf. cbn [fmap list_fmap concat tableMutations].
  rewrite lookup_insert_eq, !lookup_insert_ne by done.
  change (tableMutations newBatch !! TblPrefixIndex) with (Some (∅ : gmap string value)).
  change (tableMutations newBatch !! TblPrefixLast) with (Some (∅ : gmap string value)).
  cbn [default from_option id].
  change (<[KeyAt (singletKey e) (entryHeight e) := Some (entryValue e)]> ∅)
    with ({[KeyAt (singletKey e) (entryHeight e) := Some (entryValue e)]}
            : gmap string value).
  by rewrite rangeOf_singleton, !rangeOf_empty.
Qed.

Lemma writeEntries_mem (order : RangeOrder) (written : list SingletEntry)
  (s : KVStore backend) :
  staged (db s) = [] →
  ∃ s', writeEntries order s written = Some (s', None) ∧
        committed (db s') = foldl (λ l kv, insert kv.1 kv.2 l) (committed (db s))
                              (rowOf <$> written) ∧
        staged (db s') = [].
Proof.
  revert s. induction written as [|e written IH]; intros s Hs.
  - by exists s.
  - destruct (writeEntry_mem order s e) as (s1 & Hw & Hc & Hst).
    destruct (IH s1 Hst) as (s' & Hw' & Hc' & Hst').
    exists s'. cbn [writeEntries]. rewrite Hw. cbn [mbind option_bind].
    split; [done|]. split; [|done].
    rewrite Hc', Hc, Hs. done.
Qed.

Lemma foldl_insert_ordered (puts l : list (bytes * bytes)) :
  ordered l → ordered (foldl (λ l kv, insert kv.1 kv.2 l) l puts).
Proof.
  revert l. induction puts as [|[k v] puts IH]; intros l Hl; simpl; [done|].
  apply IH. by apply insert_ordered.
Qed.

Lemma elem_of_foldl_insert (puts l : list (bytes * bytes)) kv :
  kv ∈ foldl (λ l kv, insert kv.1 kv.2 l) l puts → kv ∈ l ∨ kv ∈ puts.
Proof.
  revert l. induction puts as [|[k v] puts IH]; intros l; simpl; [by left|].
  intros Hin. apply IH in Hin as [Hin|Hin]; [|right; by right].
  apply elem_of_insert in Hin as [->|Hin]; [right; by left | by left].
Qed.

Lemma find_elem_of k v (l : list (bytes * bytes)) : find k l = Some v → (k, v) ∈ l.
Proof.
  induction l as [|[k' v'] l IH]; simpl; [done|].
  destruct (bytesCompare k k') eqn:E.
  - apply bytesCompare_eq in E as ->. intros [= ->]. by left.
  - intros H. right. by apply IH.
  - intros H. right. by apply IH.
Qed.

Lemma ascending_same_height singlet versions e e' :
  ascending singlet versions → e ∈ versions → e' ∈ versions →
  entryHeight e = entryHeight e' → e = e'.
Proof.
  intros [_ Hsorted]. induction Hsorted as [|x l Hl IH Hx]; intros He He' Hh.
  - by apply elem_of_nil in He.
  - rewrite Forall_forall in Hx.
    apply elem_of_cons in He as [->|He]; apply elem_of_cons in He' as [->|He'].
    + done.
    + specialize (Hx e' He'). lia.
    + specialize (Hx e He). lia.
    + by apply IH.
Qed.

(** The versions of a singlet among the entries written are in order and
    are what the store holds for it. *)
Lemma written_versions (d : state) singlet written versions :
  Forall (λ e, 0 ≤ entryHeight e < 2 ^ 64) written →
  versionsOf singlet written versions →
  committed d = foldl (λ l kv, insert kv.1 kv.2 l) [] (rowOf <$> written) →
  ascending singlet versions ∧ holdsVersions d singlet versions.
Proof.
  intros Hrange [Hperm Hsorted] Hd. rewrite Forall_forall in Hrange.
  assert (∀ e, e ∈ versions ↔ e ∈ written ∧ singletKey e = singlet) as Hin.
  { intros e. rewrite <- Hperm, list_elem_of_filter. tauto. }
  assert (ascending singlet versions) as Hasc.
  { split; [|done]. apply Forall_forall. intros e He.
    apply Hin in He as [He Hk]. split; [done | by apply Hrange]. }
  split; [done|]. split; [|split].
  - rewrite Hd. apply foldl_insert_ordered. constructor.
  - apply Forall_forall. intros e He. pose proof He as Hver.
    apply Hin in He as [He Hk].
    apply find_elem_of. rewrite Hd. apply find_foldl_insert_in.
    + apply list_elem_of_fmap. by exists e.
    + intros v' Hv'. apply list_elem_of_fmap in Hv' as (e' & Hrow & He').
      unfold rowOf in Hrow. apply pair_eq in Hrow as [Hkey ->].
      apply keyOf_inj in Hkey as [Hk' Hh]; [|by apply Hrange..].
      assert (e' ∈ versions) as Hver' by (apply Hin; split; [done | congruence]).
      by rewrite (ascending_same_height singlet versions e e' Hasc Hver Hver' Hh).
  - apply Forall_forall. intros kv Hkv.
    apply list_elem_of_filter in Hkv as [Hpre Hkv].
    rewrite Hd in Hkv. apply elem_of_foldl_insert in Hkv as [Hkv|Hkv].
    { by apply elem_of_nil in Hkv. }
    apply list_elem_of_fmap in Hkv as (e & -> & He).
    apply list_elem_of_fmap. exists e. split; [done|].
    apply Hin. split; [done|]. by apply hasPrefix_keyOf.
Qed.

End SingletWrite.

Section SingletReadTheorem.
Import KV MemKV FluxDB Temporal.
Local Arguments byteVal : simpl never.
Local Arguments HexRevHeight : simpl never.

Lemma heightOfKey_keyOf (e : SingletEntry) :
  0 ≤ entryHeight e < 2 ^ 64 → heightOfKey (stringOf (keyOf e)) = entryHeight e.
Proof.
  intros He. unfold heightOfKey, keyOf. rewrite bytesOf_stringOf, packKey_KeyAt.
  change (?p ++ "/"%char :: ?x) with (p ++ ["/"%char] ++ x).
  rewrite app_assoc, length_app.
  assert (length (HexRevHeight (entryHeight e)) = heightWidth) as ->
    by apply length_fixedHex.
  rewrite Nat.add_sub, drop_app_length.
  unfold HexRevHeight. rewrite parseHex_fixedHex; [lia|].
  change (16 ^ Z.of_nat heightWidth) with (2 ^ 64). unfold MAX_HEIGHT, maxUint64. lia.
Qed.

(** A stored row is read back as the entry it was written from, whatever
    its payload and whether it is a tombstone or not. *)
Lemma entryOfRow_rowOf (singlet : string) (e : SingletEntry) :
  singletKey e = singlet → 0 ≤ entryHeight e < 2 ^ 64 →
  entryOfRow singlet (stringOf (keyOf e)) (Some (entryValue e)) = e.
Proof.
  intros Hk Hh. unfold entryOfRow. rewrite heightOfKey_keyOf by done.
  unfold entryValue. destruct e as [k h' p [|]]; simpl in *; by subst.
Qed.

Lemma keyOf_nonempty (e : SingletEntry) : stringOf (keyOf e) ≠ EmptyString.
Proof. unfold keyOf, packKey. simpl. discriminate. Qed.

(** The rows a scan for the singlet selects are versions at or below the
    query height. *)
Lemma inScan_version (d : state) singlet versions h kv :
  ascending singlet versions → holdsVersions d singlet versions →
  0 ≤ h < 2 ^ 64 →
  kv ∈ committed d → inScan singlet h kv →
  ∃ e, e ∈ versions ∧ kv = rowOf e ∧ entryHeight e ≤ h.
Proof.
  intros [Hv _] (_ & _ & Hrows) Hh Hin Hscan.
  rewrite Forall_forall in Hrows. rewrite Forall_forall in Hv.
  assert (kv ∈ rowOf <$> versions) as Hkv.
  { apply Hrows. apply list_elem_of_filter. split; [|done].
    by apply (inScan_hasPrefix singlet h). }
  apply list_elem_of_fmap in Hkv as (e & -> & He). exists e.
  split; [done|]. split; [done|].
  destruct (Hv e He) as (Hk & Hr).
  by apply (inScan_rowOf singlet h e Hk Hr Hh).
Qed.

Lemma first_hit_latest (d : state) singlet versions h pre e post :
  ascending singlet versions → holdsVersions d singlet versions →
  0 ≤ h < 2 ^ 64 →
  versions = pre ++ e :: post → entryHeight e ≤ h →
  (∀ e', e' ∈ post → h < entryHeight e') →
  head (filter (inScan singlet h) (committed d)) = Some (rowOf e).
Proof.
  intros Hv Hd Hh Hsplit He Hpost.
  pose proof Hv as [Hlive Hsorted]. pose proof Hd as (Hord & Hstored & _).
  rewrite Forall_forall in Hlive. rewrite Forall_forall in Hstored.
  assert (e ∈ versions) as Hin by (rewrite Hsplit; apply elem_of_app; right; by left).
  destruct (Hlive e Hin) as (Hk & Hr).
  apply head_filter_ordered; [done | by apply Hstored | by apply inScan_rowOf |].
  intros y Hy Hscan.
  destruct (inScan_version d singlet versions h y Hv Hd Hh Hy Hscan)
    as (e' & He' & -> & Hle).
  rewrite Hsplit in He'. apply elem_of_app in He' as [He'|He'].
  - right. change (bytesCompare (keyOf e) (keyOf e') = Lt). unfold keyOf.
    assert (e' ∈ versions) as Hin' by (rewrite Hsplit; apply elem_of_app; by left).
    destruct (Hlive e' Hin') as (Hk' & Hr').
    rewrite Hk, Hk'. rewrite KeyAt_compare by done.
    apply Z.compare_lt_iff. rewrite Hsplit in Hsorted.
    apply (StronglySorted_app_1_elem_of _ pre (e :: post) e' e Hsorted He').
    by left.
  - apply elem_of_cons in He' as [->|He']; [by left|].
    specialize (Hpost e' He'). lia.
Qed.

Lemma first_hit_none (d : state) singlet versions h :
  ascending singlet versions → holdsVersions d singlet versions →
  0 ≤ h < 2 ^ 64 →
  (∀ e, e ∈ versions → h < entryHeight e) →
  filter (inScan singlet h) (committed d) = [].
Proof.
  intros Hv Hd Hh Hall. apply filter_none. intros y Hy Hscan.
  destruct (inScan_version d singlet versions h y Hv Hd Hh Hy Hscan)
    as (e & He & _ & Hle).
  specialize (Hall e He). lia.
Qed.

Lemma scan_unlimited (d : state) (start exclusiveEnd : bytes) :
  itItems (scan d start exclusiveEnd Unlimited)
    = toItem <$> filter (λ kv, bytesLe start kv.1 && bytesLt kv.1 exclusiveEnd = true)
                   (committed d).
Proof. reflexivity. Qed.

Lemma KeyEnd_nonempty (singlet : string) : KeyEnd singlet ≠ EmptyString.
Proof.
  unfold KeyEnd. intros H. apply (f_equal bytesOf) in H.
  rewrite bytesOf_app in H. by destruct (bytesOf (hexKey singlet)).
Qed.

Lemma ReadSingletEntryAt_of_fetch (s : KVStore backend) singlet h key v :
  FetchSingletEntry s (KeyAt singlet h) (KeyEnd singlet) = Some (key, v, None) →
  ReadSingletEntryAt s singlet h [] =
    Some (if decide (key = EmptyString) then None
          else visible (entryOfRow singlet key v), None).
Proof.
  intros H. unfold ReadSingletEntryAt, visible. rewrite H.
  cbn [mbind option_bind speculativeEntry].
  destruct (decide (key = EmptyString)); [done|].
  by destruct (entryIsDeletion (entryOfRow singlet key v)).
Qed.

Lemma FetchSingletEntry_hits (s : KVStore backend) singlet h :
  FetchSingletEntry s (KeyAt singlet h) (KeyEnd singlet) =
    match head (filter (inScan singlet h) (committed (db s))) with
    | Some kv => Some (stringOf kv.1, Some kv.2, None)
    | None => Some (EmptyString, None, None)
    end.
Proof.
  rewrite FetchSingletEntry_first_hit by apply KeyEnd_nonempty.
  rewrite scan_unlimited.
  change (filter _ (committed (db s))) with (filter (inScan singlet h) (committed (db s))).
  by destruct (filter (inScan singlet h) (committed (db s))).
Qed.

Lemma ReadSingletEntryAt_latest (s : KVStore backend) singlet versions h pre e post :
  ascending singlet versions → holdsVersions (db s) singlet versions →
  0 ≤ h < 2 ^ 64 →
  versions = pre ++ e :: post → entryHeight e ≤ h →
  (∀ e', e' ∈ post → h < entryHeight e') →
  ReadSingletEntryAt s singlet h [] = Some (visible e, None).
Proof.
  intros Hv Hd Hh Hsplit He Hpost.
  pose proof (first_hit_latest (db s) singlet versions h pre e post
                Hv Hd Hh Hsplit He Hpost) as Hhit.
  rewrite (ReadSingletEntryAt_of_fetch s singlet h (stringOf (keyOf e))
             (Some (entryValue e)))
    by (by rewrite FetchSingletEntry_hits, Hhit).
  rewrite decide_False by apply keyOf_nonempty.
  destruct Hv as [Hlive _]. rewrite Forall_forall in Hlive.
  assert (e ∈ versions) as Hin by (rewrite Hsplit; apply elem_of_app; right; by left).
  destruct (Hlive e Hin) as (Hk & Hr).
  by rewrite (entryOfRow_rowOf singlet e Hk Hr).
Qed.

Lemma ReadSingletEntryAt_absent (s : KVStore backend) singlet versions h :
  ascending singlet versions → holdsVersions (db s) singlet versions →
  0 ≤ h < 2 ^ 64 →
  (∀ e, e ∈ versions → h < entryHeight e) →
  ReadSingletEntryAt s singlet h [] = Some (None, None).
Proof.
  intros Hv Hd Hh Hall.
  pose proof (first_hit_none (db s) singlet versions h Hv Hd Hh Hall) as Hnone.
  rewrite (ReadSingletEntryAt_of_fetch s singlet h EmptyString None)
    by (by rewrite FetchSingletEntry_hits, Hnone).
  by rewrite decide_True.
Qed.

(** C6: write any entries, of any singlets, to a fresh store, each through
    a batch and its flush, the entries of one singlet being its versions at
    heights [h1 < ... < hn]. Every write succeeds, and a read of that
    singlet at [h] then answers absent when [h < h1] (or when the singlet
    has no version), the version at [hi] when [hi ≤ h < h(i+1)], and the
    version at [hn] when [hn ≤ h], a version that is a tombstone being
    answered as absent; what [FetchSingletEntry] hands back is the first
    row of the forward scan from the key of the query height. *)
Theorem ReadSingletEntryAt_version_at_or_below (order : RangeOrder)
  (written : list SingletEntry) (singlet : string) (versions : list SingletEntry)
  (h : Z) :
  Forall (λ e, 0 ≤ entryHeight e < 2 ^ 64) written →
  versionsOf singlet written versions →
  0 ≤ h < 2 ^ 64 →
  ∃ s : KVStore backend,
    writeEntries order newStore written = Some (s, None) ∧
    (versions = [] → ReadSingletEntryAt s singlet h [] = Some (None, None)) ∧
    (∀ e1 rest, versions = e1 :: rest → h < entryHeight e1 →
       ReadSingletEntryAt s singlet h [] = Some (None, None)) ∧
    (∀ pre e e' post, versions = pre ++ e :: e' :: post →
       entryHeight e ≤ h < entryHeight e' →
       ReadSingletEntryAt s singlet h [] = Some (visible e, None)) ∧
    (∀ pre e, versions = pre ++ [e] → entryHeight e ≤ h →
       ReadSingletEntryAt s singlet h [] = Some (visible e, None)) ∧
    FetchSingletEntry s (KeyAt singlet h) (KeyEnd singlet) =
      match head (itItems (scan (db s) (packKey TblPrefixRows (KeyAt singlet h))
                             (packKey TblPrefixRows (KeyEnd singlet)) Unlimited)) with
      | Some item => Some (stringOf (Key item), Value item, None)
      | None => Some (EmptyString, None, None)
      end.
Proof.
  intros Hrange Hversions Hh.
  destruct (writeEntries_mem order written newStore eq_refl) as (s & Hw & Hc & _).
  destruct (written_versions (db s) singlet written versions Hrange Hversions Hc)
    as [Hv Hd].
  exists s. split; [done|]. split; [|split; [|split; [|split]]].
  - intros ->. apply (ReadSingletEntryAt_absent s singlet [] h Hv Hd Hh).
    intros e He. by apply elem_of_nil in He.
  - intros e1 rest Hsplit Hlt.
    apply (ReadSingletEntryAt_absent s singlet versions h Hv Hd Hh).
    intros e He. destruct Hv as [_ Hsorted]. rewrite Hsplit in He, Hsorted.
    apply elem_of_cons in He as [->|He]; [done|].
    apply StronglySorted_inv in Hsorted as [_ Hall].
    rewrite Forall_forall in Hall. specialize (Hall e He). lia.
  - intros pre e e' post Hsplit [Hle Hlt].
    apply (ReadSingletEntryAt_latest s singlet versions h pre e (e' :: post)
             Hv Hd Hh Hsplit Hle).
    intros x Hx. apply elem_of_cons in Hx as [->|Hx]; [done|].
    destruct Hv as [_ Hsorted]. rewrite Hsplit in Hsorted.
    apply StronglySorted_app_1_r in Hsorted.
    apply StronglySorted_inv in Hsorted as [Hsorted _].
    apply StronglySorted_inv in Hsorted as [_ Hall].
    rewrite Forall_forall in Hall. specialize (Hall x Hx). lia.
  - intros pre e Hsplit Hle.
    apply (ReadSingletEntryAt_latest s singlet versions h pre e [] Hv Hd Hh Hsplit Hle).
    intros x Hx. by apply elem_of_nil in Hx.
  - apply FetchSingletEntry_first_hit, KeyEnd_nonempty.
Qed.

End SingletReadTheorem.

Lemma ReadSingletEntryAt_version_at_or_below_witness :
  Temporal.ReadSingletEntryAt Sample.singletStore "test" 2 [] = Some (None, None) ∧
  Temporal.ReadSingletEntryAt Sample.singletStore "test" 4 []
    = Some (Some (Sample.version 3 "3"), None) ∧
  Temporal.ReadSingletEntryAt Sample.singletStore "test" 6 []
    = Some (Some (Sample.version 5 "5"), None) ∧
  Temporal.ReadSingletEntryAt Sample.singletStore "test" 8 [] = Some (None, None) ∧
  Temporal.ReadSingletEntryAt Sample.singletStore "test" 10 []
    = Some (Some (Sample.version 9 ""), None).
Proof.
  assert (Forall (λ e, 0 ≤ FluxDB.entryHeight e < 2 ^ 64) Sample.history) as Hrange.
  { unfold Sample.history.
    repeat (apply List.Forall_cons; [simpl; lia|]). apply List.Forall_nil. }
  assert (Temporal.versionsOf "test" Sample.history Sample.versions) as Hv.
  { split.
    - assert (filter (λ e, FluxDB.singletKey e = "test"%string) Sample.history
              = Sample.versions) as -> by (vm_compute; reflexivity).
      reflexivity.
    - unfold Sample.versions.
      repeat (apply SSorted_cons;
                [|repeat (apply List.Forall_cons; [simpl; lia|]);
                  apply List.Forall_nil]).
      apply SSorted_nil. }
  assert (∀ h, 0 ≤ h < 2 ^ 64 →
            (∀ e1 rest, Sample.versions = e1 :: rest → h < FluxDB.entryHeight e1 →
               Temporal.ReadSingletEntryAt Sample.singletStore "test" h []
                 = Some (None, None)) ∧
            (∀ pre e e' post, Sample.versions = pre ++ e :: e' :: post →
               FluxDB.entryHeight e ≤ h < FluxDB.entryHeight e' →
               Temporal.ReadSingletEntryAt Sample.singletStore "test" h []
                 = Some (Temporal.visible e, None)) ∧
            (∀ pre e, Sample.versions = pre ++ [e] → FluxDB.entryHeight e ≤ h →
               Temporal.ReadSingletEntryAt Sample.singletStore "test" h []
                 = Some (Temporal.visible e, None))) as Hread.
  { intros h Hh.
    destruct (ReadSingletEntryAt_version_at_or_below KV.mapOrder Sample.history "test"
                Sample.versions h Hrange Hv Hh) as (s & Hw & _ & H1 & H2 & H3 & _).
    assert (Sample.singletStore = s) as ->
      by (unfold Sample.singletStore; rewrite Hw; reflexivity).
    exact (conj H1 (conj H2 H3)). }
  split; [|split; [|split; [|split]]].
  - apply (proj1 (Hread 2 ltac:(lia)) (Sample.version 3 "3")
             [Sample.version 5 "5"; Sample.tombstone 7; Sample.version 9 ""]);
      [reflexivity | simpl; lia].
  - apply (proj1 (proj2 (Hread 4 ltac:(lia)))
             [] (Sample.version 3 "3") (Sample.version 5 "5")
             [Sample.tombstone 7; Sample.version 9 ""]);
      [reflexivity | simpl; lia].
  - apply (proj1 (proj2 (Hread 6 ltac:(lia)))
             [Sample.version 3 "3"] (Sample.version 5 "5") (Sample.tombstone 7)
             [Sample.version 9 ""]);
      [reflexivity | simpl; lia].
  - apply (proj1 (proj2 (Hread 8 ltac:(lia)))
             [Sample.version 3 "3"; Sample.version 5 "5"] (Sample.tombstone 7)
             (Sample.version 9 "") []);
      [reflexivity | simpl; lia].
  - apply (proj2 (proj2 (Hread 10 ltac:(lia)))
             [Sample.version 3 "3"; Sample.version 5 "5"; Sample.tombstone 7]
             (Sample.version 9 ""));
      [reflexivity | simpl; lia].
Defined.

(** * Further properties *)

(** ** Key codec and tables *)

Section KeyCodecMore.
Import KV MemKV.
Local Arguments byteVal : simpl never.

Lemma packKey_eq_inv (t1 t2 : byte) (k1 k2 : string) :
  packKey t1 k1 = packKey t2 k2 → t1 = t2 ∧ bytesOf k1 = bytesOf k2.
Proof. unfold packKey. simpl. by intros [= -> H]. Qed.

(** X1: two physical keys are equal only when they pack the same table and
    the same key: no two entries of the three tables collide. *)
Theorem packKey_inj (t1 t2 : byte) (k1 k2 : string) :
  packKey t1 k1 = packKey t2 k2 → t1 = t2 ∧ k1 = k2.
Proof.
  intros H. apply packKey_eq_inv in H as [-> H]. split; [done | by apply bytesOf_inj].
Qed.

Lemma packKey_inj_witness :
  TblPrefixRows = TblPrefixRows ∧ "r1"%string = "r1"%string.
Proof. apply (packKey_inj TblPrefixRows TblPrefixRows "r1" "r1"). reflexivity. Defined.

(** X2: for a table prefix below [0xff], the range [scanRange] scans when
    it is given no end key, from the packed start key to the one-byte key
    [table + 1], holds the keys of that table from the start key on and no
    key of another table. *)
Theorem scanEndKey_bounds_table (table : byte) (keyStart : string) :
  byteVal table < 255 →
  (∀ k, bytesLt (packKey table k) (scanEndKey table "") = true) ∧
  (∀ key, bytesLe (packKey table keyStart) key = true →
          bytesLt key (scanEndKey table "") = true →
          ∃ k, key = packKey table k).
Proof.
  intros Ht. pose proof (byteVal_range table) as Hr.
  assert (byteVal (byteOf (byteVal table + 1)) = byteVal table + 1) as Hnext
    by (apply byteVal_byteOf; lia).
  unfold scanEndKey. rewrite decide_False by (by intros H; apply H).
  split.
  - intros k. unfold bytesLt, packKey. simpl. rewrite Hnext.
    by assert (byteVal table < byteVal table + 1) as ->%Z.compare_lt_iff by lia.
  - intros key Hle Hlt.
    pose proof (range_hasPrefix [] (bytesOf keyStart) key table
                  (byteOf (byteVal table + 1)) Hnext Hle Hlt) as Hp.
    destruct key as [|c rest]; simpl in Hp; [discriminate|].
    case_decide; [subst c | discriminate].
    exists (stringOf rest). unfold packKey. simpl. by rewrite bytesOf_stringOf.
Qed.

Lemma scanEndKey_bounds_table_witness :
  bytesLt (packKey TblPrefixLast "zzz") (scanEndKey TblPrefixLast "") = true.
Proof.
  apply (proj1 (scanEndKey_bounds_table TblPrefixLast "a" ltac:(vm_compute; reflexivity))).
Defined.

End KeyCodecMore.

(** ** Mutation batch *)

Section BatchMore.
Import KV.

Lemma hasBuckets_Reset (b : batch) : hasBuckets (Reset b).
Proof.
  intros t Ht. unfold tableNames in Ht.
  repeat (apply elem_of_cons in Ht as [->|Ht]; [by eexists|]).
  by apply elem_of_nil in Ht.
Qed.

Lemma hasBuckets_setTable (b b' : batch) t k v :
  hasBuckets b → setTable b t k v = Some b' → hasBuckets b'.
Proof.
  intros Hb. unfold setTable. destruct (tableMutations b !! t) as [m|] eqn:E; [|done].
  simpl. intros [= <-] t' Ht'. simpl.
  destruct (decide (t = t')) as [->|Hne].
  - rewrite lookup_insert_eq. by eexists.
  - rewrite lookup_insert_ne by done. by apply Hb.
Qed.

(** X3: a batch that has its three buckets never makes [SetRow],
    [SetIndex] or [SetLast] panic, and keeps its three buckets through
    every write, [Flush] and [FlushIfFull], whether they succeed or fail;
    [newBatch] and [Reset] give such a batch. *)
Theorem batch_keeps_buckets (b : batch) :
  hasBuckets b →
  (∀ k v, is_Some (SetRow b k v) ∧ is_Some (SetIndex b k v) ∧ is_Some (SetLast b k v)) ∧
  (∀ t k v b', setTable b t k v = Some b' → hasBuckets b') ∧
  (∀ (B : Backend) order (s : KVStore B),
     hasBuckets (Flush order b s).1.1 ∧ hasBuckets (FlushIfFull order b s).1.1) ∧
  hasBuckets newBatch ∧ hasBuckets (Reset b).
Proof.
  intros Hb.
  assert (∀ (B : Backend) order (s : KVStore B), hasBuckets (Flush order b s).1.1) as HF.
  { intros B order s. unfold Flush.
    destruct (flushTables order b tableNames s) as [s1 [e|]]; [done|].
    destruct (FlushPuts s1) as [s2 [e|]]; [done | apply hasBuckets_Reset]. }
  split; [|split; [|split; [|split]]].
  - intros k v. unfold SetRow, SetIndex, SetLast, setTable.
    destruct (Hb TblPrefixRows) as [m1 ->]; [unfold tableNames; set_solver|].
    destruct (Hb TblPrefixIndex) as [m2 ->]; [unfold tableNames; set_solver|].
    destruct (Hb TblPrefixLast) as [m3 ->]; [unfold tableNames; set_solver|].
    simpl. eauto.
  - intros t k v b'. by apply hasBuckets_setTable.
  - intros B order s. split; [apply HF|]. unfold FlushIfFull.
    destruct (decide _); [done|]. specialize (HF B order s).
    by destruct (Flush order b s) as [[b1 s1] [e|]].
  - apply hasBuckets_Reset.
  - apply hasBuckets_Reset.
Qed.

Lemma batch_keeps_buckets_witness :
  is_Some (SetRow Sample.someBatch "r3" (Some (bytesOf "w"))) ∧
  hasBuckets (Flush mapOrder Sample.someBatch Sample.flakyStore).1.1.
Proof.
  assert (hasBuckets Sample.someBatch) as Hb.
  { intros t Ht. unfold tableNames in Ht.
    repeat (apply elem_of_cons in Ht as [->|Ht]; [vm_compute; by eexists|]).
    by apply elem_of_nil in Ht. }
  destruct (batch_keeps_buckets Sample.someBatch Hb) as (Hset & _ & Hflush & _).
  split.
  - exact (proj1 (Hset "r3"%string (Some (bytesOf "w")))).
  - exact (proj1 (Hflush Sample.flaky mapOrder Sample.flakyStore)).
Defined.

Lemma mutsOf_setTable (b b' : batch) t k v t' :
  setTable b t k v = Some b' →
  mutsOf b' t' = if decide (t = t') then <[k := v]> (mutsOf b t) else mutsOf b t'.
Proof.
  unfold setTable, mutsOf. destruct (tableMutations b !! t) as [m|] eqn:E; [|done].
  simpl. intros [= <-]. simpl. destruct (decide (t = t')) as [<-|Hne].
  - by rewrite lookup_insert_eq.
  - by rewrite lookup_insert_ne.
Qed.

Lemma size_insert_le (m : gmap string value) k v :
  (size (<[k := v]> m) ≤ S (size m))%nat.
Proof. rewrite map_size_insert. destruct (m !! k); simpl; lia. Qed.

Lemma buffered_setTable (b b' : batch) t k v :
  setTable b t k v = Some b' → buffered b' ≤ buffered b + 1.
Proof.
  intros H. unfold buffered.
  rewrite !(mutsOf_setTable b b' t k v _ H).
  pose proof (size_insert_le (mutsOf b t) k v).
  assert (TblPrefixRows ≠ TblPrefixIndex) by (vm_compute; discriminate).
  assert (TblPrefixRows ≠ TblPrefixLast) by (vm_compute; discriminate).
  assert (TblPrefixIndex ≠ TblPrefixLast) by (vm_compute; discriminate).
  repeat case_decide; subst; first [congruence | lia].
Qed.

Lemma buffered_setAll ws (b b' : batch) :
  setAll ws b = Some b' → buffered b' ≤ buffered b + Z.of_nat (length ws).
Proof.
  revert b. induction ws as [|[[t k] v] ws IH]; intros b; simpl.
  - intros [= <-]. lia.
  - destruct (setTable b t k v) as [b1|] eqn:E; simpl; [|done].
    intros H. apply IH in H. apply buffered_setTable in E. lia.
Qed.

(** X4: the count never falls short of what is buffered: after any writes
    to a reset batch the buckets hold at most [count] mutations, so a
    batch that [FlushIfFull] leaves alone holds at most 100. *)
Theorem buffered_at_most_count (b0 b : batch) (ws : list (byte * string * value)) :
  setAll ws (Reset b0) = Some b →
  Z.of_nat (length ws) < 2 ^ 63 →
  buffered b ≤ count b ∧
  (∀ (B : Backend) order (s : KVStore B),
     FlushIfFull order b s = (b, s, None) ∨ 100 < count b) ∧
  (count b ≤ 100 → buffered b ≤ 100).
Proof.
  intros H Hlen. pose proof (setAll_count _ _ _ H) as Hc.
  pose proof (buffered_setAll _ _ _ H) as Hb. simpl in Hc.
  assert (buffered (Reset b0) = 0) as E by reflexivity. rewrite E in Hb.
  rewrite Hc by lia. split; [lia|]. split; [|lia].
  intros B order s. unfold FlushIfFull, maxMutationCount.
  destruct (decide _); [by left | right; lia].
Qed.

Lemma buffered_at_most_count_witness :
  buffered Sample.someBatch ≤ count Sample.someBatch ∧ buffered Sample.someBatch ≤ 100.
Proof.
  destruct (buffered_at_most_count newBatch Sample.someBatch Sample.writes)
    as (H1 & _ & H2).
  - vm_compute. reflexivity.
  - vm_compute. reflexivity.
  - split; [exact H1 | apply H2; vm_compute; discriminate].
Defined.

Section FlushFailure.
Context {B : Backend}.
Variable order : RangeOrder.

Lemma putMutations_fails tblName kvs (s s' : KVStore B) err :
  putMutations tblName kvs s = (s', Some err) →
  wrapsError err ∧
  ∃ made failed d e,
    (made ++ [failed]) `prefix_of` ((λ kv, CallPut (packKey tblName kv.1) kv.2) <$> kvs) ∧
    calls s' = calls s ++ made ++ [failed] ∧
    applyCalls B (db s) made = Some d ∧
    doCall B d failed = (db s', Some e) ∧
    Unwrap err = Some e.
Proof.
  revert s. induction kvs as [|[k v] kvs IH]; intros s; simpl; [done|].
  unfold Put. destruct (dbPut B (db s) (packKey tblName k) v) as [d [e|]] eqn:Eput.
  - intros [= <- <-]. split; [by eexists _, _, _|].
    exists [], (CallPut (packKey tblName k) v), (db s), e. simpl.
    split; [by apply prefix_cons, prefix_nil | done].
  - intros H. apply IH in H as (Hw & made & failed & d1 & e & Hp & Hc & Ha & Hd & Hu).
    split; [done|].
    exists (CallPut (packKey tblName k) v :: made), failed, d1, e. simpl in Hc, Ha.
    split; [by apply prefix_cons|]. split; [by rewrite Hc, <- app_assoc|].
    split; [|done]. simpl. by rewrite Eput.
Qed.

Lemma flushTables_fails (b : batch) tbls (s s' : KVStore B) err :
  flushTables order b tbls s = (s', Some err) →
  wrapsError err ∧
  ∃ made failed d e,
    (made ++ [failed]) `prefix_of` concat (putsOf order b <$> tbls) ∧
    calls s' = calls s ++ made ++ [failed] ∧
    applyCalls B (db s) made = Some d ∧
    doCall B d failed = (db s', Some e) ∧
    Unwrap err = Some e.
Proof.
  revert s. induction tbls as [|t tbls IH]; intros s; simpl; [done|].
  destruct (decide (Z.of_nat (size (mutsOf b t)) ≤ 0)) as [Hz|Hz].
  - assert (mutsOf b t = ∅) as E by (apply map_size_empty_inv; lia).
    intros H. apply IH in H as (Hw & made & failed & d & e & Hp & Hrest). split; [done|].
    exists made, failed, d, e. split; [|done].
    change (putsOf order b t)
      with ((λ kv, CallPut (packKey t kv.1) kv.2) <$> rangeOf order t (mutsOf b t)).
    by rewrite E, rangeOf_empty.
  - destruct (putMutations t (rangeOf order t (mutsOf b t)) s) as [s1 [e|]] eqn:E.
    + intros [= <- <-].
      apply putMutations_fails in E as (Hw & made & failed & d & e' & Hp & Hrest).
      split; [done|]. exists made, failed, d, e'. split; [|done].
      by apply prefix_app_r.
    + intros H. pose proof (putMutations_db _ _ _ _ E) as Edb.
      apply putMutations_calls in E.
      apply IH in H as (Hw & made & failed & d & e & Hp & Hc & Ha & Hd & Hu).
      split; [done|].
      exists (putsOf order b t ++ made), failed, d, e.
      split; [rewrite <- app_assoc; by apply prefix_app|].
      split; [by rewrite Hc, E, <- !app_assoc|].
      split; [|done]. rewrite applyCalls_app.
      change (putsOf order b t)
        with ((λ kv, CallPut (packKey t kv.1) kv.2) <$> rangeOf order t (mutsOf b t)).
      by rewrite Edb.
Qed.

(** X5: when [Flush] fails the batch keeps every mutation it held, the
    calls made are the first calls of a successful flush (rows, then index,
    then last, then the commit) up to the one that failed, every call before
    it succeeded, and the error handed back wraps the error the backend
    returned for the failed call. *)
Theorem Flush_failure_keeps_batch (b b' : batch) (s s' : KVStore B) (err : error) :
  Flush order b s = (b', s', Some err) →
  b' = b ∧ wrapsError err ∧
  ∃ made failed d e,
    (made ++ [failed]) `prefix_of` flushCalls order b ∧
    calls s' = calls s ++ made ++ [failed] ∧
    applyCalls B (db s) made = Some d ∧
    doCall B d failed = (db s', Some e) ∧
    Unwrap err = Some e.
Proof.
  unfold Flush, flushCalls.
  destruct (flushTables order b tableNames s) as [s1 [e|]] eqn:E.
  - intros [= <- <- <-]. split; [done|].
    apply flushTables_fails in E as (Hw & made & failed & d & e' & Hp & Hrest).
    split; [done|]. exists made, failed, d, e'. split; [|done].
    unfold tableNames in Hp. simpl in Hp. rewrite app_nil_r in Hp.
    rewrite !app_assoc. apply prefix_app_r. by rewrite <- !app_assoc.
  - pose proof (flushTables_db order b tableNames s s1 E) as Edb.
    apply flushTables_calls in E. unfold FlushPuts.
    destruct (dbFlushPuts B (db s1)) as [d [e|]] eqn:Ecommit; [|done].
    intros [= <- <- <-]. split; [done|]. split; [by eexists _, _, _|].
    exists (concat (putsOf order b <$> tableNames)), CallFlushPuts, (db s1), e.
    simpl. split; [|split; [|done]].
    + unfold tableNames. simpl. by rewrite app_nil_r, <- !app_assoc.
    + by rewrite E, <- app_assoc.
Qed.

End FlushFailure.

Lemma Flush_failure_keeps_batch_witness :
  (Flush mapOrder Sample.someBatch Sample.flakyStore).1.1 = Sample.someBatch ∧
  calls (Flush mapOrder Sample.someBatch Sample.flakyStore).1.2
    = [CallPut (packKey TblPrefixRows "r1") (Some (bytesOf "y"));
       CallPut (packKey TblPrefixRows "r2") (Some (bytesOf "z"));
       CallPut (packKey TblPrefixIndex "i1") (Some (bytesOf "snapshot"))] ∧
  (Flush mapOrder Sample.someBatch Sample.flakyStore).2 ≫= Unwrap
    = Some (External "disk full").
Proof.
  destruct (Flush mapOrder Sample.someBatch Sample.flakyStore) as [[b' s'] e] eqn:E.
  assert (e = Some (Wrapf "unable to add table %q key %q to tx: %w"
                      [ArgByte TblPrefixIndex; ArgStr "i1"] (External "disk full"))) as ->.
  { change e with (b', s', e).2. rewrite <- E. vm_compute. reflexivity. }
  destruct (Flush_failure_keeps_batch mapOrder Sample.someBatch b' Sample.flakyStore s' _ E)
    as (Hb & _ & made & failed & d & e & _ & _ & _ & Hfailed & Hwraps).
  cbn [fst snd]. split; [exact Hb|]. split.
  - change s' with (b', s', @None error).1.2.
    replace (b', s', @None error).1.2 with (b', s', Some (Wrapf "unable to add table %q key %q to tx: %w"
                      [ArgByte TblPrefixIndex; ArgStr "i1"] (External "disk full"))).1.2 by reflexivity.
    rewrite <- E. vm_compute. reflexivity.
  - change (Unwrap (Wrapf "unable to add table %q key %q to tx: %w"
                      [ArgByte TblPrefixIndex; ArgStr "i1"] (External "disk full"))
            = Some (External "disk full")).
    rewrite Hwraps. f_equal.
    destruct failed as [k v|]; simpl in Hfailed; [|discriminate].
    destruct d as [|n]; [|discriminate]. by injection Hfailed as _ <-.
Defined.

End BatchMore.

(** ** Writes and reads over the in-memory backend *)

Section FlushThenFetch.
Import KV MemKV.

(** X6: over the in-memory backend a flush never fails, and what it wrote
    is what a fetch then reads: every mutation of the batch is fetched back
    under its table and key with the last value written (nil read back as
    the empty value), the watermark bucket through [FetchLastWrittenBlock]
    as the block it names, and a key the batch does not hold is fetched as
    before the flush. *)
Theorem Flush_then_fetch (order : RangeOrder) (b : batch) (s : KVStore backend) :
  (Flush order b s).2 = None ∧
  (∀ t k v, t ∈ tableNames → mutsOf b t !! k = Some v →
     fetchKey (Flush order b s).1.2 t k = (Some (default [] v), None)) ∧
  (∀ k v, mutsOf b TblPrefixRows !! k = Some v →
     FetchTabletRow (Flush order b s).1.2 k = (Some (default [] v), None)) ∧
  (∀ k v, mutsOf b TblPrefixLast !! k = Some v →
     FetchLastWrittenBlock (Flush order b s).1.2 k
       = (Some (BlockRefFromID (Some (default [] v))), None)) ∧
  (∀ t k, staged (db s) = [] →
     ¬ (t ∈ tableNames ∧ is_Some (mutsOf b t !! k)) →
     fetchKey (Flush order b s).1.2 t k = fetchKey s t k).
Proof.
  rewrite Flush_mem. simpl.
  assert (∀ t k v, t ∈ tableNames → mutsOf b t !! k = Some v →
            fetchKey (mkStore ({| committed :=
                         foldl (λ l kv, insert kv.1 kv.2 l) (committed (db s))
                           (staged (db s) ++ stagedBy order b);
                       staged := [] |} : dbState backend)
                       (calls s ++ flushCalls order b)) t k
            = (Some (default [] v), None)) as Hfetch.
  { intros t k v Ht Hkv. unfold fetchKey. simpl. unfold get. simpl.
    rewrite foldl_app.
    rewrite (find_foldl_insert_in (packKey t k) (default [] v)); [done| |].
    - apply elem_of_stagedBy. by exists t, k, v.
    - intros v' Hv'. apply elem_of_stagedBy in Hv' as (t' & k' & w & _ & Hw & Hk & ->).
      apply packKey_eq_inv in Hk as [<- Hk]; apply bytesOf_inj in Hk as <-. congruence. }
  split; [done|]. split; [exact Hfetch|]. split; [|split].
  - intros k v. apply Hfetch. unfold tableNames. set_solver.
  - intros k v Hkv. unfold FetchLastWrittenBlock.
    rewrite (Hfetch TblPrefixLast k v); [done | unfold tableNames; set_solver | done].
  - intros t k Hst Hno. unfold fetchKey. simpl. unfold get. simpl.
    rewrite Hst. simpl.
    rewrite find_foldl_insert_notin; [done|].
    intros v Hv. apply elem_of_stagedBy in Hv as (t' & k' & w & Ht' & Hw & Hk & _).
    apply packKey_eq_inv in Hk as [<- Hk]; apply bytesOf_inj in Hk as <-. apply Hno. split; [done | by eexists].
Qed.

Lemma Flush_then_fetch_witness :
  FetchTabletRow Sample.flushedStore "r1" = (Some (bytesOf "y"), None) ∧
  FetchLastWrittenBlock Sample.flushedStore "last" = (Some "00000005aa"%string, None) ∧
  FetchTabletRow Sample.flushedStore "r9" = (None, Some ErrNotFound).
Proof.
  destruct (Flush_then_fetch mapOrder Sample.someBatch MemKV.newStore)
    as (_ & _ & Hrow & Hlast & Hother).
  split; [|split].
  - apply (Hrow "r1"%string (Some (bytesOf "y"))). vm_compute. reflexivity.
  - apply (Hlast "last"%string (Some (bytesOf "00000005aa"))). vm_compute. reflexivity.
  - unfold FetchTabletRow, Sample.flushedStore. rewrite Hother; [reflexivity | reflexivity |].
    intros [_ [v Hv]]. vm_compute in Hv. discriminate.
Defined.

End FlushThenFetch.

(** ** Row callbacks and iterator errors *)

Section ReadsMore.
Import KV.
Context {B : Backend}.

Lemma scanRangeLoop_all {A} (onRow : OnRow A) items (a a' : A) :
  visitAll onRow items a = Some a' →
  scanRangeLoop onRow items a = Some (Exhausted a').
Proof.
  revert a. induction items as [|item items IH]; intros a; simpl.
  - by intros [= ->].
  - destruct (unpackKey (Key item)) as [[t key]|]; simpl; [|done].
    destruct (onRow a key (Value item)) as [a1 [e|]]; [done | apply IH].
Qed.

Lemma scanPrefixLoop_all {A} (onRow : OnRow A) items (a a' : A) :
  visitAll onRow items a = Some a' →
  scanPrefixLoop onRow items a = Some (Exhausted a').
Proof.
  revert a. induction items as [|item items IH]; intros a; simpl.
  - by intros [= ->].
  - destruct (unpackKey (Key item)) as [[t key]|]; simpl; [|done].
    destruct (onRow a key (Value item)) as [a1 [e|]]; [done | apply IH].
Qed.

Lemma scanRangeLoop_fails {A} (onRow : OnRow A) pre item post (a a1 a2 : A) t key e :
  visitAll onRow pre a = Some a1 →
  unpackKey (Key item) = Some (t, key) →
  onRow a1 key (Value item) = (a2, Some e) → isBreakScan e = false →
  scanRangeLoop onRow (pre ++ item :: post) a
    = Some (Returned a2 (Some
        (Wrapf "scan range: unable to process for table %q with key %q: %w"
           [ArgStr (tblName t); ArgStr key] e))).
Proof.
  revert a. induction pre as [|x pre IH]; intros a; simpl.
  - intros [= ->] -> . simpl. by intros -> ->.
  - destruct (unpackKey (Key x)) as [[t' key']|]; simpl; [|done].
    destruct (onRow a key' (Value x)) as [a' [e'|]]; [done|]. apply IH.
Qed.

(** The callback [ScanTabletRows] hands to [scanRange]. *)
Lemma visitAll_tablet_rows {A} (onTabletRow : OnRow A) items (a a' : A) :
  visitAll onTabletRow items a = Some a' →
  visitAll (λ st key v,
              match onTabletRow st key v with
              | (st', Some e) =>
                  if isBreakScan e then (st', Some BreakScan)
                  else (st', Some (Wrapf "on tablet row for key %q failed: %w"
                                     [ArgStr key] e))
              | (st', None) => (st', None)
              end) items a = Some a'.
Proof.
  revert a. induction items as [|item items IH]; intros a; simpl; [done|].
  destruct (unpackKey (Key item)) as [[t key]|]; simpl; [|done].
  destruct (onTabletRow a key (Value item)) as [a1 [e|]]; [done | apply IH].
Qed.

(** X7: [ScanTabletRows] hands every scanned row to its callback, in scan
    order, as long as the callback returns nil. When the iterator then
    reports an error the rows have all been handed over and the error comes
    back wrapped twice; when the callback fails on a row the scan stops
    there and the callback's error comes back under three wrappers, so it
    is still reached by unwrapping. *)
Theorem ScanTabletRows_visits_rows {A} (s : KVStore B) (keyStart keyEnd : string)
  (onTabletRow : OnRow A) (a : A) :
  let itr := dbScan B (db s) (packKey TblPrefixRows keyStart)
               (scanEndKey TblPrefixRows keyEnd) Unlimited in
  (∀ a', visitAll onTabletRow (itItems itr) a = Some a' →
     ScanTabletRows s keyStart keyEnd onTabletRow a =
       Some (a', match itErr itr with
                 | None => None
                 | Some e =>
                     Some (Wrapf "unable to scan tablet rows [%q, %q[: %w"
                             [ArgStr keyStart; ArgStr keyEnd]
                             (Wrapf
                                "unable to scan table %q keys with start key %q and end key %q: %w"
                                [ArgStr (tblName TblPrefixRows); ArgStr keyStart;
                                 ArgStr keyEnd] e))
                 end)) ∧
  (∀ pre item post a1 a2 t key e,
     itItems itr = pre ++ item :: post →
     visitAll onTabletRow pre a = Some a1 →
     unpackKey (Key item) = Some (t, key) →
     onTabletRow a1 key (Value item) = (a2, Some e) → isBreakScan e = false →
     ∃ err, ScanTabletRows s keyStart keyEnd onTabletRow a = Some (a2, Some err) ∧
            UnwrapTimes 3 err = Some e).
Proof.
  intros itr. split.
  - intros a' Hall. unfold ScanTabletRows, scanRange. fold itr.
    rewrite (scanRangeLoop_all _ _ _ _ (visitAll_tablet_rows _ _ _ _ Hall)).
    simpl. by destruct (itErr itr).
  - intros pre item post a1 a2 t key e Hitems Hpre Hkey He Hne.
    unfold ScanTabletRows, scanRange. fold itr. rewrite Hitems.
    erewrite (scanRangeLoop_fails _ pre item post a a1 a2 t key);
      [| by apply visitAll_tablet_rows | done | by rewrite He, Hne | done].
    simpl. eexists. split; [reflexivity | done].
Qed.

(** X8: [HasTabletRow] answers true as soon as the prefix scan delivers one
    row, whatever the iterator reports afterwards; with no row it answers
    false, with the iterator's error wrapped twice when there is one. *)
Theorem HasTabletRow_first_row (s : KVStore B) (tabletKey : string) :
  let itr := dbPrefix B (db s) (packKey TblPrefixRows tabletKey) 1 in
  (∀ item rest, itItems itr = item :: rest → Key item ≠ [] →
     HasTabletRow s tabletKey = Some (true, None)) ∧
  (itItems itr = [] →
     HasTabletRow s tabletKey =
       Some (false,
             match itErr itr with
             | None => None
             | Some e =>
                 Some (Wrapf "scan prefix %q for table %q: %w"
                         [ArgStr tabletKey; ArgStr (tblName TblPrefixRows)]
                         (Wrapf "unable to scan table %q keys with prefix %q: %w"
                            [ArgStr (tblName TblPrefixRows); ArgStr tabletKey] e))
             end)).
Proof.
  intros itr. split.
  - intros item rest Hitems Hkey. unfold HasTabletRow, scanPrefix. fold itr.
    rewrite Hitems. simpl. by rewrite (unpackKey_nonempty _ Hkey).
  - intros Hitems. unfold HasTabletRow, scanPrefix. fold itr. rewrite Hitems.
    simpl. by destruct (itErr itr).
Qed.

(** X9: [FetchIndex] looks at the first row of its scan and at nothing
    else, and does not use [tableKey]: it answers that row when the row has
    a value and the key [unpackKey] gives for it starts with [prefixKey],
    and [store.ErrNotFound] otherwise, also when a later row would match;
    with no row it answers [store.ErrNotFound], or the iterator's error
    wrapped twice. *)
Theorem FetchIndex_first_row (s : KVStore B) (tableKey prefixKey keyStart : string) :
  let itr := dbScan B (db s) (packKey TblPrefixIndex keyStart)
               (scanEndKey TblPrefixIndex "") 1 in
  (∀ item rest t key, itItems itr = item :: rest →
     unpackKey (Key item) = Some (t, key) →
     FetchIndex s tableKey prefixKey keyStart =
       if String.prefix prefixKey key then
         match Value item with
         | Some v => Some (key, Some v, None)
         | None => Some (EmptyString, None, Some ErrNotFound)
         end
       else Some (EmptyString, None, Some ErrNotFound)) ∧
  (itItems itr = [] →
     FetchIndex s tableKey prefixKey keyStart =
       Some (EmptyString, None,
             match itErr itr with
             | None => Some ErrNotFound
             | Some e =>
                 Some (Wrapf "unable to fetch index for key prefix %q: %w"
                         [ArgStr prefixKey]
                         (Wrapf
                            "unable to scan table %q keys with start key %q and end key %q: %w"
                            [ArgStr (tblName TblPrefixIndex); ArgStr keyStart; ArgStr ""]
                            e))
             end)).
Proof.
  intros itr. split.
  - intros item rest t key Hitems Hkey.
    unfold FetchIndex, scanInfiniteRange, scanRange. fold itr.
    rewrite Hitems. simpl. rewrite Hkey. simpl.
    destruct (String.prefix prefixKey key); simpl; [|done].
    by destruct (Value item).
  - intros Hitems. unfold FetchIndex, scanInfiniteRange, scanRange. fold itr.
    rewrite Hitems. simpl. by destruct (itErr itr).
Qed.

Lemma fetchKeysLoop_all {A} (onTabletRow : OnRow A) items (a a' : A) :
  visitFetched onTabletRow items a = Some a' →
  fetchKeysLoop onTabletRow items a = Some (Exhausted a').
Proof.
  revert a. induction items as [|item items IH]; intros a; simpl.
  - by intros [= ->].
  - destruct (Value item); [|apply IH].
    destruct (unpackKey (Key item)) as [[t key]|]; simpl; [|done].
    destruct (onTabletRow a key _) as [a1 [e|]]; [done | apply IH].
Qed.

Lemma fetchKeysLoop_returned {A} (onTabletRow : OnRow A) pre item post
  (a a1 a2 : A) t key v e :
  visitFetched onTabletRow pre a = Some a1 →
  Value item = Some v →
  unpackKey (Key item) = Some (t, key) →
  onTabletRow a1 key (Some v) = (a2, Some e) →
  fetchKeysLoop onTabletRow (pre ++ item :: post) a
    = Some (Returned a2
              (if isBreakScan e then None
               else Some (Wrapf "on tablet row for key %q failed: %w" [ArgStr key] e))).
Proof.
  revert a. induction pre as [|x pre IH]; intros a; simpl.
  - intros [= ->] -> -> . simpl. intros ->. by destruct (isBreakScan e).
  - destruct (Value x); [|apply IH].
    destruct (unpackKey (Key x)) as [[t' key']|]; simpl; [|done].
    destruct (onTabletRow a key' _) as [a' [e'|]]; [done | apply IH].
Qed.

Lemma fetchKeysLoop_clean {A} (onTabletRow : OnRow A) items (a a' : A) err :
  fetchKeysLoop onTabletRow items a = Some (Returned a' err) → nilOrWrapped err.
Proof.
  revert a. induction items as [|item items IH]; intros a; simpl; [done|].
  destruct (Value item); [|apply IH].
  destruct (unpackKey (Key item)) as [[t key]|]; simpl; [|done].
  destruct (onTabletRow a key _) as [a1 [e|]]; [|apply IH].
  destruct (isBreakScan e); intros [= <- <-]; [by left | apply nilOrWrapped_Wrapf].
Qed.

(** X10: like the scans, [FetchTabletRows] never answers the scan-stop
    sentinel: its error is nil or wraps another. A callback that returns the
    sentinel ends the walk at that row with a nil error, a callback that
    fails ends it with its error wrapped once, and an error of the iterator
    comes back, wrapped once, after every fetched row has been handed
    over. *)
Theorem FetchTabletRows_stops_and_wraps {A} (s : KVStore B) (keys : list string)
  (onTabletRow : OnRow A) (a : A) :
  let itr := dbBatchGet B (db s) (packKey TblPrefixRows <$> keys) in
  (∀ a' err, FetchTabletRows s keys onTabletRow a = Some (a', err) →
     err ≠ Some BreakScan ∧ nilOrWrapped err) ∧
  (∀ pre item post a1 a2 t key v e,
     itItems itr = pre ++ item :: post →
     visitFetched onTabletRow pre a = Some a1 →
     Value item = Some v → unpackKey (Key item) = Some (t, key) →
     onTabletRow a1 key (Some v) = (a2, Some e) →
     FetchTabletRows s keys onTabletRow a =
       Some (a2, if isBreakScan e then None
                 else Some (Wrapf "on tablet row for key %q failed: %w" [ArgStr key] e))) ∧
  (∀ a', visitFetched onTabletRow (itItems itr) a = Some a' →
     FetchTabletRows s keys onTabletRow a =
       Some (a', Wrapf "unable to fetch table %q keys (%d): %w"
                   [ArgStr (tblName TblPrefixRows); ArgNum (Z.of_nat (length keys))]
                 <$> itErr itr)).
Proof.
  intros itr. unfold FetchTabletRows, fetchKeys. fold itr. split; [|split].
  - intros a' err.
    destruct (fetchKeysLoop onTabletRow (itItems itr) a) as [[a1|a1 e1]|] eqn:E;
      simpl; [| |done].
    + destruct (itErr itr); intros [= <- <-].
      * split; [done | apply nilOrWrapped_Wrapf].
      * split; [done | by left].
    + intros [= <- <-]. apply fetchKeysLoop_clean in E.
      split; [by apply nilOrWrapped_not_BreakScan | done].
  - intros pre item post a1 a2 t key v e Hitems Hpre Hv Hkey He.
    rewrite Hitems.
    by rewrite (fetchKeysLoop_returned _ pre item post a a1 a2 t key v e).
  - intros a' Hall. rewrite (fetchKeysLoop_all _ _ _ _ Hall). simpl.
    by destruct (itErr itr).
Qed.

End ReadsMore.

Section ReadsMoreWitnesses.
Import KV.

Lemma ScanTabletRows_visits_rows_witness :
  ScanTabletRows Sample.flushedStore "r" "" Sample.countRows 0%nat = Some (2%nat, None) ∧
  ∃ err, ScanTabletRows Sample.flushedStore "r" "" Sample.failRows 0%nat
           = Some (1%nat, Some err) ∧
         UnwrapTimes 3 err = Some (External "bad row").
Proof.
  destruct (ScanTabletRows_visits_rows Sample.flushedStore "r" "" Sample.countRows 0%nat)
    as [Hall _].
  destruct (ScanTabletRows_visits_rows Sample.flushedStore "r" "" Sample.failRows 0%nat)
    as [_ Hfail].
  split.
  - apply (Hall 2%nat). vm_compute. reflexivity.
  - apply (Hfail []
             {| Key := packKey TblPrefixRows "r1"; Value := Some (bytesOf "y") |}
             [{| Key := packKey TblPrefixRows "r2"; Value := Some (bytesOf "z") |}]
             0%nat 1%nat TblPrefixRows (String TblPrefixRows "r1") (External "bad row"));
      vm_compute; reflexivity.
Defined.

Lemma HasTabletRow_first_row_witness :
  HasTabletRow Sample.flushedStore "r" = Some (true, None) ∧
  HasTabletRow Sample.flushedStore "x" = Some (false, None).
Proof.
  split.
  - apply (proj1 (HasTabletRow_first_row Sample.flushedStore "r")
             {| Key := packKey TblPrefixRows "r1"; Value := Some (bytesOf "y") |} []);
      [vm_compute; reflexivity | discriminate].
  - rewrite (proj2 (HasTabletRow_first_row Sample.flushedStore "x"))
      by (vm_compute; reflexivity).
    vm_compute. reflexivity.
Defined.

Lemma FetchIndex_first_row_witness :
  FetchIndex Sample.flushedStore "" (String TblPrefixIndex "i") "i"
    = Some (String TblPrefixIndex "i1", Some (bytesOf "snapshot"), None) ∧
  FetchIndex Sample.flushedStore "" "i" "zz" = Some (EmptyString, None, Some ErrNotFound).
Proof.
  split.
  - rewrite (proj1 (FetchIndex_first_row Sample.flushedStore ""
                      (String TblPrefixIndex "i") "i")
               {| Key := packKey TblPrefixIndex "i1";
                  Value := Some (bytesOf "snapshot") |} []
               TblPrefixIndex (String TblPrefixIndex "i1"));
      vm_compute; reflexivity.
  - rewrite (proj2 (FetchIndex_first_row Sample.flushedStore "" "i" "zz"))
      by (vm_compute; reflexivity).
    vm_compute. reflexivity.
Defined.

End ReadsMoreWitnesses.

Lemma FetchTabletRows_stops_and_wraps_witness :
  KV.FetchTabletRows Sample.flushedStore ["r1"; "r9"; "r2"]%string Sample.stopAtFirst 0%nat
    = Some (1%nat, None) ∧
  KV.FetchTabletRows Sample.flakyStore ["r1"]%string Sample.countRows 0%nat
    = Some (1%nat,
            Some (Wrapf "unable to fetch table %q keys (%d): %w"
                    [ArgStr "tablet"; ArgNum 1] (External "connection lost"))).
Proof.
  split.
  - apply (proj1 (proj2 (FetchTabletRows_stops_and_wraps Sample.flushedStore
                           ["r1"; "r9"; "r2"]%string Sample.stopAtFirst 0%nat))
             [] {| KV.Key := KV.packKey KV.TblPrefixRows "r1";
                   KV.Value := Some (bytesOf "y") |}
             [{| KV.Key := KV.packKey KV.TblPrefixRows "r9"; KV.Value := None |};
              {| KV.Key := KV.packKey KV.TblPrefixRows "r2";
                 KV.Value := Some (bytesOf "z") |}]
             0%nat 1%nat KV.TblPrefixRows (String KV.TblPrefixRows "r1")
             (bytesOf "y") BreakScan);
      vm_compute; reflexivity.
  - apply (proj2 (proj2 (FetchTabletRows_stops_and_wraps Sample.flakyStore
                           ["r1"]%string Sample.countRows 0%nat)) 1%nat).
    vm_compute. reflexivity.
Defined.

(** ** Shard injector: invariants and failures *)

Section InjectorMore.
Import Go FluxDB.
Context {D : Type}.
Variable ops : FluxDBOps D.
Variable shardsStore : ObjectStore.

Lemma readLoop_above recs ending startAfter requests result :
  readLoop recs ending startAfter requests = (result, None) →
  Forall (λ r, startAfter < Height r) requests →
  Forall (λ r, startAfter < Height r) result.
Proof.
  revert requests. induction recs as [|r recs IH]; intros requests; simpl.
  - destruct (isEOF ending); [by intros [= <-] | done].
  - destruct (decide (Height r ≤ startAfter)); [apply IH|].
    intros H Hreq. apply (IH _ H). apply Forall_app. split; [done|].
    constructor; [lia | constructor].
Qed.

Lemma readLoop_fails recs ending startAfter requests :
  isEOF ending = false →
  readLoop recs ending startAfter requests
    = ([], Some (Wrapf "unable to read WriteRequest: %w" [] ending)).
Proof.
  intros H. revert requests. induction recs as [|r recs IH]; intros requests; simpl.
  - by rewrite H.
  - destruct (decide _); apply IH.
Qed.

Lemma onShardFile_aboveWatermark startAfter w0 (st st' : injector D) name err :
  onShardFile ops shardsStore startAfter st name = (st', err) →
  aboveWatermark w0 st → aboveWatermark w0 st' ∧ startAfterNum st ≤ startAfterNum st'.
Proof.
  intros H [Hw Hall]. revert H. unfold onShardFile.
  assert (aboveWatermark w0 st ∧ startAfterNum st ≤ startAfterNum st) as Hsame
    by (split; [by split | lia]).
  destruct (parseFileName name) as [[f l] [e|]]; [by intros [= <- _]|].
  destruct (decide _); [by intros [= <- _]|].
  destruct (decide (l ≤ startAfterNum st)) as [|Hl]; [by intros [= <- _]|].
  destruct (OpenObject shardsStore name) as [reader|e];
    [|intros [= <- _]; split; [by split | simpl; lia]].
  destruct (readWriteRequestsForBatch reader (startAfterNum st)) as [reqs [e|]] eqn:Er;
    [intros [= <- _]; split; [by split | simpl; lia]|].
  assert (Forall (λ r, w0 < Height r) reqs) as Hreqs.
  { unfold readWriteRequestsForBatch in Er.
    apply readLoop_above in Er; [|constructor].
    eapply Forall_impl; [exact Er|]. simpl. intros r Hr. lia. }
  assert (Forall (Forall (λ r, w0 < Height r)) (written st ++ [reqs])) as Hall'.
  { apply Forall_app. split; [done|]. by constructor. }
  destruct (WriteBatch ops (fdb st) reqs) as [d [e|]]; intros [= <- _];
    (split; [split|]); simpl; first [done | lia].
Qed.

Lemma walkNames_aboveWatermark startAfter w0 names (st st' : injector D) err :
  walkNames shardsStore (onShardFile ops shardsStore startAfter) names st = (st', err) →
  aboveWatermark w0 st → aboveWatermark w0 st'.
Proof.
  revert st. induction names as [|n names IH]; intros st; simpl.
  - by intros [= <- _].
  - destruct (onShardFile ops shardsStore startAfter st n) as [st1 [e|]] eqn:E.
    + intros [= <- _] Hst. by apply (onShardFile_aboveWatermark _ _ _ _ _ _ E).
    + intros H Hst. apply (IH _ H).
      by apply (onShardFile_aboveWatermark _ _ _ _ _ _ E).
Qed.

(** X11: whatever the store holds and however the run ends, [Run] hands
    [WriteBatch] only requests whose height is above the watermark it
    started from, and its watermark tracker never falls below it. *)
Theorem Run_writes_above_watermark (d : D) (startAfter : BlockRef)
  (st : injector D) (err : option error) :
  FetchLastWrittenBlock ops d = (startAfter, None) →
  Run ops shardsStore d = (st, err) →
  wrap64 (Num startAfter) ≤ startAfterNum st ∧
  ∀ requests r, requests ∈ written st → r ∈ requests →
                wrap64 (Num startAfter) < Height r.
Proof.
  intros Hfetch. unfold Run, Walk. rewrite Hfetch.
  destruct (walkNames _ _ _ _) as [st' e] eqn:E.
  apply (walkNames_aboveWatermark _ (wrap64 (Num startAfter))) in E as [Hw Hall];
    [|split; [simpl; lia | constructor]].
  intros H. assert (st = st') as -> by (by destruct e; injection H as -> _).
  split; [done|]. intros requests r Hreq Hr.
  rewrite Forall_forall in Hall. specialize (Hall _ Hreq).
  rewrite Forall_forall in Hall. by apply Hall.
Qed.

(** X12: an object past the gap check and the skip check that cannot be
    opened, or whose content does not decode to its end, makes the callback
    fail with an error that names the object and wraps the cause; no
    request of it is written, not even those decoded before the failure,
    and the database and the watermark tracker stay as they were. When it
    is [WriteBatch] that fails the tracker stays as well. *)
Theorem onShardFile_failure_names_object (startAfter : BlockRef) (st : injector D)
  (name : string) (first last : Z) :
  parseFileName name = (first, last, None) →
  first ≤ wrap64 (startAfterNum st + 1) →
  startAfterNum st < last →
  (∀ e, OpenObject shardsStore name = inr e →
     onShardFile ops shardsStore startAfter st name
       = (mkInjector (fdb st) (opened st ++ [name]) (written st) (startAfterNum st),
          Some (Wrapf "opening object from shards store %q: %w" [ArgStr name] e))) ∧
  (∀ reader, OpenObject shardsStore name = inl reader →
     isEOF (ending reader) = false →
     onShardFile ops shardsStore startAfter st name
       = (mkInjector (fdb st) (opened st ++ [name]) (written st) (startAfterNum st),
          Some (Wrapf "unable to read all write requests in batch %q: %w" [ArgStr name]
                  (Wrapf "unable to read WriteRequest: %w" [] (ending reader))))) ∧
  (∀ reader d' e, OpenObject shardsStore name = inl reader →
     ending reader = EOF →
     WriteBatch ops (fdb st)
       (filter (λ r, startAfterNum st < Height r) (records reader)) = (d', Some e) →
     onShardFile ops shardsStore startAfter st name
       = (mkInjector d' (opened st ++ [name])
            (written st ++ [filter (λ r, startAfterNum st < Height r) (records reader)])
            (startAfterNum st),
          Some (Wrapf "write batch %q: %w" [ArgStr name] e))).
Proof.
  intros Hparse Hgap Hlast. unfold onShardFile. rewrite Hparse.
  rewrite decide_False by lia. rewrite decide_False by lia.
  split; [|split].
  - intros e ->. done.
  - intros reader -> Hend. unfold readWriteRequestsForBatch.
    by rewrite (readLoop_fails _ _ _ _ Hend).
  - intros reader d' e -> Heof Hwrite.
    rewrite (readWriteRequestsForBatch_filter _ _ Heof). simpl. by rewrite Hwrite.
Qed.

Lemma walkNames_all_applied startAfter names (st : injector D) :
  Forall (λ name, ∃ first last,
            parseFileName name = (first, last, None) ∧
            first ≤ wrap64 (startAfterNum st + 1) ∧ last ≤ startAfterNum st) names →
  walkNames shardsStore (onShardFile ops shardsStore startAfter) names st
    = (st, objWalkErr shardsStore).
Proof.
  induction 1 as [|name names (first & last & Hparse & Hgap & Hlast) _ IH]; simpl; [done|].
  unfold onShardFile at 1. rewrite Hparse.
  rewrite decide_False by lia. by rewrite decide_True.
Qed.

(** X13: a run over objects that are all applied already, each ending at or
    below the watermark and none leaving a gap, opens no object, writes
    nothing, leaves the watermark where it was and succeeds. *)
Theorem Run_resumes_without_writing (d : D) (startAfter : BlockRef) :
  FetchLastWrittenBlock ops d = (startAfter, None) →
  objWalkErr shardsStore = None →
  Forall (λ name, ∃ first last,
            parseFileName name = (first, last, None) ∧
            first ≤ wrap64 (wrap64 (Num startAfter) + 1) ∧
            last ≤ wrap64 (Num startAfter)) (objNames shardsStore) →
  Run ops shardsStore d = (mkInjector d [] [] (wrap64 (Num startAfter)), None).
Proof.
  intros Hfetch Hwalk Hall. unfold Run, Walk. rewrite Hfetch.
  rewrite walkNames_all_applied by done. by rewrite Hwalk.
Qed.

End InjectorMore.

Lemma Run_writes_above_watermark_witness :
  wrap64 5 ≤ FluxDB.startAfterNum (FluxDB.Run Sample.listOps Sample.contiguous []).1 ∧
  ∀ requests r,
    requests ∈ FluxDB.written (FluxDB.Run Sample.listOps Sample.contiguous []).1 →
    r ∈ requests → wrap64 5 < FluxDB.Height r.
Proof.
  apply (Run_writes_above_watermark Sample.listOps Sample.contiguous [] Sample.block5
           (FluxDB.Run Sample.listOps Sample.contiguous []).1
           (FluxDB.Run Sample.listOps Sample.contiguous []).2);
    [reflexivity | by destruct (FluxDB.Run Sample.listOps Sample.contiguous [])].
Defined.

Lemma onShardFile_failure_names_object_witness :
  FluxDB.onShardFile Sample.listOps Sample.truncated Sample.block5 Sample.atBlock5 "6-9"
    = (FluxDB.mkInjector [] ["6-9"%string] [] 5,
       Some (Wrapf "unable to read all write requests in batch %q: %w" [ArgStr "6-9"]
               (Wrapf "unable to read WriteRequest: %w" [] (External "unexpected EOF")))).
Proof.
  apply (proj1 (proj2 (onShardFile_failure_names_object Sample.listOps Sample.truncated
                         Sample.block5 Sample.atBlock5 "6-9" 6 9
                         ltac:(vm_compute; reflexivity)
                         ltac:(vm_compute; discriminate)
                         ltac:(vm_compute; reflexivity)))
           {| FluxDB.records := Sample.request <$> [6; 7];
              FluxDB.ending := External "unexpected EOF" |});
    reflexivity.
Defined.

Lemma Run_resumes_without_writing_witness :
  FluxDB.Run Sample.listOps Sample.applied [] = (Sample.atBlock5, None).
Proof.
  apply (Run_resumes_without_writing Sample.listOps Sample.applied [] Sample.block5);
    [reflexivity | reflexivity |].
  constructor; [|constructor; [|constructor]].
  - exists 1, 3. split; [vm_compute; reflexivity|].
    split; vm_compute; discriminate.
  - exists 4, 5. split; [vm_compute; reflexivity|].
    split; vm_compute; discriminate.
Defined.

Section DecodeMore.
Import FluxDB.

(** X14: [readWriteRequestsForBatch] returns, in stream order, exactly the
    decoded requests whose height is above [startAfter] when the stream ends
    with [io.EOF]; when decoding stops on any other error it returns no
    request at all, whatever it had decoded, and that error wrapped. *)
Theorem readWriteRequestsForBatch_filters_or_fails (reader : gobStream) (startAfter : Z) :
  readWriteRequestsForBatch reader startAfter =
    if isEOF (ending reader)
    then (filter (λ r, startAfter < Height r) (records reader), None)
    else ([], Some (Wrapf "unable to read WriteRequest: %w" [] (ending reader))).
Proof.
  destruct (isEOF (ending reader)) eqn:E.
  - apply readWriteRequestsForBatch_filter. by destruct (ending reader).
  - unfold readWriteRequestsForBatch. by apply readLoop_fails.
Qed.

End DecodeMore.

Section BatchCompose.
Import KV.

(** X15: writes to different keys do not interfere: two writes that differ
    in table or key leave the same buffered mutations and the same count in
    either order. *)
Theorem setTable_commutes (b : batch) (t1 t2 : byte) (k1 k2 : string) (v1 v2 : value) :
  (t1, k1) ≠ (t2, k2) →
  hasBuckets b → t1 ∈ tableNames → t2 ∈ tableNames →
  ∃ b12 b21,
    setTable b t1 k1 v1 ≫= (λ b1, setTable b1 t2 k2 v2) = Some b12 ∧
    setTable b t2 k2 v2 ≫= (λ b2, setTable b2 t1 k1 v1) = Some b21 ∧
    tableMutations b12 = tableMutations b21 ∧ count b12 = count b21.
Proof.
  intros Hne Hb Ht1 Ht2.
  destruct (Hb t1 Ht1) as [m1 Hm1]. destruct (Hb t2 Ht2) as [m2 Hm2].
  unfold setTable. rewrite Hm1, Hm2. simpl.
  destruct (decide (t1 = t2)) as [<-|Ht].
  - assert (k1 ≠ k2) as Hk by congruence.
    rewrite !lookup_insert_eq. simpl. eexists _, _.
    split; [done|]. split; [done|]. simpl. split; [|done].
    rewrite !insert_insert_eq. f_equal.
    assert (m1 = m2) as -> by congruence. by apply insert_insert_ne.
  - rewrite !lookup_insert_ne by done. rewrite Hm1, Hm2. simpl. eexists _, _.
    split; [done|]. split; [done|]. simpl. split; [|done].
    by apply insert_insert_ne.
Qed.

Lemma setTable_commutes_witness :
  ∃ b12 b21,
    SetRow newBatch "r1" (Some (bytesOf "x"))
      ≫= (λ b1, SetLast b1 "last" (Some (bytesOf "00000005aa"))) = Some b12 ∧
    SetLast newBatch "last" (Some (bytesOf "00000005aa"))
      ≫= (λ b2, SetRow b2 "r1" (Some (bytesOf "x"))) = Some b21 ∧
    tableMutations b12 = tableMutations b21 ∧ count b12 = count b21.
Proof.
  apply (setTable_commutes newBatch TblPrefixRows TblPrefixLast "r1" "last").
  - vm_compute. discriminate.
  - apply hasBuckets_Reset.
  - unfold tableNames. set_solver.
  - unfold tableNames. set_solver.
Defined.

(** X16: flushing a batch that holds nothing still commits: [Flush] of a
    reset batch makes one backend call, [FlushPuts], and no put, while
    [FlushIfFull] of a reset batch makes no call at all. *)
Theorem Flush_of_empty_batch_commits {B : Backend} (order : RangeOrder)
  (b : batch) (s : KVStore B) :
  calls (Flush order (Reset b) s).1.2 = calls s ++ [CallFlushPuts] ∧
  FlushIfFull order (Reset b) s = (Reset b, s, None).
Proof.
  split; [|done].
  assert (∀ t, t ∈ tableNames → mutsOf (Reset b) t = ∅) as Hempty.
  { intros t Ht. unfold tableNames in Ht.
    repeat (apply elem_of_cons in Ht as [->|Ht]); [by vm_compute ..|].
    by apply elem_of_nil in Ht. }
  unfold Flush, tableNames, flushTables.
  rewrite !Hempty by (unfold tableNames; set_solver).
  rewrite map_size_empty. simpl.
  unfold FlushPuts. by destruct (dbFlushPuts B (db s)) as [d [e|]].
Qed.

End BatchCompose.

Section SingletFetchMore.
Import KV.
Context {B : Backend}.

(** X17: [FetchSingletEntry] hands back the first row of its scan, with the
    key [unpackKey] gives for it, whatever the iterator reports after that
    row; a scan without rows is not an error: it answers the empty key and a
    nil value, unless the iterator failed, whose error then comes back
    wrapped twice with no key and no value. *)
Theorem FetchSingletEntry_first_row (s : KVStore B) (keyStart keyEnd : string) :
  let itr := dbScan B (db s) (packKey TblPrefixRows keyStart)
               (scanEndKey TblPrefixRows keyEnd) 1 in
  (∀ item rest t key, itItems itr = item :: rest →
     unpackKey (Key item) = Some (t, key) →
     FetchSingletEntry s keyStart keyEnd = Some (key, Value item, None)) ∧
  (itItems itr = [] →
     FetchSingletEntry s keyStart keyEnd =
       Some (EmptyString, None,
             match itErr itr with
             | None => None
             | Some e =>
                 Some (Wrapf "unable to fetch single tablet row (range [%s, %s[): %w"
                         [ArgStr keyStart; ArgStr keyEnd]
                         (Wrapf
                            "unable to scan table %q keys with start key %q and end key %q: %w"
                            [ArgStr (tblName TblPrefixRows); ArgStr keyStart;
                             ArgStr keyEnd] e))
             end)).
Proof.
  intros itr. split.
  - intros item rest t key Hitems Hkey. unfold FetchSingletEntry, scanRange. fold itr.
    rewrite Hitems. simpl. by rewrite Hkey.
  - intros Hitems. unfold FetchSingletEntry, scanRange. fold itr. rewrite Hitems.
    simpl. by destruct (itErr itr).
Qed.

Lemma scanPrefixLoop_fails {A} (onRow : OnRow A) pre item post (a a1 a2 : A) t key e :
  visitAll onRow pre a = Some a1 →
  unpackKey (Key item) = Some (t, key) →
  onRow a1 key (Value item) = (a2, Some e) → isBreakScan e = false →
  scanPrefixLoop onRow (pre ++ item :: post) a
    = Some (Returned a2 (Some
        (Wrapf "scan prefix: unable to process for table %q with key %q: %w"
           [ArgStr (tblName t); ArgStr key] e))).
Proof.
  revert a. induction pre as [|x pre IH]; intros a; simpl.
  - intros [= ->] -> . simpl. by intros -> ->.
  - destruct (unpackKey (Key x)) as [[t' key']|]; simpl; [|done].
    destruct (onRow a key' (Value x)) as [a' [e'|]]; [done|]. apply IH.
Qed.

Lemma visitAll_block_refs {A} (onBlockRef : A → string → BlockRef → A * option error)
  items (a a' : A) :
  visitAll (λ st k v, onBlockRef st k (BlockRefFromID v)) items a = Some a' →
  visitAll (λ st key v,
              match onBlockRef st key (BlockRefFromID v) with
              | (st', Some e) =>
                  if isBreakScan e then (st', Some BreakScan)
                  else (st', Some (Wrapf "on block ref for table %q key %q failed: %w"
                                     [ArgByte TblPrefixRows; ArgStr key] e))
              | (st', None) => (st', None)
              end) items a = Some a'.
Proof.
  revert a. induction items as [|item items IH]; intros a; simpl; [done|].
  destruct (unpackKey (Key item)) as [[t key]|]; simpl; [|done].
  destruct (onBlockRef a key (BlockRefFromID (Value item))) as [a1 [e|]]; [done | apply IH].
Qed.

(** X18: [ScanLastShardsWrittenBlock] hands every entry under the key
    prefix to its callback, in scan order, the value turned into the block
    reference it names, as long as the callback returns nil; an iterator
    error then comes back wrapped twice, and a failure of the callback
    stops the scan at that entry and comes back under three wrappers. *)
Theorem ScanLastShardsWrittenBlock_visits_entries {A} (s : KVStore B)
  (keyPrefix : string)
  (onBlockRef : A → string → BlockRef → A * option error) (a : A) :
  let itr := dbPrefix B (db s) (packKey TblPrefixLast keyPrefix) Unlimited in
  (∀ a', visitAll (λ st k v, onBlockRef st k (BlockRefFromID v)) (itItems itr) a
           = Some a' →
     ScanLastShardsWrittenBlock s keyPrefix onBlockRef a =
       Some (a', match itErr itr with
                 | None => None
                 | Some e =>
                     Some (Wrapf "unable to determine if table %q has key prefix %q: %w"
                             [ArgByte TblPrefixLast; ArgStr keyPrefix]
                             (Wrapf "unable to scan table %q keys with prefix %q: %w"
                                [ArgStr (tblName TblPrefixLast); ArgStr keyPrefix] e))
                 end)) ∧
  (∀ pre item post a1 a2 t key e,
     itItems itr = pre ++ item :: post →
     visitAll (λ st k v, onBlockRef st k (BlockRefFromID v)) pre a = Some a1 →
     unpackKey (Key item) = Some (t, key) →
     onBlockRef a1 key (BlockRefFromID (Value item)) = (a2, Some e) →
     isBreakScan e = false →
     ∃ err, ScanLastShardsWrittenBlock s keyPrefix onBlockRef a = Some (a2, Some err) ∧
            UnwrapTimes 3 err = Some e).
Proof.
  intros itr. split.
  - intros a' Hall. unfold ScanLastShardsWrittenBlock, scanPrefix. fold itr.
    rewrite (scanPrefixLoop_all _ _ _ _ (visitAll_block_refs _ _ _ _ Hall)).
    simpl. by destruct (itErr itr).
  - intros pre item post a1 a2 t key e Hitems Hpre Hkey He Hne.
    unfold ScanLastShardsWrittenBlock, scanPrefix. fold itr. rewrite Hitems.
    erewrite (scanPrefixLoop_fails _ pre item post a a1 a2 t key);
      [| by apply visitAll_block_refs | done | by rewrite He, Hne | done].
    simpl. eexists. split; [reflexivity | done].
Qed.

End SingletFetchMore.

Section MoreWitnesses.
Import KV.

Lemma FetchSingletEntry_first_row_witness :
  FetchSingletEntry Sample.flushedStore "r" ""
    = Some (String TblPrefixRows "r1", Some (bytesOf "y"), None) ∧
  FetchSingletEntry Sample.flushedStore "s" "" = Some (EmptyString, None, None).
Proof.
  split.
  - apply (proj1 (FetchSingletEntry_first_row Sample.flushedStore "r" "")
             {| Key := packKey TblPrefixRows "r1"; Value := Some (bytesOf "y") |} []
             TblPrefixRows (String TblPrefixRows "r1"));
      vm_compute; reflexivity.
  - rewrite (proj2 (FetchSingletEntry_first_row Sample.flushedStore "s" ""))
      by (vm_compute; reflexivity).
    vm_compute. reflexivity.
Defined.

Lemma ScanLastShardsWrittenBlock_visits_entries_witness :
  ScanLastShardsWrittenBlock Sample.flushedStore "la"
    (λ (seen : list BlockRef) _ ref, (seen ++ [ref], None)) []
    = Some (["00000005aa"%string], None).
Proof.
  apply (proj1 (ScanLastShardsWrittenBlock_visits_entries Sample.flushedStore "la"
                  (λ (seen : list BlockRef) _ ref, (seen ++ [ref], None)) [])).
  vm_compute. reflexivity.
Defined.

End MoreWitnesses.
